(** * Companies House director search: identity resolution and
      appointment categorisation

    A shallow embedding of the core functions of [src/main.py] and the
    properties of the specification that concern them: the name
    normaliser, the registry client, the appointment categoriser, the
    date-of-birth filter of the match finder, the identity aggregator and
    the similarity score.

    Conventions of the embedding.
    - Python [str] values are [string]s over ASCII; [str.upper] and
      [str.lower] change the 26 letters only, and the white space of
      [str.strip] and [str.split] is the ASCII white space of Python
      (code points 9 to 13, 28 to 31 and 32).  Code points above 127 are
      outside the embedding.
    - Registry payloads are records with the fields the code reads, each
      holding a string, an integer or a nested record as the registry
      documents them; a field of type [option _] is [None] when the key is
      absent from the JSON object (the case the code covers with
      [dict.get]).
    - Python truthiness of an optional string ([if x], [not x]) is
      [truthy]: present and non-empty.
    - Code that sends requests runs in the monad [M]: the state counts the
      requests sent, the registry and the network are a function from the
      request to its outcome, and a computation returns or raises.
    - [difflib.SequenceMatcher], which [name_similarity] calls, is embedded
      from the Python standard library; its float result is kept as the
      exact rational. *)

From Stdlib Require Import ZArith QArith Ascii String.
From stdpp Require Import base option list sorting strings gmap pretty.

Local Open Scope string_scope.

(** ** Python string operations *)

Module PyStr.

Definition code (c : ascii) : N := N_of_ascii c.

(** [str.isspace] on one ASCII character. *)
Definition isspace (c : ascii) : bool :=
  ((9 <=? code c) && (code c <=? 13) || (28 <=? code c) && (code c <=? 32))%N.

Definition upper_char (c : ascii) : ascii :=
  if ((97 <=? code c) && (code c <=? 122))%N
  then ascii_of_N (code c - 32) else c.

Definition lower_char (c : ascii) : ascii :=
  if ((65 <=? code c) && (code c <=? 90))%N
  then ascii_of_N (code c + 32) else c.

Fixpoint map_chars (f : ascii → ascii) (s : string) : string :=
  match s with
  | "" => ""
  | String c s' => String (f c) (map_chars f s')
  end.

(** [s.upper()] and [s.lower()]. *)
Definition upper : string → string := map_chars upper_char.
Definition lower : string → string := map_chars lower_char.

(** [s.lstrip()], [s.rstrip()] and [s.strip()]. *)
Fixpoint lstrip (s : string) : string :=
  match s with
  | "" => ""
  | String c s' => if isspace c then lstrip s' else s
  end.

Fixpoint rstrip (s : string) : string :=
  match s with
  | "" => ""
  | String c s' =>
      match rstrip s' with
      | "" => if isspace c then "" else String c ""
      | r => String c r
      end
  end.

Definition strip (s : string) : string := rstrip (lstrip s).

(** [sub in s] for strings. *)
Fixpoint contains (sub s : string) : bool :=
  match s with
  | "" => String.prefix sub ""
  | String _ s' => String.prefix sub s || contains sub s'
  end.

(** [s.replace(old, new)] for a non-empty [old]: occurrences are found
    from the left and do not overlap.  [skip] counts the characters of a
    matched occurrence that are still to be passed over. *)
Fixpoint replace_go (old new : string) (skip : nat) (s : string) : string :=
  match s with
  | "" => ""
  | String c s' =>
      match skip with
      | S k => replace_go old new k s'
      | O =>
          if String.prefix old s
          then new ++ replace_go old new (String.length old - 1) s'
          else String c (replace_go old new 0 s')
      end
  end.

Definition replace (old new s : string) : string := replace_go old new 0 s.

(** [s.split(sep)] for a non-empty [sep]; [cur] is the piece being read. *)
Fixpoint split_go (sep : string) (skip : nat) (cur s : string) : list string :=
  match s with
  | "" => [cur]
  | String c s' =>
      match skip with
      | S k => split_go sep k cur s'
      | O =>
          if String.prefix sep s
          then cur :: split_go sep (String.length sep - 1) "" s'
          else split_go sep 0 (cur ++ String c "") s'
      end
  end.

Definition split (sep s : string) : list string := split_go sep 0 "" s.

(** [s.split()]: pieces separated by runs of white space, none empty. *)
Fixpoint split_ws_go (cur s : string) : list string :=
  match s with
  | "" => if decide (cur = "") then [] else [cur]
  | String c s' =>
      if isspace c
      then (if decide (cur = "") then [] else [cur]) ++ split_ws_go "" s'
      else split_ws_go (cur ++ String c "") s'
  end.

Definition split_ws (s : string) : list string := split_ws_go "" s.

(** [sep.join(l)]. *)
Definition join (sep : string) (l : list string) : string := String.concat sep l.

(** [sorted(l)] on strings.  Python compares strings by code point,
    lexicographically, which is [String.le]; that order is total and
    antisymmetric, so the sorted list is the same for every sorting
    algorithm. *)
Definition sorted (l : list string) : list string := merge_sort String.le l.

(** Truthiness of a value that is [None] or a string. *)
Definition truthy (o : option string) : bool :=
  match o with
  | Some s => negb (String.eqb s "")
  | None => false
  end.

End PyStr.

Import PyStr.

(** ** Name normaliser *)

Definition prefixes : list string :=
  ["MR"; "MRS"; "MS"; "MISS"; "DR"; "SIR"; "LADY"; "LORD"].

(** One turn of the loop over [prefixes] in [format_name_proper_order]. *)
Definition strip_prefix (name_upper prefix : string) : string :=
  replace (prefix ++ ", ") "" (replace (prefix ++ " ") "" name_upper).

Definition format_name_proper_order (name : string) : string :=
  let name_upper := foldl strip_prefix (upper name) prefixes in
  if contains "," name_upper then
    match strip <$> split "," name_upper with
    | [surname; forenames] => strip (forenames ++ " " ++ surname)
    | _ => strip name_upper
    end
  else strip name_upper.

Definition normalize_name (name : string) : string :=
  let parts := split_ws (replace "," " " (upper name)) in
  let cleaned := filter (λ p, p ∉ prefixes) parts in
  join " " (sorted cleaned).

Definition extract_first_last (name : string) : string * string :=
  let parts := split_ws (replace "," " " (upper name)) in
  let cleaned := filter (λ p, p ∉ prefixes) parts in
  match cleaned with
  | [] => ("", "")
  | [x] => (x, x)
  | x :: rest => (x, List.last rest x)
  end.

(** ** Registry client *)

Module Registry.

(** Exceptions that can arise inside the [try] block of [api_call]; all
    are subclasses of Python's [Exception]. *)
Inductive exn :=
| ConnectionError
| Timeout
| JSONDecodeError
| RecursionError.

Inductive result (A : Type) :=
| Ok (a : A)
| Raise (e : exn).
Global Arguments Ok {A} a.
Global Arguments Raise {A} e.

(** What [session.get] hands back: the status code and what [r.json()]
    gives, the parsed body ([None] for the JSON value [null]) or the
    exception of a body that is not JSON. *)
Record response (J : Type) := Response {
  status_code : Z;
  json : result (option J);
}.
Global Arguments Response {J} _ _.
Global Arguments status_code {J} _.
Global Arguments json {J} _.

(** The query parameters of a request: strings and integers by name. *)
Inductive param_value :=
| PStr (s : string)
| PInt (z : Z).

Definition params_t : Type := list (string * param_value).

(** Computations that send requests: the state is the number of requests
    sent so far, and a computation returns or raises. *)
Definition M (A : Type) : Type := nat → result A * nat.

Definition ret {A} (a : A) : M A := λ n, (Ok a, n).

Definition raise {A} (e : exn) : M A := λ n, (Raise e, n).

Definition bind {A B} (m : M A) (k : A → M B) : M B :=
  λ n, match m n with
       | (Ok a, n') => k a n'
       | (Raise e, n') => (Raise e, n')
       end.

(** [try: m except Exception: h]. *)
Definition try_except {A} (m : M A) (h : exn → M A) : M A :=
  λ n, match m n with
       | (Ok a, n') => (Ok a, n')
       | (Raise e, n') => h e n'
       end.

Notation "x ←ᵣ m ; k" := (bind m (λ x, k))
  (at level 20, m at level 100, k at level 200, only parsing).

Section client.
Context {J : Type}.

(** The registry and the network: the outcome of the [n]-th request of
    the session, sent to a given path with given query parameters. *)
Variable transport :
  nat → string → option params_t → result (response J).

Definition session_get (endpoint : string)
    (params : option params_t) : M (response J) :=
  λ n, (transport n endpoint params, S n).

(** [frames] is the number of nested calls the interpreter still
    allows.  At the recursion limit the recursive call raises
    [RecursionError] inside the [try] block.  The two [time.sleep]
    calls only delay and are left out. *)
Fixpoint api_call (frames : nat) (endpoint : string)
    (params : option params_t) : M (option J) :=
  try_except
    (r ←ᵣ session_get endpoint params;
     if (status_code r =? 200)%Z then
       λ n, (json r, n)
     else if bool_decide (status_code r ∈ [404; 416]%Z) then
       ret None
     else if (status_code r =? 429)%Z then
       match frames with
       | O => raise RecursionError
       | S frames' => api_call frames' endpoint params
       end
     else ret None)
    (λ _, ret None).
End client.

End Registry.

Import Registry.

(** ** Appointment categoriser *)

(** Body of [/company/{number}/insolvency]; the cases themselves are not
    inspected. *)
Record insolvency (case : Type) := Insolvency {
  cases : option (list case);
}.
Arguments Insolvency {case} _.
Arguments cases {case} _.

Record appointed_to_t := AppointedTo {
  company_number : option string;
  company_status : option string;
  company_name : option string;
}.

Record appointment := Appointment {
  appointed_to : option appointed_to_t;
  resigned_on : option string;
}.

(** The four keys of the [categories] dictionary. *)
Inductive category := active | dissolved | involuntary | resigned.

Global Instance category_eq_dec : EqDecision category.
Proof. solve_decision. Defined.

Record categories := Categories {
  cat_active : list string;
  cat_dissolved : list string;
  cat_involuntary : list string;
  cat_resigned : list string;
}.

(** [categories[c]] and [categories[c].append(entry)]. *)
Definition get_category (cats : categories) (c : category) : list string :=
  match c with
  | active => cat_active cats
  | dissolved => cat_dissolved cats
  | involuntary => cat_involuntary cats
  | resigned => cat_resigned cats
  end.

Definition append_entry (cats : categories) (c : category) (entry : string)
    : categories :=
  match c with
  | active =>
      Categories (cat_active cats ++ [entry]) (cat_dissolved cats)
                 (cat_involuntary cats) (cat_resigned cats)
  | dissolved =>
      Categories (cat_active cats) (cat_dissolved cats ++ [entry])
                 (cat_involuntary cats) (cat_resigned cats)
  | involuntary =>
      Categories (cat_active cats) (cat_dissolved cats)
                 (cat_involuntary cats ++ [entry]) (cat_resigned cats)
  | resigned =>
      Categories (cat_active cats) (cat_dissolved cats)
                 (cat_involuntary cats) (cat_resigned cats ++ [entry])
  end.

Definition involuntary_statuses : gset string :=
  {[ "liquidation"; "administration"; "receivership";
     "insolvency-proceedings"; "converted-closed" ]}.

(** The [if]/[elif] chain at the end of the loop body: the key of the list
    the entry is appended to.  [co_status] is the lower-cased status. *)
Definition classify (appt : appointment) (co_status : string) : category :=
  if truthy (resigned_on appt) then resigned
  else if bool_decide (co_status ∈ involuntary_statuses) then involuntary
  else if bool_decide (co_status = "dissolved") then dissolved
  else if bool_decide (co_status = "active") then active
  else active.

Definition empty_appointed_to : appointed_to_t := AppointedTo None None None.

Section categorizer.
Context {case : Type}.
Variable transport :
  nat → string → option params_t → result (response (insolvency case)).
Variable frames : nat.

Definition has_insolvency (company_number : string) : M bool :=
  data ←ᵣ api_call transport frames ("/company/" ++ company_number ++ "/insolvency") None;
  ret (match data with
       | Some d =>
           match cases d with
           | Some l => bool_decide (0 < length l)
           | None => false
           end
       | None => false
       end).

(** One turn of the loop of [categorize_companies] on the pair of the
    [categories] dictionary and the [seen] set. *)
Definition categorize_step (st : categories * gset string) (appt : appointment)
    : M (categories * gset string) :=
  let '(cats, seen) := st in
  let appointed_to := default empty_appointed_to (appointed_to appt) in
  let co_num := company_number appointed_to in
  match co_num with
  | None => ret st
  | Some num =>
      if negb (truthy co_num) || bool_decide (num ∈ seen) then ret st
      else
        let seen := {[num]} ∪ seen in
        let co_status := lower (default "" (company_status appointed_to)) in
        let co_name := default "Unknown" (company_name appointed_to) in
        let entry := co_name ++ " (" ++ num ++ ")" in
        ins ←ᵣ has_insolvency num;
        let entry := if ins then entry ++ " [Insolvency history]" else entry in
        ret (append_entry cats (classify appt co_status) entry, seen)
  end.

Fixpoint categorize_loop (st : categories * gset string)
    (appointments : list appointment) : M (categories * gset string) :=
  match appointments with
  | [] => ret st
  | appt :: rest =>
      st' ←ᵣ categorize_step st appt;
      categorize_loop st' rest
  end.

Definition categorize_companies (appointments : list appointment) : M categories :=
  st ←ᵣ categorize_loop (Categories [] [] [] [], ∅) appointments;
  ret st.1.
End categorizer.

(** The company number, the lower-cased status, the category and the
    display entry that the loop body of [categorize_companies] computes
    for an appointment. *)
Definition co_num_of (appt : appointment) : option string :=
  company_number (default empty_appointed_to (appointed_to appt)).

Definition num_of (appt : appointment) : string := default "" (co_num_of appt).

Definition co_status_of (appt : appointment) : string :=
  lower (default "" (company_status (default empty_appointed_to (appointed_to appt)))).

Definition category_of (appt : appointment) : category :=
  classify appt (co_status_of appt).

Definition entry_of (appt : appointment) (ins : bool) : string :=
  let entry :=
    default "Unknown" (company_name (default empty_appointed_to (appointed_to appt)))
    ++ " (" ++ num_of appt ++ ")" in
  if ins then entry ++ " [Insolvency history]" else entry.

(** The specification's reading of the deduplication: the first appointment
    of a company number is kept and every later one with that number is
    dropped; appointments without a company number are not companies. *)
Fixpoint spec_first_seen (appts : list appointment) : list appointment :=
  match appts with
  | [] => []
  | a :: rest =>
      if truthy (co_num_of a)
      then a :: filter (λ a', co_num_of a' ≠ co_num_of a) (spec_first_seen rest)
      else spec_first_seen rest
  end.

(** The appointments the loop classifies when it starts with a given
    [seen] set. *)
Fixpoint kept_from (seen : gset string) (appts : list appointment)
    : list appointment :=
  match appts with
  | [] => []
  | a :: rest =>
      match co_num_of a with
      | Some num =>
          if negb (truthy (Some num)) || bool_decide (num ∈ seen)
          then kept_from seen rest
          else a :: kept_from ({[num]} ∪ seen) rest
      | None => kept_from seen rest
      end
  end.

(** Appending the entries of classified appointments, in order. *)
Definition add_entries (cats : categories) (l : list (appointment * bool))
    : categories :=
  foldl (λ cats af, append_entry cats (category_of af.1) (entry_of af.1 af.2)) cats l.

Section lookups.
Context {case : Type}.
Variable transport :
  nat → string → option params_t → result (response (insolvency case)).
Variable frames : nat.

(** The insolvency lookups for a list of company numbers, one after the
    other. *)
Fixpoint insolvency_lookups (nums : list string) : M (list bool) :=
  match nums with
  | [] => ret []
  | num :: rest =>
      ins ←ᵣ has_insolvency transport frames num;
      flags ←ᵣ insolvency_lookups rest;
      ret (ins :: flags)
  end.
End lookups.

(** The number of entries over the four categories. *)
Definition total (cats : categories) : nat :=
  (length (cat_active cats) + length (cat_dissolved cats)
   + length (cat_involuntary cats) + length (cat_resigned cats))%nat.

(** ** Match finder: the date-of-birth filter *)

Record dob_t := Dob {
  month : option Z;
  year : option Z;
}.

Record links_t := Links {
  self : option string;
}.

(** One item of an officer search result. *)
Record officer_t := Officer {
  title : option string;
  date_of_birth : option dob_t;
  links : option links_t;
}.

Definition match_dob (officer : officer_t) (target_month target_year : option Z)
    : bool :=
  let dob := default (Dob None None) (date_of_birth officer) in
  bool_decide (month dob = target_month) && bool_decide (year dob = target_year).

(** The date of birth that [match_dob] reads from a search hit. *)
Definition dob_of (officer : officer_t) : dob_t :=
  default (Dob None None) (date_of_birth officer).

(** ** Identity aggregator *)

(** A raw director or PSC item, and later the merged person. *)
Record person := Person {
  name : string;
  dob_month : option Z;
  dob_year : option Z;
  roles : list string;
  officer_id : option string;
}.

Record potential_match := PotentialMatch {
  pm_officer : officer_t;
  pm_officer_id : string;
}.

(** [self_link.split('/officers/')[1].split('/')[0]]. *)
Definition officer_id_of_link (self_link : string) : string :=
  default "" (split "/" (default "" (split "/officers/" self_link !! 1%nat)) !! 0%nat).

(** The loop that filters the search results of one person. *)
Definition potential_matches_step (p : person) (verified_ids : list string)
    (potential_matches : list potential_match) (o : officer_t)
    : list potential_match :=
  if match_dob o (dob_month p) (dob_year p) then
    let self_link := default "" (self (default (Links None) (links o))) in
    if contains "/officers/" self_link then
      let officer_id := officer_id_of_link self_link in
      if bool_decide (officer_id ∉ verified_ids)
      then (potential_matches ++ [PotentialMatch o officer_id])%list
      else potential_matches
    else potential_matches
  else potential_matches.

Definition potential_matches (p : person) (verified_ids : list string)
    (officer_results : list officer_t) : list potential_match :=
  foldl (potential_matches_step p verified_ids) [] officer_results.

(** The key of the [people] dictionary. *)
Definition key : Type := string * option Z * option Z.

Definition person_key (p : person) : key :=
  (normalize_name (name p), dob_month p, dob_year p).

(** The [people] dictionary, in insertion order. *)
Definition people_t : Type := list (key * person).

(** What the loop does to the entry already stored under the key. *)
Definition merge_into (existing incoming : person) : person :=
  let extended := (roles existing ++ roles incoming)%list in
  if truthy (officer_id incoming) && negb (truthy (officer_id existing))
  then Person (name existing) (dob_month existing) (dob_year existing)
              extended (officer_id incoming)
  else Person (name existing) (dob_month existing) (dob_year existing)
              extended (officer_id existing).

Fixpoint update_entry (k : key) (f : person → person) (people : people_t)
    : people_t :=
  match people with
  | [] => []
  | (k', e) :: rest =>
      if decide (k' = k) then (k', f e) :: rest
      else (k', e) :: update_entry k f rest
  end.

Definition merge_step (people : people_t) (p : person) : people_t :=
  let k := person_key p in
  if bool_decide (k ∈ people.*1)
  then update_entry k (λ e, merge_into e p) people
  else (people ++ [(k, p)])%list.

(** [for person in chain(directors, pscs)]. *)
Definition merge_people (directors pscs : list person) : people_t :=
  foldl merge_step [] (directors ++ pscs).

(** The specification's reading of the officer id of a merged person: the
    first non-empty id among the merged items, and the id of the first item
    when none is non-empty. *)
Definition spec_first_officer_id (ids : list (option string)) : option string :=
  match filter (λ i, truthy i = true) ids, ids with
  | id :: _, _ => id
  | [], id :: _ => id
  | [], [] => None
  end.

(** The raw items merged into the entry of a key. *)
Definition items_of (k : key) (items : list person) : list person :=
  filter (λ item, person_key item = k) items.

(** What the merge loop maintains: one entry per key of the items read so
    far, holding the roles of all items of that key, in order, and the
    first non-empty officer id. *)
Definition merged (items : list person) (people : people_t) : Prop :=
  NoDup people.*1 ∧
  (∀ k, k ∈ people.*1 ↔ ∃ item, item ∈ items ∧ person_key item = k) ∧
  (∀ k p, (k, p) ∈ people →
     person_key p = k ∧
     roles p = mjoin (roles <$> items_of k items) ∧
     officer_id p = spec_first_officer_id (officer_id <$> items_of k items)).

(** ** Confidence scorer *)

(** [difflib.SequenceMatcher] of the Python standard library, the way
    [name_similarity] calls it: [isjunk] is [None], so no element is junk,
    and [autojunk] keeps its default [True].  Sequences are lists of
    characters and indices are natural numbers. *)
Module Difflib.

Local Open Scope nat_scope.

Definition block : Type := nat * nat * nat.

(** The first loop of [__chain_b]: [b2j[x]] lists the positions of [x] in
    [b], in ascending order. *)
Definition index_step (b2j : gmap ascii (list nat)) (ie : nat * ascii)
    : gmap ascii (list nat) :=
  <[ie.2 := (default [] (b2j !! ie.2) ++ [ie.1])%list]> b2j.

Definition index_elements (b : list ascii) : gmap ascii (list nat) :=
  foldl index_step ∅ (imap pair b).

(** [__chain_b]: when [b] has 200 elements or more, the elements that
    occur more than [n // 100 + 1] times are deleted from [b2j]. *)
Definition chain_b (b : list ascii) : gmap ascii (list nat) :=
  let b2j := index_elements b in
  let n := length b in
  if bool_decide (200 ≤ n) then
    let ntest := n `div` 100 + 1 in
    filter (λ kv, ¬ (ntest < length kv.2)) b2j
  else b2j.

(** [bjunk] is empty because [isjunk] is [None]. *)
Definition bjunk : gset ascii := ∅.

Definition isbjunk (x : option ascii) : bool :=
  match x with
  | Some c => bool_decide (c ∈ bjunk)
  | None => false
  end.

(** [a[i] == b[j]] for indices in range. *)
Definition elem_eq (x y : option ascii) : bool :=
  match x, y with
  | Some c, Some d => bool_decide (c = d)
  | _, _ => false
  end.

(** [j2len.get(j - 1, 0)]: no key is negative. *)
Definition j2lenget_pred (j2len : gmap nat nat) (j : nat) : nat :=
  match j with
  | O => 0
  | S j' => default 0 (j2len !! j')
  end.

(** The inner loop of [find_longest_match] over the positions [js] of
    [a[i]] in [b]; the state is [newj2len] and the best block so far.
    In [i + 1 - k] and [j + 1 - k] the length [k] of a run that ends at
    [i] and [j] is at most [i + 1] and [j + 1]. *)
Fixpoint scan_row (blo bhi i : nat) (j2len : gmap nat nat) (js : list nat)
    (st : gmap nat nat * block) : gmap nat nat * block :=
  match js with
  | [] => st
  | j :: js' =>
      if bool_decide (j < blo) then scan_row blo bhi i j2len js' st
      else if bool_decide (bhi ≤ j) then st
      else
        let '(newj2len, (besti, bestj, bestsize)) := st in
        let k := j2lenget_pred j2len j + 1 in
        let newj2len := <[j := k]> newj2len in
        if bool_decide (bestsize < k)
        then scan_row blo bhi i j2len js' (newj2len, (i + 1 - k, j + 1 - k, k))
        else scan_row blo bhi i j2len js' (newj2len, (besti, bestj, bestsize))
  end.

(** One turn of the loop [for i in range(alo, ahi)]. *)
Definition scan_step (a : list ascii) (b2j : gmap ascii (list nat))
    (blo bhi : nat) (st : gmap nat nat * block) (i : nat)
    : gmap nat nat * block :=
  let '(j2len, best) := st in
  let js := default [] (a !! i ≫= λ x, b2j !! x) in
  scan_row blo bhi i j2len js (∅, best).

Definition scan_rows (a : list ascii) (b2j : gmap ascii (list nat))
    (alo ahi blo bhi : nat) : block :=
  (foldl (scan_step a b2j blo bhi) (∅, (alo, blo, 0)) (seq alo (ahi - alo))).2.

(** The two loops that extend the block to the left; [junk] is [false]
    for the loop over elements that are not junk and [true] for the loop
    over junk. *)
Fixpoint extend_left (a b : list ascii) (junk : bool) (alo blo : nat)
    (besti bestj bestsize : nat) : block :=
  match besti, bestj with
  | S i', S j' =>
      if bool_decide (alo < besti) && bool_decide (blo < bestj)
         && bool_decide (isbjunk (b !! j') = junk)
         && elem_eq (a !! i') (b !! j')
      then extend_left a b junk alo blo i' j' (bestsize + 1)
      else (besti, bestj, bestsize)
  | _, _ => (besti, bestj, bestsize)
  end.

(** The two loops that extend the block to the right.  [fuel] is
    [ahi - (besti + bestsize)]: when it is used up, the loop condition
    [besti + bestsize < ahi] is false. *)
Fixpoint extend_right (a b : list ascii) (junk : bool) (ahi bhi : nat)
    (besti bestj bestsize : nat) (fuel : nat) : nat :=
  match fuel with
  | O => bestsize
  | S fuel' =>
      if bool_decide (besti + bestsize < ahi)
         && bool_decide (bestj + bestsize < bhi)
         && bool_decide (isbjunk (b !! (bestj + bestsize)) = junk)
         && elem_eq (a !! (besti + bestsize)) (b !! (bestj + bestsize))
      then extend_right a b junk ahi bhi besti bestj (bestsize + 1) fuel'
      else bestsize
  end.

Definition find_longest_match (a b : list ascii) (b2j : gmap ascii (list nat))
    (alo ahi blo bhi : nat) : block :=
  let '(besti, bestj, bestsize) := scan_rows a b2j alo ahi blo bhi in
  let '(besti, bestj, bestsize) :=
    extend_left a b false alo blo besti bestj bestsize in
  let bestsize :=
    extend_right a b false ahi bhi besti bestj bestsize
                 (ahi - (besti + bestsize)) in
  let '(besti, bestj, bestsize) :=
    extend_left a b true alo blo besti bestj bestsize in
  let bestsize :=
    extend_right a b true ahi bhi besti bestj bestsize
                 (ahi - (besti + bestsize)) in
  (besti, bestj, bestsize).

(** The loop [while queue] of [get_matching_blocks].  The head of
    [queue] is the last element of the Python list, the one [pop]
    removes.  [fuel] bounds the number of turns; [None] when it runs
    out. *)
Fixpoint match_regions (fuel : nat) (a b : list ascii)
    (b2j : gmap ascii (list nat)) (queue : list (nat * nat * nat * nat))
    (matching_blocks : list block) : option (list block) :=
  match queue with
  | [] => Some matching_blocks
  | (alo, ahi, blo, bhi) :: queue =>
      match fuel with
      | O => None
      | S fuel' =>
          let '(i, j, k) := find_longest_match a b b2j alo ahi blo bhi in
          if bool_decide (k ≠ 0) then
            let matching_blocks := (matching_blocks ++ [(i, j, k)])%list in
            let queue :=
              if bool_decide (alo < i) && bool_decide (blo < j)
              then (alo, i, blo, j) :: queue else queue in
            let queue :=
              if bool_decide (i + k < ahi) && bool_decide (j + k < bhi)
              then (i + k, ahi, j + k, bhi) :: queue else queue in
            match_regions fuel' a b b2j queue matching_blocks
          else match_regions fuel' a b b2j queue matching_blocks
      end
  end.

(** Python's order on tuples, for [matching_blocks.sort()]. *)
Definition block_le (x y : block) : Prop :=
  x.1.1 < y.1.1 ∨
  (x.1.1 = y.1.1 ∧ (x.1.2 < y.1.2 ∨ (x.1.2 = y.1.2 ∧ x.2 ≤ y.2))).

Global Instance block_le_dec : RelDecision block_le.
Proof. intros x y. unfold block_le. apply _. Defined.

(** One turn of the loop that merges adjacent blocks. *)
Definition collapse_step (st : block * list block) (blk : block)
    : block * list block :=
  let '((i1, j1, k1), non_adjacent) := st in
  let '(i2, j2, k2) := blk in
  if bool_decide (i1 + k1 = i2) && bool_decide (j1 + k1 = j2)
  then ((i1, j1, k1 + k2), non_adjacent)
  else ((i2, j2, k2),
        if bool_decide (k1 ≠ 0) then (non_adjacent ++ [(i1, j1, k1)])%list
        else non_adjacent).

Definition get_matching_blocks (a b : list ascii) : option (list block) :=
  let la := length a in
  let lb := length b in
  matching_blocks ← match_regions (2 * la + 1) a b (chain_b b) [(0, la, 0, lb)] [];
  let '((i1, j1, k1), non_adjacent) :=
    foldl collapse_step ((0, 0, 0), []) (merge_sort block_le matching_blocks) in
  let non_adjacent :=
    if bool_decide (k1 ≠ 0) then (non_adjacent ++ [(i1, j1, k1)])%list
    else non_adjacent in
  Some (non_adjacent ++ [(la, lb, 0)])%list.

(** [_calculate_ratio].  The Python float [2.0 * matches / length] is
    the correctly rounded value of this rational number: equal rationals
    give equal floats, 1 gives the float [1.0], and rationals that differ
    by more than the rounding error, such as 20/25 and 22/25, give
    different floats. *)
Definition calculate_ratio (matches length : nat) : Q :=
  if bool_decide (length ≠ 0)
  then Qmake (2 * Z.of_nat matches) (Pos.of_nat length)
  else 1%Q.

Definition ratio (a b : list ascii) : option Q :=
  blocks ← get_matching_blocks a b;
  Some (calculate_ratio (sum_list (snd <$> blocks)) (length a + length b)).

Local Open Scope list_scope.

(** *** Notions used in the proofs about the matcher *)

(** The positions of [c] in [b], in ascending order. *)
Definition positions (c : ascii) (b : list ascii) : list nat :=
  filter (λ i, b !! i = Some c) (seq 0 (length b)).

(** [c] has kept its entry in [b2j]: it occurs in [b] and is not popular. *)
Definition indexed (b : list ascii) (c : ascii) : bool :=
  bool_decide (is_Some (chain_b b !! c)).

(** The length of the longest run of equal indexed elements of [a] that
    ends at [i] on one side and at [j] on the other. *)
Fixpoint run (a : list ascii) (i j : nat) : nat :=
  match a !! i, a !! j with
  | Some c, Some d =>
      if bool_decide (c = d) && indexed a d
      then S (match i, j with
              | S i', S j' => run a i' j'
              | _, _ => 0
              end)
      else 0
  | _, _ => 0
  end.

(** What the state of the outer loop of [find_longest_match] satisfies
    before row [i], when [a] is compared with itself over its whole
    length: [j2len] holds the runs that end in row [i - 1], and the best
    block lies on the diagonal and is as long as every diagonal run above
    row [i]. *)
Definition j2len_ok (a : list ascii) (i : nat) (j2len : gmap nat nat) : Prop :=
  ∀ j, default 0 (j2len !! j) = match i with O => 0 | S i' => run a i' j end.

Definition best_ok (a : list ascii) (i : nat) (best : block) : Prop :=
  best.1.1 = best.1.2 ∧ best.1.1 + best.2 ≤ i ∧
  ∀ i', i' < i → run a i' i' ≤ best.2.

Definition row_ok (a : list ascii) (i : nat) (todo : list nat) (best : block) : Prop :=
  best.1.1 = best.1.2 ∧ best.1.1 + best.2 ≤ S i ∧
  (∀ i', i' < i → run a i' i' ≤ best.2) ∧
  (i ∈ todo ∨ run a i i ≤ best.2).

(** A block that lies inside the region of [a] from [alo] to [ahi] and of
    [b] from [blo] to [bhi]; for the best block before row [i] the upper
    bound on the side of [a] is [i]. *)
Definition block_in (alo ahi blo bhi : nat) (blk : block) : Prop :=
  alo ≤ blk.1.1 ∧ blk.1.1 + blk.2 ≤ ahi ∧ blo ≤ blk.1.2 ∧ blk.1.2 + blk.2 ≤ bhi.

(** The runs recorded in [j2len] before row [i] start inside the region. *)
Definition j2len_in (alo blo i : nat) (j2len : gmap nat nat) : Prop :=
  ∀ j v, j2len !! j = Some v → v + alo ≤ i ∧ v ≤ j + 1 - blo.

(** The regions still in the queue, and what bounds the number of turns
    of the loop that they can cause. *)
Definition region_ok (r : nat * nat * nat * nat) : Prop :=
  r.1.1.1 ≤ r.1.1.2 ∧ r.1.2 ≤ r.2.

Definition queue_weight (queue : list (nat * nat * nat * nat)) : nat :=
  sum_list ((λ r, 2 * (r.1.1.2 - r.1.1.1) + 1) <$> queue).

End Difflib.

Definition name_similarity (name1 name2 : string) : option Q :=
  Difflib.ratio (list_ascii_of_string (upper name1))
                (list_ascii_of_string (upper name2)).

(** ** Sample data *)

(** The registry is down: every request times out. *)
Definition transport_down {J : Type}
    : nat → string → option params_t → result (response J) :=
  λ _ _ _, Raise Timeout.

(** Every request is answered with the given status and parsed body. *)
Definition transport_const {J : Type} (status : Z) (body : result (option J))
    : nat → string → option params_t → result (response J) :=
  λ _ _ _, Ok (Response status body).

(** Two requests are turned away with status 429, the third succeeds. *)
Definition transport_busy
    : nat → string → option params_t → result (response string) :=
  λ n _ _, if bool_decide (n < 2)%nat then Ok (Response 429 (Raise JSONDecodeError))
           else Ok (Response 200 (Ok (Some "body"))).

(** The scenario of the specification: AcmeCo (111) has no insolvency
    resource, OldCo (222) has one insolvency case. *)
Definition transport_scenario
    : nat → string → option params_t
      → result (response (insolvency unit)) :=
  λ _ endpoint _,
    if String.eqb endpoint "/company/222/insolvency"
    then Ok (Response 200 (Ok (Some (Insolvency (Some [()])))))
    else Ok (Response 404 (Raise JSONDecodeError)).

Definition acme_111 : appointment :=
  Appointment (Some (AppointedTo (Some "111") (Some "active") (Some "AcmeCo"))) None.

Definition oldco_222 : appointment :=
  Appointment (Some (AppointedTo (Some "222") (Some "dissolved") (Some "OldCo"))) None.

Definition acme_active : appointment :=
  Appointment (Some (AppointedTo (Some "12345678") (Some "active") (Some "AcmeCo"))) None.

Definition acme_resigned : appointment :=
  Appointment (Some (AppointedTo (Some "12345678") (Some "liquidation") (Some "AcmeCo")))
              (Some "2020-01-31").

Definition smith_director : person :=
  Person "SMITH, John" (Some 3%Z) (Some 1975%Z) ["Director"] (Some "abc123").

Definition smith_psc : person :=
  Person "John SMITH" (Some 3%Z) (Some 1975%Z) ["PSC"] None.

Definition smith_unknown_dob : person :=
  Person "SMITH, John" None None ["Director"] (Some "abc123").

Definition hit_same_dob : officer_t :=
  Officer (Some "John SMITH") (Some (Dob (Some 3%Z) (Some 1975%Z)))
          (Some (Links (Some "/officers/xyz789/appointments"))).

Definition hit_no_dob : officer_t :=
  Officer (Some "John SMITH") None
          (Some (Links (Some "/officers/xyz789/appointments"))).

(** ** Name tokens *)

(** Every character of the string satisfies [P]. *)
Fixpoint all_chars (P : ascii → bool) (s : string) : bool :=
  match s with
  | "" => true
  | String c s' => P c && all_chars P s'
  end.

(** A character that [str.upper] leaves as it is. *)
Definition is_upper_char (c : ascii) : bool := bool_decide (upper_char c = c).

(** A character of a name token: no white space, no comma, in upper case. *)
Definition is_token_char (c : ascii) : bool :=
  negb (isspace c) && negb (bool_decide (c = ","%char)) && is_upper_char c.

(** A token of a cleaned name. *)
Definition is_token (t : string) : Prop :=
  t ≠ "" ∧ all_chars is_token_char t = true ∧ t ∉ prefixes.

(** [cleaned] in [normalize_name] and [extract_first_last]. *)
Definition cleaned_tokens (name : string) : list string :=
  filter (λ p, p ∉ prefixes) (split_ws (replace "," " " (upper name))).

(** What [replace(',', ' ')] does to one character. *)
Definition comma_to_space (c : ascii) : ascii :=
  if bool_decide (c = ","%char) then " "%char else c.

(** ** Listings of the registry *)

(** The body of a paginated listing: [/search/officers],
    [/officers/{id}/appointments], [/company/{number}/officers] and
    [/company/{number}/persons-with-significant-control]. *)
Module Listing.
Record t (A : Type) := Make {
  items : option (list A);
  total_results : option Z;
}.
Global Arguments Make {A} _ _.
Global Arguments items {A} _.
Global Arguments total_results {A} _.
End Listing.

(** One item of [/company/{number}/officers]. *)
Module Officers.
Record officer_link_t := OfficerLink {
  appointments : option string;
}.
Record links_t := Links {
  officer : option officer_link_t;
}.
Record item := Item {
  name : option string;
  resigned_on : option string;
  date_of_birth : option dob_t;
  links : option links_t;
}.
End Officers.

(** One item of [/company/{number}/persons-with-significant-control]. *)
Module Pscs.
Record item := Item {
  name : option string;
  ceased_on : option string;
  kind : option string;
  date_of_birth : option dob_t;
}.
End Pscs.

Section fetchers.
Variable frames : nat.

Section directors.
Variable transport :
  nat → string → option params_t → result (response (Listing.t Officers.item)).

(** The loop body of [get_current_directors]. *)
Definition directors_step (directors : list person) (item : Officers.item)
    : list person :=
  if bool_decide (Officers.resigned_on item = None) then
    let dob := default (Dob None None) (Officers.date_of_birth item) in
    let self_link :=
      default "" (Officers.appointments
        (default (Officers.OfficerLink None)
           (Officers.officer (default (Officers.Links None) (Officers.links item))))) in
    let officer_id :=
      if contains "/officers/" self_link
      then Some (officer_id_of_link self_link) else None in
    (directors ++ [Person (default "" (Officers.name item)) (month dob) (year dob)
                          ["Director"] officer_id])%list
  else directors.

(** [get_current_directors]: a call that yields no body, or a body
    without [items], gives the empty list. *)
Definition get_current_directors (number : string) : M (list person) :=
  data ←ᵣ api_call transport frames ("/company/" ++ number ++ "/officers")
            (Some [("items_per_page", PInt 100)]);
  match data with
  | Some d =>
      match Listing.items d with
      | Some items => ret (foldl directors_step [] items)
      | None => ret []
      end
  | None => ret []
  end.
End directors.

Section pscs.
Variable transport :
  nat → string → option params_t → result (response (Listing.t Pscs.item)).

(** The loop body of [get_current_pscs]. *)
Definition pscs_step (pscs : list person) (item : Pscs.item) : list person :=
  if bool_decide (Pscs.ceased_on item = None)
     && contains "individual" (default "" (Pscs.kind item)) then
    let dob := default (Dob None None) (Pscs.date_of_birth item) in
    (pscs ++ [Person (default "" (Pscs.name item)) (month dob) (year dob)
                     ["PSC"] None])%list
  else pscs.

(** [get_current_pscs], with the same guard. *)
Definition get_current_pscs (number : string) : M (list person) :=
  data ←ᵣ api_call transport frames
            ("/company/" ++ number ++ "/persons-with-significant-control") None;
  match data with
  | Some d =>
      match Listing.items d with
      | Some items => ret (foldl pscs_step [] items)
      | None => ret []
      end
  | None => ret []
  end.
End pscs.

Section search.
Variable transport :
  nat → string → option params_t → result (response (Listing.t officer_t)).

(** [item.get('links', {}).get('self', '')]. *)
Definition self_link_of (item : officer_t) : string :=
  default "" (self (default (Links None) (links item))).

(** The inner loop of [search_officers] over the items of a page, on the
    pair of [seen_officer_ids] and [results]. *)
Definition collect_step (st : gset string * list officer_t) (item : officer_t)
    : gset string * list officer_t :=
  let self_link := self_link_of item in
  if contains "/officers/" self_link then
    let officer_id := officer_id_of_link self_link in
    if truthy (Some officer_id) && bool_decide (officer_id ∉ st.1)
    then ({[officer_id]} ∪ st.1, (st.2 ++ [item])%list)
    else st
  else st.

(** [for page in range(max_pages)], from page [page] with [pages] turns
    left. *)
Fixpoint search_pages (query : string) (pages page : nat)
    (st : gset string * list officer_t) : M (gset string * list officer_t) :=
  match pages with
  | O => ret st
  | S pages' =>
      data ←ᵣ api_call transport frames "/search/officers"
                (Some [("q", PStr query); ("items_per_page", PInt 50);
                       ("start_index", PInt (Z.of_nat page * 50))]);
      match data with
      | Some d =>
          match Listing.items d with
          | Some items =>
              let st := foldl collect_step st items in
              if bool_decide (length items < 50)%nat
                 || bool_decide (default 0 (Listing.total_results d)
                                 ≤ (Z.of_nat page + 1) * 50)%Z
              then ret st
              else search_pages query pages' (S page) st
          | None => ret st
          end
      | None => ret st
      end
  end.

(** [for query in queries]. *)
Fixpoint search_queries (queries : list string) (max_pages : nat)
    (st : gset string * list officer_t) : M (gset string * list officer_t) :=
  match queries with
  | [] => ret st
  | query :: rest =>
      st' ←ᵣ search_pages query max_pages 0 st;
      search_queries rest max_pages st'
  end.

(** [search_officers]: the four queries share [seen_officer_ids] and
    [results]. *)
Definition search_officers (first last full_name : string) (max_pages : nat)
    : M (list officer_t) :=
  let queries := [full_name; first ++ " " ++ last; last ++ " " ++ first;
                  last ++ ", " ++ first] in
  st ←ᵣ search_queries queries max_pages (∅, []);
  ret st.2.

(** The search for the candidates of one merged person in the input
    step: a person without a usable name is skipped, and the officer id
    of the company's own record is the only verified id. *)
Definition verified_ids_of (p : person) : list string :=
  match officer_id p with
  | Some oid => if truthy (Some oid) then [oid] else []
  | None => []
  end.

Definition find_matches (p : person) : M (list potential_match) :=
  let '(first, last) := extract_first_last (name p) in
  if negb (truthy (Some first)) || negb (truthy (Some last)) then ret []
  else
    officer_results ←ᵣ search_officers first last
                         (format_name_proper_order (name p)) 10;
    ret (potential_matches p (verified_ids_of p) officer_results).
End search.

Section appointments.
Variable transport :
  nat → string → option params_t → result (response (Listing.t appointment)).

(** The [while True] loop of [get_all_appointments]; [None] when the loop
    has not ended after [fuel] turns. *)
Fixpoint get_all_appointments_loop (fuel : nat) (officer_id : string)
    (start : Z) (appointments : list appointment)
    : M (option (list appointment)) :=
  match fuel with
  | O => ret None
  | S fuel' =>
      data ←ᵣ api_call transport frames
                ("/officers/" ++ officer_id ++ "/appointments")
                (Some [("items_per_page", PInt 50); ("start_index", PInt start)]);
      match data with
      | Some d =>
          match Listing.items d with
          | Some items =>
              let appointments := (appointments ++ items)%list in
              if bool_decide (length items < 50)%nat
                 || bool_decide (default 0 (Listing.total_results d)
                                 ≤ start + 50)%Z
              then ret (Some appointments)
              else get_all_appointments_loop fuel' officer_id (start + 50)
                     appointments
          | None => ret (Some appointments)
          end
      | None => ret (Some appointments)
      end
  end.

Definition get_all_appointments (fuel : nat) (officer_id : string)
    : M (option (list appointment)) :=
  get_all_appointments_loop fuel officer_id 0 [].
End appointments.

End fetchers.

(** [' & '.join(sorted(set(person['roles'])))]. *)
Definition roles_label (roles : list string) : string :=
  join " & " (sorted (elements (list_to_set roles : gset string))).

(** ** Notions used in the proofs about the fetchers *)

(** The officer id that [search_officers] and the filter of the input
    step read from a search hit. *)
Definition hit_id (item : officer_t) : string :=
  officer_id_of_link (self_link_of item).

(** What the search loops maintain on [seen_officer_ids] and [results]. *)
Definition search_inv (st : gset string * list officer_t) : Prop :=
  NoDup (hit_id <$> st.2) ∧
  (∀ o, o ∈ st.2 →
     contains "/officers/" (self_link_of o) = true ∧ hit_id o ≠ "" ∧ hit_id o ∈ st.1).

(** [item.get('links', {}).get('officer', {}).get('appointments', '')]. *)
Definition appointments_link_of (item : Officers.item) : string :=
  default "" (Officers.appointments
    (default (Officers.OfficerLink None)
       (Officers.officer (default (Officers.Links None) (Officers.links item))))).

(** What a director record holds of the officer item it was made from. *)
Definition director_from (item : Officers.item) (d : person) : Prop :=
  name d = default "" (Officers.name item) ∧
  dob_month d = month (default (Dob None None) (Officers.date_of_birth item)) ∧
  dob_year d = year (default (Dob None None) (Officers.date_of_birth item)) ∧
  roles d = ["Director"] ∧
  officer_id d = (if contains "/officers/" (appointments_link_of item)
                  then Some (officer_id_of_link (appointments_link_of item))
                  else None) ∧
  (∀ oid rest,
     all_chars (λ c, negb (bool_decide (c = "/"%char))) oid = true →
     appointments_link_of item = "/officers/" ++ oid ++ "/" ++ rest →
     officer_id d = Some oid).

(** What a PSC record holds of the PSC item it was made from. *)
Definition psc_from (item : Pscs.item) (s : person) : Prop :=
  name s = default "" (Pscs.name item) ∧
  dob_month s = month (default (Dob None None) (Pscs.date_of_birth item)) ∧
  dob_year s = year (default (Dob None None) (Pscs.date_of_birth item)) ∧
  roles s = ["PSC"] ∧
  officer_id s = None.

(** ** Notions used in the proofs about the matching blocks *)

Module DifflibMatch.
Import Difflib.
Local Open Scope nat_scope.
Local Open Scope list_scope.

(** The elements of the block are equal, one by one. *)
Definition block_match (a b : list ascii) (blk : block) : Prop :=
  ∀ t, t < blk.2 → ∃ c, a !! (blk.1.1 + t) = Some c ∧ b !! (blk.1.2 + t) = Some c.

(** The runs recorded in [j2len] before row [i] are runs of equal
    elements that end in row [i - 1]. *)
Definition j2len_match (a b : list ascii) (i : nat) (j2len : gmap nat nat) : Prop :=
  ∀ j v, j2len !! j = Some v →
    v ≤ i ∧ v ≤ S j ∧
    ∀ t, t < v → ∃ c, a !! (i - 1 - t) = Some c ∧ b !! (j - t) = Some c.

(** A position of [a] that a block found so far holds, or that lies in
    a region still in the queue. *)
Definition held (queue : list (nat * nat * nat * nat)) (blocks : list block)
    (p : nat) : Prop :=
  (∃ blk, blk ∈ blocks ∧ blk.1.1 ≤ p < blk.1.1 + blk.2) ∨
  (∃ r, r ∈ queue ∧ r.1.1.1 ≤ p < r.1.1.2).

End DifflibMatch.

(** ** Review step: the pure expressions *)

(** [format(z, '02d')]: the decimal digits, with a leading zero for a
    single digit; the sign of a negative number takes the second place. *)
Definition format_02d (z : Z) : string :=
  if bool_decide (0 ≤ z < 10)%Z then "0" ++ pretty z else pretty z.

(** The exception of a format code applied to a value that is not a
    number. *)
Inductive format_error := ValueError.

(** [f"{person['dob_month']:02d}/{person['dob_year']}" if
    person['dob_month'] else 'Unknown']. *)
Definition dob_str (p : person) : string :=
  match dob_month p with
  | Some m =>
      if bool_decide (m = 0%Z) then "Unknown"
      else format_02d m ++ "/" ++ match dob_year p with
                                  | Some y => pretty y
                                  | None => "None"
                                  end
  | None => "Unknown"
  end.

(** [f"{match_dob.get('month', '??'):02d}/{match_dob.get('year', '????')}"]
    for a candidate: the default ['??'] of an absent month is a string,
    which the format code [02d] refuses. *)
Definition match_dob_str (o : officer_t) : string + format_error :=
  let match_dob := default (Dob None None) (date_of_birth o) in
  match month match_dob with
  | Some m =>
      inl (format_02d m ++ "/" ++ match year match_dob with
                                  | Some y => pretty y
                                  | None => "????"
                                  end)
  | None => inr ValueError
  end.

(** [f"person{person_idx}_match{match_idx}"]. *)
Definition match_key (person_idx match_idx : nat) : string :=
  "person" ++ pretty person_idx ++ "_match" ++ pretty match_idx.

Definition is_digit (c : ascii) : bool :=
  bool_decide (c ∈ ["0"; "1"; "2"; "3"; "4"; "5"; "6"; "7"; "8"; "9"]%char).

(** ** Results step *)

(** One value of [st.session_state.match_decisions]. *)
Module Decisions.
Record t := Make {
  person_idx : nat;
  officer_id : string;
  decision : string;
}.
End Decisions.

(** What a block of the page shows: a notice, or the four lists of
    companies with their counts. *)
Inductive shown :=
| ShowInfo (msg : string)
| ShowCategories (cats : categories).

(** How a statement of a loop body ends: the next statement follows,
    [continue] was executed, or a loop inside it is still running. *)
Inductive flow (A : Type) :=
| Next (a : A)
| Continue
| Unfinished.
Arguments Next {A} a.
Arguments Continue {A}.
Arguments Unfinished {A}.

(** Statements of the page: they send requests, show blocks, and end in
    one of the three ways. *)
Definition UI (A : Type) : Type := M (list shown * flow A).

Definition ui_bind {A B} (m : UI A) (k : A → UI B) : UI B :=
  r ←ᵣ m;
  match r.2 with
  | Next a => r' ←ᵣ k a; ret ((r.1 ++ r'.1)%list, r'.2)
  | Continue => ret (r.1, Continue)
  | Unfinished => ret (r.1, Unfinished)
  end.

Notation "x ←ᵤ m ; k" := (ui_bind m (λ x, k))
  (at level 20, m at level 100, k at level 200, only parsing).

Definition show (x : shown) : UI unit := ret ([x], Next tt).

Definition continue_stmt : UI unit := ret ([], Continue).

(** A call that returns, or whose loop is still running. *)
Definition call {A} (m : M (option A)) : UI A :=
  r ←ᵣ m;
  ret ([], match r with Some a => Next a | None => Unfinished end).

(** The loop that adds the officer ids of the candidates answered [Yes]
    to the verified ids of the person; [match_decisions] lists the
    dictionary in insertion order. *)
Definition confirmed_ids (person_idx : nat) (verified_ids : list string)
    (match_decisions : list (string * Decisions.t)) : list string :=
  foldl (λ verified_ids kd,
           if bool_decide (Decisions.person_idx kd.2 = person_idx)
              && String.eqb (Decisions.decision kd.2) "Yes"
           then (verified_ids ++ [Decisions.officer_id kd.2])%list
           else verified_ids)
        verified_ids match_decisions.

Section results.
Context {case : Type}.
Variable frames : nat.
Variable transport_appointments :
  nat → string → option params_t → result (response (Listing.t appointment)).
Variable transport_insolvency :
  nat → string → option params_t → result (response (insolvency case)).

(** [for officer_id in verified_ids: all_appointments.extend(...)]. *)
Fixpoint collect_appointments (fuel : nat) (verified_ids : list string)
    (all_appointments : list appointment) : M (option (list appointment)) :=
  match verified_ids with
  | [] => ret (Some all_appointments)
  | officer_id :: rest =>
      r ←ᵣ get_all_appointments frames transport_appointments fuel officer_id;
      match r with
      | Some appointments =>
          collect_appointments fuel rest (all_appointments ++ appointments)%list
      | None => ret None
      end
  end.

(** The block of one person in the results step, from the collection of
    the verified ids to the end of the expander.  The statements that
    collect and categorise the appointments stand in the block of
    [if not verified_ids], after its [continue]. *)
Definition show_results_person (fuel person_idx : nat)
    (stored_verified_ids : list string)
    (match_decisions : list (string * Decisions.t)) : UI unit :=
  let verified_ids := confirmed_ids person_idx stored_verified_ids match_decisions in
  if bool_decide (verified_ids = []) then
    _ ←ᵤ show (ShowInfo "No officer IDs confirmed");
    _ ←ᵤ continue_stmt;
    all_appointments ←ᵤ call (collect_appointments fuel verified_ids []);
    cats ←ᵤ call (cats ←ᵣ categorize_companies transport_insolvency frames
                             all_appointments;
                  ret (Some cats));
    if bool_decide (total cats = 0%nat)
    then show (ShowInfo "No companies found")
    else show (ShowCategories cats)
  else ret ([], Next tt).
End results.

(** ** Confidence label *)

(** The similarity is a Python float.  A finite float is a rational
    number, and floats compare as their values do: the similarity is
    modelled by its exact value, and each float literal by the exact
    value of the float that it denotes.  The labels are written in their
    UTF-8 encoding. *)
Definition float_0_95 : Q := 4278419646001971 # 4503599627370496.
Definition float_0_85 : Q := 7656119366529843 # 9007199254740992.
Definition float_0_70 : Q := 3152519739159347 # 4503599627370496.
Definition float_0_50 : Q := 1 # 2.

Definition get_confidence_label (similarity : Q) : string * string :=
  if Qle_bool float_0_95 similarity then ("VERY HIGH ✓✓", "#28a745")
  else if Qle_bool float_0_85 similarity then ("HIGH ✓", "#5cb85c")
  else if Qle_bool float_0_70 similarity then ("MEDIUM ~", "#ffc107")
  else if Qle_bool float_0_50 similarity then ("LOW ⚠", "#ff9800")
  else ("VERY LOW ✗", "#dc3545").

(** [index=0 if similarity >= 0.85 else 1] of the radio button, whose
    options are [Yes] and [No]. *)
Definition suggested_index (similarity : Q) : nat :=
  if Qle_bool float_0_85 similarity then 0 else 1.

(** ** Sample registries *)

(** The registry serves the appointments [L] in pages of 50. *)
Definition transport_listing (L : list appointment)
    : nat → string → option params_t → result (response (Listing.t appointment)) :=
  λ _ _ params,
    match params with
    | Some [_; (_, PInt start)] =>
        Ok (Response 200 (Ok (Some (Listing.Make
              (Some (take 50 (drop (Z.to_nat start) L)))
              (Some (Z.of_nat (length L)))))))
    | _ => Raise ConnectionError
    end.

Definition transport_listing_cut (L : list appointment) (stop : nat)
    : nat → string → option params_t → result (response (Listing.t appointment)) :=
  λ k endpoint params,
    if bool_decide (k < stop)%nat then transport_listing L k endpoint params
    else Raise Timeout.

Definition transport_endless
    : nat → string → option params_t → result (response (Listing.t appointment)) :=
  λ _ _ params,
    match params with
    | Some [_; (_, PInt start)] =>
        Ok (Response 200 (Ok (Some (Listing.Make
              (Some (replicate 50 acme_111)) (Some (start + 51)%Z)))))
    | _ => Raise ConnectionError
    end.

(** * Properties *)

(** ** Strings *)

Section string_facts.

Lemma string_app_cons c (s1 s2 : string) : String c s1 ++ s2 = String c (s1 ++ s2).
Proof. reflexivity. Qed.

Lemma string_app_empty_r (s : string) : s ++ "" = s.
Proof. induction s as [|c s IH]; [done | by rewrite string_app_cons, IH]. Qed.

Lemma string_app_assoc (s1 s2 s3 : string) : (s1 ++ s2) ++ s3 = s1 ++ (s2 ++ s3).
Proof. induction s1 as [|c s1 IH]; [done | by rewrite !string_app_cons, IH]. Qed.

Lemma map_chars_app f (s1 s2 : string) :
  map_chars f (s1 ++ s2) = map_chars f s1 ++ map_chars f s2.
Proof.
  induction s1 as [|c s1 IH]; [done|].
  rewrite string_app_cons. cbn [map_chars]. by rewrite IH.
Qed.

Lemma upper_app (s1 s2 : string) : upper (s1 ++ s2) = upper s1 ++ upper s2.
Proof. apply map_chars_app. Qed.

Lemma upper_char_comma c : upper_char c = ","%char ↔ c = ","%char.
Proof.
  split; [| by intros ->].
  destruct c as [[] [] [] [] [] [] [] []]; vm_compute; congruence.
Qed.

(** A string has a comma exactly when [contains ","] says so. *)
Lemma prefix_cons a s1 b s2 :
  String.prefix (String a s1) (String b s2)
  = bool_decide (a = b) && String.prefix s1 s2.
Proof.
  cbn [String.prefix]. destruct (ascii_dec a b) as [->|Hne].
  - by rewrite bool_decide_eq_true_2.
  - by rewrite bool_decide_eq_false_2.
Qed.

Lemma prefix_empty s : String.prefix "" s = true.
Proof. by destruct s. Qed.

Lemma prefix_comma c s :
  String.prefix "," (String c s) = bool_decide (c = ","%char).
Proof.
  rewrite prefix_cons, prefix_empty, andb_true_r.
  apply bool_decide_ext. split; congruence.
Qed.

Lemma contains_comma_cons c s :
  contains "," (String c s) = bool_decide (c = ","%char) || contains "," s.
Proof. change (contains "," (String c s)) with (String.prefix "," (String c s) || contains "," s). by rewrite prefix_comma. Qed.

Lemma contains_comma_upper s : contains "," (upper s) = contains "," s.
Proof.
  induction s as [|c s IH]; [reflexivity|].
  change (upper (String c s)) with (String (upper_char c) (upper s)).
  rewrite !contains_comma_cons, IH. f_equal.
  apply bool_decide_ext, upper_char_comma.
Qed.

Lemma contains_comma_app s1 s2 :
  contains "," (s1 ++ "," ++ s2) = true.
Proof.
  induction s1 as [|c s1 IH].
  { change ("" ++ "," ++ s2) with (String "," s2).
    by rewrite contains_comma_cons. }
  change (String c s1 ++ "," ++ s2) with (String c (s1 ++ "," ++ s2)).
  rewrite contains_comma_cons, IH. apply orb_true_r.
Qed.

(** [replace] leaves a string without occurrence of [old] as it is. *)
Lemma replace_absent old new s :
  contains old s = false → replace old new s = s.
Proof.
  unfold replace. induction s as [|c s IH]; [done|].
  intros [Hp Hc]%orb_false_elim.
  cbn [replace_go]. rewrite Hp, IH; done.
Qed.

Lemma split_go_comma_free cur s :
  contains "," s = false → split_go "," 0 cur s = [cur ++ s].
Proof.
  revert cur. induction s as [|c s IH]; intros cur.
  - by rewrite string_app_empty_r.
  - rewrite contains_comma_cons. intros [Hc Hs]%orb_false_elim.
    cbn [split_go]. rewrite prefix_comma, Hc, IH by done.
    by rewrite string_app_assoc.
Qed.

Lemma split_go_one_comma cur s1 s2 :
  contains "," s1 = false → contains "," s2 = false →
  split_go "," 0 cur (s1 ++ "," ++ s2) = [cur ++ s1; s2].
Proof.
  revert cur. induction s1 as [|c s1 IH]; intros cur H1 H2.
  - change ("" ++ "," ++ s2) with (String "," s2).
    cbn [split_go]. rewrite prefix_comma, bool_decide_eq_true_2 by done.
    change (String.length "," - 1) with 0.
    by rewrite split_go_comma_free, string_app_empty_r.
  - rewrite contains_comma_cons in H1. apply orb_false_elim in H1 as [Hc H1].
    change (String c s1 ++ "," ++ s2) with (String c (s1 ++ "," ++ s2)).
    cbn [split_go]. rewrite prefix_comma, Hc, IH by done.
    by rewrite string_app_assoc.
Qed.

Lemma replace_comma_app s1 s2 :
  replace "," " " (s1 ++ s2) = replace "," " " s1 ++ replace "," " " s2.
Proof.
  unfold replace. induction s1 as [|c s1 IH]; [done|].
  rewrite string_app_cons. cbn [replace_go]. rewrite !prefix_comma.
  change (String.length "," - 1) with 0. rewrite IH.
  by destruct (bool_decide (c = ","%char)).
Qed.

Lemma split_ws_go_sep cur s1 c s2 :
  isspace c = true →
  split_ws_go cur (s1 ++ String c s2) = (split_ws_go cur s1 ++ split_ws s2)%list.
Proof.
  intros Hc. revert cur. induction s1 as [|d s1 IH]; intros cur.
  - change ("" ++ String c s2) with (String c s2).
    cbn [split_ws_go]. by rewrite Hc.
  - rewrite string_app_cons. cbn [split_ws_go]. destruct (isspace d).
    + by rewrite IH, (assoc_L (++)%list).
    + apply IH.
Qed.

Lemma sorted_perm (l1 l2 : list string) : l1 ≡ₚ l2 → sorted l1 = sorted l2.
Proof.
  intros Hp. unfold sorted.
  apply (Sorted_unique String.le); try apply Sorted_merge_sort; try apply _.
  by rewrite !merge_sort_Permutation.
Qed.

End string_facts.

Lemma strip_prefix_absent u p :
  contains (p ++ " ") u = false → contains (p ++ ", ") u = false →
  strip_prefix u p = u.
Proof.
  intros H1 H2. unfold strip_prefix.
  by rewrite (replace_absent _ _ u H1), (replace_absent _ _ u H2).
Qed.

Lemma strip_prefixes_absent u ps :
  (∀ p, p ∈ ps →
     contains (p ++ " ") u = false ∧ contains (p ++ ", ") u = false) →
  foldl strip_prefix u ps = u.
Proof.
  induction ps as [|p ps IH]; intros H; [done|].
  cbn [foldl]. destruct (H p) as [H1 H2]; [left|].
  rewrite strip_prefix_absent by done.
  apply IH. intros q Hq. apply H. by right.
Qed.

(** Claim C7, amended.  A name with exactly one comma, in which no
    honorific prefix followed by a space or by a comma and a space occurs,
    is turned into the upper-cased part after the comma, a space and the
    upper-cased part before the comma, each stripped of surrounding white
    space; [format_name_proper_order "SMITH, John"] is ["JOHN SMITH"]. *)
Theorem format_name_one_comma :
  (∀ surname forenames : string,
     contains "," surname = false →
     contains "," forenames = false →
     (∀ p, p ∈ prefixes →
        contains (p ++ " ") (upper (surname ++ "," ++ forenames)) = false ∧
        contains (p ++ ", ") (upper (surname ++ "," ++ forenames)) = false) →
     format_name_proper_order (surname ++ "," ++ forenames)
     = strip (strip (upper forenames) ++ " " ++ strip (upper surname))) ∧
  format_name_proper_order "SMITH, John" = "JOHN SMITH".
Proof.
  split; [|by vm_compute].
  intros surname forenames Hs Hf Hp. unfold format_name_proper_order.
  rewrite strip_prefixes_absent by done.
  rewrite !upper_app. change (upper ",") with ",".
  rewrite contains_comma_app. unfold split.
  rewrite split_go_one_comma by (by rewrite contains_comma_upper).
  reflexivity.
Qed.

Lemma format_name_one_comma_witness :
  format_name_proper_order ("SMITH" ++ "," ++ " John")
  = strip (strip (upper " John") ++ " " ++ strip (upper "SMITH")).
Proof.
  apply (proj1 format_name_one_comma "SMITH" " John").
  - reflexivity.
  - reflexivity.
  - intros p Hp. unfold prefixes in Hp.
    repeat (apply elem_of_cons in Hp as [-> | Hp]; [split; reflexivity|]).
    by apply elem_of_nil in Hp.
Defined.

(** Claim C7 as stated fails: the result is in upper case. *)
Lemma format_name_keeps_upper_case :
  format_name_proper_order "SMITH, John" ≠ "John SMITH".
Proof. vm_compute. discriminate. Qed.

(** Claim C5.  The honorific prefixes are removed as substrings, not as
    whole tokens: the end of the surname WILLIAMS with the comma and the
    space that follow is taken for the prefix MS, and the comma is lost
    with it; so is the end of ADAMS with the space that follows.
    [normalize_name] removes whole tokens only. *)
Theorem format_name_strips_inside_token :
  format_name_proper_order "WILLIAMS, John" = "WILLIAJOHN" ∧
  format_name_proper_order "ADAMS John" = "ADAJOHN" ∧
  normalize_name "WILLIAMS, John" = "JOHN WILLIAMS" ∧
  normalize_name "ADAMS John" = "ADAMS JOHN".
Proof. split_and!; vm_compute; reflexivity. Qed.

Lemma name_parts_app (a sep b : string) c :
  replace "," " " (upper sep) = String c "" ∨
  replace "," " " (upper sep) = String c (String c "") →
  isspace c = true →
  split_ws (replace "," " " (upper (a ++ sep ++ b)))
  = (split_ws (replace "," " " (upper a)) ++ split_ws (replace "," " " (upper b)))%list.
Proof.
  intros Hsep Hc. rewrite !upper_app, !replace_comma_app. unfold split_ws.
  destruct Hsep as [-> | ->]; rewrite !string_app_cons; change ("" ++ ?x) with x.
  - by rewrite split_ws_go_sep.
  - rewrite split_ws_go_sep by done. f_equal.
    unfold split_ws. cbn [split_ws_go]. by rewrite Hc.
Qed.

(** Claim C8.  [normalize_name] gives the same key to a name written
    surname, comma, forenames and to the same name written forenames then
    surname; so do ["SMITH, John"] and ["John SMITH"]. *)
Theorem normalize_name_reorder :
  (∀ a b : string, normalize_name (a ++ ", " ++ b) = normalize_name (b ++ " " ++ a)) ∧
  normalize_name "SMITH, John" = normalize_name "John SMITH".
Proof.
  assert (∀ a b : string,
    normalize_name (a ++ ", " ++ b) = normalize_name (b ++ " " ++ a)) as H.
  { intros a b. unfold normalize_name.
    rewrite (name_parts_app a ", " b " "), (name_parts_app b " " a " ");
      [| by left | done | by right | done].
    f_equal. apply sorted_perm. rewrite !filter_app. apply Permutation_app_comm. }
  split; [exact H | apply (H "SMITH" "John")].
Qed.

(** ** Registry client and categoriser *)

Section client_facts.
Context {J : Type}.
Variable transport :
  nat → string → option params_t → result (response J).

Lemma api_call_returns frames endpoint params n :
  ∃ v n', api_call transport frames endpoint params n = (Ok v, n').
Proof.
  destruct frames; cbn [api_call]; unfold try_except;
    match goal with |- context [match ?m with _ => _ end] => destruct m as [[v|e] n'] end;
    eauto.
Qed.
End client_facts.

Section categorizer_facts.
Context {case : Type}.
Variable transport :
  nat → string → option params_t → result (response (insolvency case)).
Variable frames : nat.

Lemma has_insolvency_returns num n :
  ∃ b n', has_insolvency transport frames num n = (Ok b, n').
Proof.
  unfold has_insolvency, bind.
  destruct (api_call_returns transport frames ("/company/" ++ num ++ "/insolvency") None n)
    as (v & n' & ->).
  unfold ret. eauto.
Qed.

Lemma categorize_step_skip cats seen appt n :
  kept_from seen [appt] = [] →
  categorize_step transport frames (cats, seen) appt n = (Ok (cats, seen), n).
Proof.
  unfold categorize_step. cbn [kept_from]. fold (co_num_of appt).
  destruct (co_num_of appt) as [num|]; [|done].
  by destruct (negb (truthy (Some num)) || bool_decide (num ∈ seen)).
Qed.

Lemma categorize_step_keep cats seen appt num n ins n' :
  co_num_of appt = Some num →
  negb (truthy (Some num)) || bool_decide (num ∈ seen) = false →
  has_insolvency transport frames num n = (Ok ins, n') →
  categorize_step transport frames (cats, seen) appt n
  = (Ok (append_entry cats (category_of appt) (entry_of appt ins), {[num]} ∪ seen), n').
Proof.
  intros Hnum Hkeep Hins. unfold categorize_step. fold (co_num_of appt).
  rewrite Hnum, Hkeep. unfold bind. rewrite Hins. unfold ret.
  unfold entry_of, category_of, co_status_of, num_of. rewrite Hnum. by destruct ins.
Qed.

Lemma categorize_loop_kept appts : ∀ cats seen n,
  ∃ flags n' seen',
    insolvency_lookups transport frames
      (num_of <$> kept_from seen appts) n = (Ok flags, n') ∧
    length flags = length (kept_from seen appts) ∧
    categorize_loop transport frames (cats, seen) appts n
    = (Ok (add_entries cats (zip (kept_from seen appts) flags), seen'), n').
Proof.
  induction appts as [|a rest IH]; intros cats seen n.
  { exists [], n, seen. done. }
  cbn [categorize_loop kept_from]. unfold bind at 1.
  destruct (co_num_of a) as [num|] eqn:Hnum.
  - destruct (negb (truthy (Some num)) || bool_decide (num ∈ seen)) eqn:Hkeep.
    + rewrite categorize_step_skip; [apply IH|].
      cbn [kept_from]. by rewrite Hnum, Hkeep.
    + destruct (has_insolvency_returns num n) as (ins & n1 & Hins).
      rewrite (categorize_step_keep _ _ _ num n ins n1) by done.
      destruct (IH (append_entry cats (category_of a) (entry_of a ins))
                   ({[num]} ∪ seen) n1) as (flags & n' & seen' & Hl & Hlen & Hloop).
      exists (ins :: flags), n', seen'. split_and!.
      * cbn [fmap list_fmap insolvency_lookups].
        assert (num_of a = num) as -> by (unfold num_of; by rewrite Hnum).
        unfold bind at 1. rewrite Hins.
        unfold bind. rewrite Hl. done.
      * cbn [length]. by rewrite Hlen.
      * by rewrite Hloop.
  - rewrite categorize_step_skip; [apply IH|].
    cbn [kept_from]. by rewrite Hnum.
Qed.
End categorizer_facts.

Section dedup_facts.

Lemma filter_ext_in {A} (P Q : A → Prop) `{∀ x, Decision (P x)}
    `{∀ x, Decision (Q x)} (l : list A) :
  (∀ x, x ∈ l → P x ↔ Q x) → filter P l = filter Q l.
Proof.
  induction l as [|x l IH]; intros Hext; [done|].
  rewrite !filter_cons.
  destruct (decide (P x)) as [HP|HP], (decide (Q x)) as [HQ|HQ].
  - f_equal. apply IH. intros y Hy. apply Hext. by right.
  - destruct HQ. apply Hext; [left | done].
  - destruct HP. apply Hext; [left | done].
  - apply IH. intros y Hy. apply Hext. by right.
Qed.

Lemma spec_first_seen_elem a appts :
  a ∈ spec_first_seen appts → a ∈ appts ∧ truthy (co_num_of a) = true.
Proof.
  induction appts as [|a0 rest IH]; cbn [spec_first_seen].
  { by intros ?%elem_of_nil. }
  destruct (truthy (co_num_of a0)) eqn:Ht.
  - intros [->|Ha]%elem_of_cons.
    + split; [left | done].
    + apply list_elem_of_filter in Ha as [_ Ha].
      destruct (IH Ha). split; [by right | done].
  - intros Ha. destruct (IH Ha). split; [by right | done].
Qed.

Lemma truthy_Some num : truthy (Some num) = true ↔ num ≠ "".
Proof.
  unfold truthy. destruct (String.eqb_spec num ""); naive_solver.
Qed.

Lemma truthy_co_num a :
  truthy (co_num_of a) = true → co_num_of a = Some (num_of a) ∧ num_of a ≠ "".
Proof.
  unfold num_of. destruct (co_num_of a) as [num|]; [|done].
  intros ?%truthy_Some. done.
Qed.

Lemma kept_from_spec appts : ∀ seen,
  kept_from seen appts = filter (λ a, num_of a ∉ seen) (spec_first_seen appts).
Proof.
  induction appts as [|a rest IH]; intros seen; [done|].
  cbn [kept_from spec_first_seen].
  destruct (co_num_of a) as [num|] eqn:Hnum; [|apply IH].
  destruct (truthy (Some num)) eqn:Ht; cbn [negb orb]; [|apply IH].
  assert (num_of a = num) as Hn by (unfold num_of; by rewrite Hnum).
  case_bool_decide as Hseen.
  - rewrite filter_cons_False by (rewrite Hn; tauto).
    rewrite IH, list_filter_filter. apply filter_ext_in.
    intros a' [_ Ha']%spec_first_seen_elem.
    apply truthy_co_num in Ha' as [Ha' _]. rewrite Ha'.
    split; [|tauto]. intros Hns. split; [done|]. congruence.
  - rewrite filter_cons_True by (by rewrite Hn).
    f_equal. rewrite IH, list_filter_filter. apply filter_ext_in.
    intros a' [_ Ha']%spec_first_seen_elem.
    apply truthy_co_num in Ha' as [Ha' _]. rewrite Ha'.
    rewrite not_elem_of_union, not_elem_of_singleton.
    split; [intros [? ?] | intros [? ?]]; split; congruence.
Qed.

Lemma kept_from_empty appts : kept_from ∅ appts = spec_first_seen appts.
Proof.
  rewrite kept_from_spec. induction (spec_first_seen appts) as [|a l IH]; [done|].
  rewrite filter_cons_True by set_solver. by rewrite IH.
Qed.

Lemma spec_first_seen_NoDup appts : NoDup (co_num_of <$> spec_first_seen appts).
Proof.
  induction appts as [|a rest IH]; cbn [spec_first_seen]; [constructor|].
  destruct (truthy (co_num_of a)); [|done].
  rewrite fmap_cons. apply NoDup_cons. split.
  - intros (a' & Heq & Ha')%list_elem_of_fmap.
    apply list_elem_of_filter in Ha' as [Hne _]. by destruct Hne.
  - clear -IH. induction (spec_first_seen rest) as [|x l IHl]; [constructor|].
    rewrite fmap_cons in IH. apply NoDup_cons in IH as [Hx Hl].
    rewrite filter_cons. destruct (decide _); [|by apply IHl].
    rewrite fmap_cons. apply NoDup_cons. split; [|by apply IHl].
    intros (y & Heq & Hy)%list_elem_of_fmap.
    apply list_elem_of_filter in Hy as [_ Hy].
    apply Hx, list_elem_of_fmap. eauto.
Qed.

Lemma spec_first_seen_covers appts num :
  num ≠ "" →
  Some num ∈ co_num_of <$> appts ↔ Some num ∈ co_num_of <$> spec_first_seen appts.
Proof.
  intros Hne. split.
  - induction appts as [|a rest IH]; cbn [spec_first_seen]; [done|].
    rewrite fmap_cons. intros [Ha|Hin]%elem_of_cons.
    + rewrite <-Ha, (proj2 (truthy_Some num) Hne). rewrite fmap_cons, <-Ha. by left.
    + specialize (IH Hin). destruct (truthy (co_num_of a)); [|done].
      rewrite fmap_cons. destruct (decide (co_num_of a = Some num)) as [->|Hd].
      { by left. }
      right. apply list_elem_of_fmap in IH as (a' & Heq & Ha').
      apply list_elem_of_fmap. exists a'. split; [done|].
      apply list_elem_of_filter. split; [congruence | done].
  - intros (a & Heq & Ha)%list_elem_of_fmap.
    apply spec_first_seen_elem in Ha as [Ha _].
    apply list_elem_of_fmap. eauto.
Qed.

Lemma spec_first_seen_first a appts :
  a ∈ spec_first_seen appts →
  ∃ l1 l2, appts = (l1 ++ a :: l2)%list ∧ co_num_of a ∉ co_num_of <$> l1.
Proof.
  induction appts as [|a0 rest IH]; cbn [spec_first_seen].
  { by intros ?%elem_of_nil. }
  destruct (truthy (co_num_of a0)) eqn:Ht.
  - intros [->|Ha]%elem_of_cons.
    + exists [], rest. split; [done | apply not_elem_of_nil].
    + apply list_elem_of_filter in Ha as [Hne Ha].
      destruct (IH Ha) as (l1 & l2 & -> & Hl1).
      exists (a0 :: l1), l2. split; [done|].
      rewrite fmap_cons, not_elem_of_cons. done.
  - intros Ha. destruct (spec_first_seen_elem _ _ Ha) as [_ Hta].
    destruct (IH Ha) as (l1 & l2 & -> & Hl1).
    exists (a0 :: l1), l2. split; [done|].
    rewrite fmap_cons, not_elem_of_cons. split; [congruence | done].
Qed.

Lemma get_category_append cats c' e c :
  get_category (append_entry cats c' e) c
  = (get_category cats c ++ if decide (c' = c) then [e] else [])%list.
Proof. destruct c', c; cbn; by rewrite ?app_nil_r. Qed.

Lemma get_category_add_entries l : ∀ cats c,
  get_category (add_entries cats l) c
  = (get_category cats c
     ++ ((λ af, entry_of af.1 af.2) <$> filter (λ af, category_of af.1 = c) l))%list.
Proof.
  induction l as [|x l IH]; intros cats c.
  { cbn. by rewrite app_nil_r. }
  unfold add_entries. cbn [foldl]. fold (add_entries (append_entry cats (category_of x.1) (entry_of x.1 x.2)) l).
  rewrite IH, get_category_append, filter_cons.
  destruct (decide (category_of x.1 = c)); [|by rewrite app_nil_r].
  by rewrite fmap_cons, <-(assoc_L (++)%list).
Qed.

Lemma total_add_entries l : ∀ cats, total (add_entries cats l) = total cats + length l.
Proof.
  induction l as [|x l IH]; intros cats; [cbn; lia|].
  unfold add_entries. cbn [foldl]. fold (add_entries (append_entry cats (category_of x.1) (entry_of x.1 x.2)) l).
  rewrite IH. unfold total.
  destruct (category_of x.1); cbn; rewrite ?length_app; cbn; lia.
Qed.

End dedup_facts.

Section client_contract.
Context {J : Type}.
Variable transport :
  nat → string → option params_t → result (response J).

Lemma api_call_unfold frames endpoint params n :
  api_call transport frames endpoint params n
  = match transport n endpoint params with
    | Raise _ => (Ok None, S n)
    | Ok r =>
        if (status_code r =? 200)%Z then
          match json r with
          | Ok body => (Ok body, S n)
          | Raise _ => (Ok None, S n)
          end
        else if bool_decide (status_code r ∈ [404; 416]%Z) then (Ok None, S n)
        else if (status_code r =? 429)%Z then
          match frames with
          | O => (Ok None, S n)
          | S frames' => api_call transport frames' endpoint params (S n)
          end
        else (Ok None, S n)
    end.
Proof.
  destruct frames; cbn [api_call]; unfold try_except, bind, session_get;
    destruct (transport n endpoint params) as [r|e]; try done;
    destruct (status_code r =? 200)%Z; try (by destruct (json r));
    destruct (bool_decide (status_code r ∈ [404; 416]%Z)); try done;
    destruct (status_code r =? 429)%Z; try done.
  destruct (api_call_returns transport frames endpoint params (S n))
    as (v & n' & ->). done.
Qed.

(** A body is returned only from a response with status 200. *)
Lemma api_call_body frames : ∀ endpoint params n v n',
  api_call transport frames endpoint params n = (Ok (Some v), n') →
  ∃ m r, n' = S m ∧ (n ≤ m)%nat ∧ transport m endpoint params = Ok r ∧
         status_code r = 200%Z ∧ json r = Ok (Some v).
Proof.
  induction frames as [|frames IH]; intros endpoint params n v n';
    rewrite api_call_unfold;
    destruct (transport n endpoint params) as [r|e] eqn:Ht; try done;
    (destruct (status_code r =? 200)%Z eqn:H200;
     [ destruct (json r) as [body|] eqn:Hj; [|done];
       intros [= -> <-]; exists n, r; apply Z.eqb_eq in H200; by eauto
     | destruct (bool_decide (status_code r ∈ [404; 416]%Z)); try done;
       destruct (status_code r =? 429)%Z; try done ]).
  intros (m & r' & -> & Hle & Hm & Hs & Hj)%IH.
  exists m, r'. split_and!; try done. lia.
Qed.
End client_contract.

Section categorizer_claims.
Context {case : Type}.
Variable transport :
  nat → string → option params_t → result (response (insolvency case)).
Variable frames : nat.

(** Claim C1.  For every list of appointment records, whatever the
    registry answers, [categorize_companies] returns four lists that hold
    exactly the entries of the first-seen appointments [spec_first_seen]:
    each category lists, in order, the display entries of the first-seen
    appointments of that category, so every first-seen appointment is in
    exactly one category and the four lists together have one entry per
    first-seen appointment.  The first-seen appointments have pairwise
    distinct company numbers, they cover every non-empty company number of
    the input, and each of them is the earliest appointment of the input
    with its number; a later appointment with the same number adds
    nothing, whichever officer's history it comes from. *)
Theorem categorize_each_company_once appts n :
  let kept := spec_first_seen appts in
  ∃ flags n' cats,
    insolvency_lookups transport frames (num_of <$> kept) n = (Ok flags, n') ∧
    length flags = length kept ∧
    categorize_companies transport frames appts n = (Ok cats, n') ∧
    (∀ c, get_category cats c
          = (λ af, entry_of af.1 af.2)
              <$> filter (λ af, category_of af.1 = c) (zip kept flags)) ∧
    total cats = length kept ∧
    NoDup (co_num_of <$> kept) ∧
    (∀ num, num ≠ "" →
       Some num ∈ co_num_of <$> appts ↔ Some num ∈ co_num_of <$> kept) ∧
    (∀ a, a ∈ kept →
       ∃ l1 l2, appts = (l1 ++ a :: l2)%list ∧ co_num_of a ∉ co_num_of <$> l1).
Proof.
  intros kept. subst kept.
  destruct (categorize_loop_kept transport frames appts (Categories [] [] [] []) ∅ n)
    as (flags & n' & seen' & Hl & Hlen & Hloop).
  rewrite kept_from_empty in Hl, Hlen, Hloop.
  exists flags, n',
    (add_entries (Categories [] [] [] []) (zip (spec_first_seen appts) flags)).
  split_and!.
  - done.
  - done.
  - unfold categorize_companies, bind. rewrite Hloop. reflexivity.
  - intros c. rewrite get_category_add_entries. by destruct c.
  - rewrite total_add_entries, length_zip, Hlen. cbn. lia.
  - apply spec_first_seen_NoDup.
  - intros num. apply spec_first_seen_covers.
  - intros a. apply spec_first_seen_first.
Qed.

(** Claim C3.  An appointment that reaches classification (it has a
    non-empty company number not seen before) is appended to the category
    chosen in this order: a resignation date gives [resigned]; otherwise a
    lower-cased status among liquidation, administration, receivership,
    insolvency-proceedings and converted-closed gives [involuntary];
    otherwise the lower-cased status dissolved gives [dissolved]; otherwise,
    for active and for every other status, [active].  In particular a
    resignation date at a company in liquidation gives [resigned]. *)
Theorem classification_priority cats seen appt co num n :
  appointed_to appt = Some co →
  company_number co = Some num →
  num ≠ "" →
  num ∉ seen →
  let status := lower (default "" (company_status co)) in
  let expected :=
    if truthy (resigned_on appt) then resigned
    else if bool_decide (status ∈ ["liquidation"; "administration"; "receivership";
                                   "insolvency-proceedings"; "converted-closed"])
         then involuntary
    else if bool_decide (status = "dissolved") then dissolved
    else active in
  (∃ entry n',
     categorize_step transport frames (cats, seen) appt n
     = (Ok (append_entry cats expected entry, {[num]} ∪ seen), n')) ∧
  (∀ d, resigned_on appt = Some d → d ≠ "" → status = "liquidation" →
        expected = resigned).
Proof.
  intros Hat Hnum Hne Hseen status expected. split.
  - assert (co_num_of appt = Some num) as Hco.
    { unfold co_num_of. by rewrite Hat. }
    destruct (has_insolvency_returns transport frames num n) as (ins & n' & Hins).
    exists (entry_of appt ins), n'.
    rewrite (categorize_step_keep _ _ _ _ _ num n ins n'); try done.
    + do 3 f_equal. unfold category_of, classify, co_status_of. rewrite Hat.
      cbn [default]. fold status. subst expected.
      destruct (truthy (resigned_on appt)); [done|].
      assert (status ∈ involuntary_statuses
              ↔ status ∈ ["liquidation"; "administration"; "receivership";
                          "insolvency-proceedings"; "converted-closed"]) as Hiff.
      { unfold involuntary_statuses.
        rewrite !elem_of_union, !elem_of_singleton, !elem_of_cons, elem_of_nil.
        tauto. }
      rewrite (bool_decide_ext _ _ Hiff).
      by repeat case_bool_decide.
    + rewrite (proj2 (truthy_Some num) Hne). by rewrite bool_decide_eq_false_2.
  - intros d Hd Hdne _. subst expected.
    by rewrite Hd, (proj2 (truthy_Some d) Hdne).
Qed.

End categorizer_claims.

(** The end-to-end scenario of the specification, with AcmeCo repeated
    in the second history: officer abc123 holds AcmeCo, officer xyz789
    holds OldCo and AcmeCo. *)
Example categorize_scenario :
  categorize_companies transport_scenario 0 ([acme_111] ++ [oldco_222; acme_111]) 0
  = (Ok (Categories ["AcmeCo (111)"] ["OldCo (222) [Insolvency history]"] [] []),
     2%nat).
Proof. vm_compute. reflexivity. Qed.

Lemma categorize_each_company_once_witness :
  (Some "12345678" ∈ co_num_of <$> [acme_active; acme_resigned]
   ↔ Some "12345678" ∈ co_num_of <$> spec_first_seen [acme_active; acme_resigned]) ∧
  ∃ l1 l2, [acme_active; acme_resigned] = (l1 ++ acme_active :: l2)%list ∧
           co_num_of acme_active ∉ co_num_of <$> l1.
Proof.
  destruct (categorize_each_company_once (case:=unit) transport_down 0
              [acme_active; acme_resigned] 0)
    as (flags & n' & cats & _ & _ & _ & _ & _ & _ & Hcovers & Hfirst).
  split.
  - apply Hcovers. discriminate.
  - apply Hfirst. vm_compute. left.
Defined.

Lemma classification_priority_witness :
  (∃ entry n',
     categorize_step (case:=unit) transport_down 0 (Categories [] [] [] [], ∅)
                     acme_resigned 0
     = (Ok (append_entry (Categories [] [] [] []) resigned entry,
            {["12345678"]} ∪ ∅), n')) ∧
  category_of acme_resigned = resigned.
Proof.
  assert (H : "12345678" ≠ "") by discriminate.
  split.
  - refine (proj1 (classification_priority (case:=unit) transport_down 0
                     (Categories [] [] [] []) ∅ acme_resigned
                     (AppointedTo (Some "12345678") (Some "liquidation") (Some "AcmeCo"))
                     "12345678" 0 eq_refl eq_refl H (not_elem_of_empty _))).
  - refine (proj2 (classification_priority (case:=unit) transport_down 0
                     (Categories [] [] [] []) ∅ acme_resigned
                     (AppointedTo (Some "12345678") (Some "liquidation") (Some "AcmeCo"))
                     "12345678" 0 eq_refl eq_refl H (not_elem_of_empty _))
                  "2020-01-31" eq_refl _ eq_refl).
    discriminate.
Defined.

(** Claim C9.  [api_call] never raises.  It returns the parsed body of a
    response with status 200, and [None] for status 404 or 416, for every
    other status except 200 and 429, for every failure of the transport
    and for a body that is not JSON; and a body it returns is the parsed
    body of a response with status 200. *)
Theorem api_call_contract {J : Type}
    (transport : nat → string → option params_t → result (response J))
    (frames : nat) (endpoint : string) (params : option params_t)
    (n : nat) :
  (∃ v n', api_call transport frames endpoint params n = (Ok v, n')) ∧
  (∀ r body,
     transport n endpoint params = Ok r → status_code r = 200%Z →
     json r = Ok body →
     api_call transport frames endpoint params n = (Ok body, S n)) ∧
  (∀ r,
     transport n endpoint params = Ok r → status_code r ∈ [404; 416]%Z →
     api_call transport frames endpoint params n = (Ok None, S n)) ∧
  (∀ r,
     transport n endpoint params = Ok r →
     status_code r ≠ 200%Z → status_code r ≠ 429%Z →
     api_call transport frames endpoint params n = (Ok None, S n)) ∧
  (∀ e,
     transport n endpoint params = Raise e →
     api_call transport frames endpoint params n = (Ok None, S n)) ∧
  (∀ r e,
     transport n endpoint params = Ok r → status_code r = 200%Z →
     json r = Raise e →
     api_call transport frames endpoint params n = (Ok None, S n)) ∧
  (∀ v n',
     api_call transport frames endpoint params n = (Ok (Some v), n') →
     ∃ m r, n' = S m ∧ (n ≤ m)%nat ∧ transport m endpoint params = Ok r ∧
            status_code r = 200%Z ∧ json r = Ok (Some v)).
Proof.
  split_and!.
  - apply api_call_returns.
  - intros r body Ht Hs Hj. by rewrite api_call_unfold, Ht, Hs, Hj.
  - intros r Ht Hs. rewrite api_call_unfold, Ht.
    rewrite (bool_decide_eq_true_2 _ Hs).
    apply elem_of_cons in Hs as [->| ->%list_elem_of_singleton]; done.
  - intros r Ht H200 H429. rewrite api_call_unfold, Ht.
    apply Z.eqb_neq in H200, H429. rewrite H200, H429.
    by destruct (bool_decide _).
  - intros e Ht. by rewrite api_call_unfold, Ht.
  - intros r e Ht Hs Hj. by rewrite api_call_unfold, Ht, Hs, Hj.
  - apply api_call_body.
Qed.

Lemma api_call_contract_witness :
  api_call (transport_const 200 (Ok (Some "body"))) 0 "/company/111" None 0
  = (Ok (Some "body"), 1%nat) ∧
  api_call (J:=string) (transport_const 404 (Raise JSONDecodeError)) 0 "/company/111" None 0
  = (Ok None, 1%nat) ∧
  api_call (J:=string) (transport_const 500 (Raise JSONDecodeError)) 0 "/company/111" None 0
  = (Ok None, 1%nat) ∧
  api_call (J:=string) transport_down 0 "/company/111" None 0 = (Ok None, 1%nat) ∧
  api_call (J:=string) (transport_const 200 (Raise JSONDecodeError)) 0 "/company/111" None 0
  = (Ok None, 1%nat) ∧
  ∃ m r, 3%nat = S m ∧ (0 ≤ m)%nat ∧ transport_busy m "/company/111" None = Ok r ∧
         status_code r = 200%Z ∧ json r = Ok (Some "body").
Proof.
  split_and!.
  - apply (proj1 (proj2 (api_call_contract
                           (transport_const 200 (Ok (Some "body"))) 0 "/company/111" None 0))
                 (Response 200 (Ok (Some "body"))) (Some "body")); reflexivity.
  - apply (proj1 (proj2 (proj2 (api_call_contract (J:=string)
                           (transport_const 404 (Raise JSONDecodeError)) 0 "/company/111" None 0)))
                 (Response 404 (Raise JSONDecodeError))); [reflexivity|].
    cbn. left.
  - apply (proj1 (proj2 (proj2 (proj2 (api_call_contract (J:=string)
                           (transport_const 500 (Raise JSONDecodeError)) 0 "/company/111" None 0))))
                 (Response 500 (Raise JSONDecodeError))); [reflexivity | discriminate | discriminate].
  - apply (proj1 (proj2 (proj2 (proj2 (proj2 (api_call_contract (J:=string)
                           transport_down 0 "/company/111" None 0)))))
                 Timeout); reflexivity.
  - apply (proj1 (proj2 (proj2 (proj2 (proj2 (proj2 (api_call_contract (J:=string)
                           (transport_const 200 (Raise JSONDecodeError)) 0 "/company/111" None 0))))))
                 (Response 200 (Raise JSONDecodeError)) JSONDecodeError); reflexivity.
  - apply (proj2 (proj2 (proj2 (proj2 (proj2 (proj2 (api_call_contract
                           transport_busy 5 "/company/111" None 0))))))
                 "body" 3%nat). reflexivity.
Defined.

(** Claim C10.  [has_insolvency] returns [True] exactly when the lookup
    yields a body whose [cases] list is present and not empty.  When it
    returns [False] the display entry is the company name and number
    without annotation.  A lookup that fails in the transport and a lookup
    answered with an empty [cases] list both give [False]. *)
Theorem has_insolvency_only_nonempty_cases {case : Type} (frames : nat)
    (num : string) (n : nat) :
  (∀ transport : nat → string → option params_t
                 → result (response (insolvency case)),
     ∃ data b n',
       api_call transport frames ("/company/" ++ num ++ "/insolvency") None n
       = (Ok data, n') ∧
       has_insolvency transport frames num n = (Ok b, n') ∧
       (b = true ↔ ∃ d l, data = Some d ∧ cases d = Some l ∧ l ≠ []) ∧
       (∀ cats seen appt,
          b = false → co_num_of appt = Some num → num ≠ "" → num ∉ seen →
          categorize_step transport frames (cats, seen) appt n
          = (Ok (append_entry cats (category_of appt)
                   (default "Unknown"
                      (company_name (default empty_appointed_to (appointed_to appt)))
                    ++ " (" ++ num ++ ")"),
                 {[num]} ∪ seen), n'))) ∧
  (∀ (failing empty : nat → string → option params_t
                      → result (response (insolvency case))) e,
     failing n ("/company/" ++ num ++ "/insolvency") None = Raise e →
     empty n ("/company/" ++ num ++ "/insolvency") None
     = Ok (Response 200 (Ok (Some (Insolvency (Some []))))) →
     has_insolvency failing frames num n = (Ok false, S n) ∧
     has_insolvency empty frames num n = (Ok false, S n)).
Proof.
  split.
  - intros transport.
    destruct (api_call_returns transport frames ("/company/" ++ num ++ "/insolvency") None n)
      as (data & n' & Hcall).
    assert (∃ b, has_insolvency transport frames num n = (Ok b, n') ∧
                 (b = true ↔ ∃ d l, data = Some d ∧ cases d = Some l ∧ l ≠ []))
      as (b & Hb & Hiff).
    { unfold has_insolvency, bind. rewrite Hcall. unfold ret. eexists. split; [done|].
      destruct data as [d|]; [destruct (cases d) as [[|x l]|] eqn:Hc|].
      - rewrite bool_decide_eq_false_2 by (cbn; lia). split; [done|].
        intros (d' & l' & [= <-] & Hc' & Hl'). congruence.
      - rewrite bool_decide_eq_true_2 by (cbn; lia). split; [|done].
        intros _. by exists d, (x :: l).
      - split; [done|]. intros (d' & l' & [= <-] & Hc' & Hl'). congruence.
      - split; [done|]. by intros (d' & l' & [=] & _). }
    exists data, b, n'. split_and!; try done.
    intros cats seen appt -> Hco Hne Hseen.
    rewrite (categorize_step_keep _ _ _ _ _ num n false n'); try done.
    + unfold entry_of, num_of. by rewrite Hco.
    + rewrite (proj2 (truthy_Some num) Hne). by rewrite bool_decide_eq_false_2.
  - intros failing empty e Hf He. unfold has_insolvency, bind.
    rewrite !api_call_unfold, Hf, He. done.
Qed.

Lemma has_insolvency_only_nonempty_cases_witness :
  (has_insolvency (case:=unit) transport_down 0 "12345678" 0 = (Ok false, 1%nat) ∧
   has_insolvency (case:=unit)
     (transport_const 200 (Ok (Some (Insolvency (Some []))))) 0 "12345678" 0
   = (Ok false, 1%nat)) ∧
  categorize_step (case:=unit) transport_down 0 (Categories [] [] [] [], ∅)
                  acme_active 0
  = (Ok (append_entry (Categories [] [] [] []) active "AcmeCo (12345678)",
         {["12345678"]} ∪ ∅), 1%nat).
Proof.
  split.
  - apply (proj2 (has_insolvency_only_nonempty_cases (case:=unit) 0 "12345678" 0)
                 transport_down (transport_const 200 (Ok (Some (Insolvency (Some [])))))
                 Timeout); reflexivity.
  - destruct (proj1 (has_insolvency_only_nonempty_cases (case:=unit) 0 "12345678" 0)
                    transport_down)
      as (data & b & n' & _ & Hins & _ & Hstep).
    vm_compute in Hins. injection Hins as <- <-.
    apply (Hstep (Categories [] [] [] []) ∅ acme_active).
    + reflexivity.
    + reflexivity.
    + discriminate.
    + apply not_elem_of_empty.
Defined.

(** ** Match finder *)

Section match_finder_facts.

Lemma match_dob_true o target_month target_year :
  match_dob o target_month target_year = true
  ↔ month (dob_of o) = target_month ∧ year (dob_of o) = target_year.
Proof.
  unfold match_dob, dob_of.
  by rewrite andb_true_iff, !bool_decide_eq_true.
Qed.

Lemma potential_matches_step_elem p ids acc o m :
  m ∈ potential_matches_step p ids acc o →
  m ∈ acc ∨
  (pm_officer m = o ∧ match_dob o (dob_month p) (dob_year p) = true ∧
   pm_officer_id m ∉ ids).
Proof.
  unfold potential_matches_step.
  destruct (match_dob o (dob_month p) (dob_year p)); [|by left].
  destruct (contains _ _); [|by left].
  case_bool_decide as Hid; [|by left].
  intros [Hm | ->%list_elem_of_singleton]%elem_of_app; [by left | by right].
Qed.

Lemma potential_matches_elem p ids results : ∀ acc m,
  m ∈ foldl (potential_matches_step p ids) acc results →
  m ∈ acc ∨
  (pm_officer m ∈ results ∧
   match_dob (pm_officer m) (dob_month p) (dob_year p) = true ∧
   pm_officer_id m ∉ ids).
Proof.
  induction results as [|o results IH]; intros acc m; cbn [foldl]; [by left|].
  intros [Hm | (Ho & Hd & Hi)]%IH.
  - apply potential_matches_step_elem in Hm as [Hm | (<- & Hd & Hi)]; [by left|].
    right. split_and!; [left | done | done].
  - right. split_and!; [by right | done | done].
Qed.

End match_finder_facts.

(** Claim C2, amended.  A search hit passes the filter only when its
    month and year of birth both equal those of the person, an absent
    value being equal to an absent value only; every candidate kept comes
    from the search results, has the person's date of birth and an officer
    id that is not yet verified.  For a person of unknown date of birth the
    hits that pass are exactly those that carry neither month nor year. *)
Theorem potential_matches_dob_equal (p : person) (verified_ids : list string)
    (officer_results : list officer_t) :
  (∀ o, match_dob o (dob_month p) (dob_year p) = true
        ↔ month (dob_of o) = dob_month p ∧ year (dob_of o) = dob_year p) ∧
  (∀ m, m ∈ potential_matches p verified_ids officer_results →
        pm_officer m ∈ officer_results ∧
        month (dob_of (pm_officer m)) = dob_month p ∧
        year (dob_of (pm_officer m)) = dob_year p ∧
        pm_officer_id m ∉ verified_ids) ∧
  (dob_month p = None → dob_year p = None →
   ∀ o, match_dob o (dob_month p) (dob_year p) = true
        ↔ month (dob_of o) = None ∧ year (dob_of o) = None).
Proof.
  split_and!.
  - intros o. apply match_dob_true.
  - intros m [Hm | (Ho & Hd & Hi)]%potential_matches_elem.
    + by apply elem_of_nil in Hm.
    + apply match_dob_true in Hd as [Hmo Hy]. done.
  - intros Hm Hy o. rewrite match_dob_true, Hm, Hy. done.
Qed.

Lemma potential_matches_dob_equal_witness :
  (pm_officer (PotentialMatch hit_same_dob "xyz789") ∈ [hit_no_dob; hit_same_dob] ∧
   month (dob_of hit_same_dob) = dob_month smith_director ∧
   year (dob_of hit_same_dob) = dob_year smith_director ∧
   "xyz789" ∉ ["abc123"]) ∧
  (match_dob hit_no_dob (dob_month smith_unknown_dob) (dob_year smith_unknown_dob) = true
   ↔ month (dob_of hit_no_dob) = None ∧ year (dob_of hit_no_dob) = None).
Proof.
  split.
  - apply (proj1 (proj2 (potential_matches_dob_equal smith_director ["abc123"]
                           [hit_no_dob; hit_same_dob]))
                 (PotentialMatch hit_same_dob "xyz789")).
    vm_compute. left.
  - apply (proj2 (proj2 (potential_matches_dob_equal smith_unknown_dob ["abc123"]
                           [hit_no_dob]))); reflexivity.
Defined.

(** Claim C2 as stated fails: a hit without date of birth passes the
    filter of a person whose date of birth is unknown. *)
Lemma unknown_dob_candidate_passes :
  ¬ (∀ (p : person) (verified_ids : list string) (o : officer_t),
       dob_month p = None → dob_year p = None →
       potential_matches p verified_ids [o] = []).
Proof.
  intros H.
  specialize (H (Person "SMITH, John" None None ["Director"] (Some "abc123"))
                ["abc123"]
                (Officer (Some "John SMITH") None
                         (Some (Links (Some "/officers/xyz789/appointments"))))
                eq_refl eq_refl).
  vm_compute in H. discriminate H.
Qed.

(** ** Identity aggregator *)

Section aggregator_facts.

Lemma spec_first_officer_id_snoc ids i :
  ids ≠ [] →
  spec_first_officer_id (ids ++ [i])
  = if truthy i && negb (truthy (spec_first_officer_id ids))
    then i else spec_first_officer_id ids.
Proof.
  intros Hne. unfold spec_first_officer_id. rewrite filter_app.
  destruct (filter (λ i, truthy i = true) ids) as [|id l] eqn:Hf.
  - destruct ids as [|h ids]; [done|].
    assert (truthy h = false) as Hh.
    { destruct (truthy h) eqn:Ht; [|done].
      rewrite filter_cons_True in Hf by done. done. }
    cbn [app]. rewrite Hh, andb_true_r, filter_cons.
    by destruct (truthy i) eqn:Hi; case_decide.
  - assert (truthy id = true) as Hid.
    { assert (id ∈ filter (λ i, truthy i = true) ids) as Hin by (rewrite Hf; left).
      by apply list_elem_of_filter in Hin as [? _]. }
    cbn [app]. by rewrite Hid, andb_false_r.
Qed.

Lemma update_entry_keys k f people : (update_entry k f people).*1 = people.*1.
Proof.
  induction people as [|[k' e] people IH]; [done|].
  cbn [update_entry]. case_decide; [done|]. cbn. by rewrite IH.
Qed.

Lemma update_entry_elem k f people k' p' :
  NoDup people.*1 →
  (k', p') ∈ update_entry k f people →
  (k' = k ∧ ∃ p0, (k, p0) ∈ people ∧ p' = f p0) ∨ (k' ≠ k ∧ (k', p') ∈ people).
Proof.
  induction people as [|[k0 e] people IH]; cbn [update_entry].
  { by intros _ ?%elem_of_nil. }
  rewrite fmap_cons. intros [Hk0 Hnd]%NoDup_cons. case_decide as Hk; subst.
  - intros [[= -> ->] | Hin]%elem_of_cons.
    + left. split; [done|]. exists e. split; [left | done].
    + right. split; [|by right].
      intros ->. apply Hk0. apply list_elem_of_fmap. by exists (k, p').
  - intros [[= -> ->] | Hin]%elem_of_cons.
    + right. split; [done | left].
    + destruct (IH Hnd Hin) as [(-> & p0 & Hp0 & ->) | [Hne Hp]].
      * left. split; [done|]. exists p0. split; [by right | done].
      * right. split; [done | by right].
Qed.

Lemma merged_step items people x :
  merged items people → merged (items ++ [x]) (merge_step people x).
Proof.
  intros (Hnd & Hkeys & Hent). unfold merge_step.
  case_bool_decide as Hin.
  - (* the key exists: the entry is updated in place *)
    split_and!.
    + by rewrite update_entry_keys.
    + intros k. rewrite update_entry_keys, Hkeys. split.
      * intros (item & Hi & Hk). exists item. split; [|done].
        apply elem_of_app. by left.
      * intros (item & [Hi | ->%list_elem_of_singleton]%elem_of_app & Hk).
        -- by exists item.
        -- apply Hkeys. by rewrite <-Hk.
    + intros k p [(-> & p0 & Hp0 & ->) | [Hne Hp]]%update_entry_elem; [| |done].
      * destruct (Hent _ _ Hp0) as (Hkey & Hroles & Hid).
        unfold items_of. rewrite filter_app, filter_cons_True, filter_nil by done.
        rewrite !fmap_app, join_app. cbn [fmap list_fmap mjoin list_join].
        rewrite app_nil_r.
        rewrite spec_first_officer_id_snoc.
        2:{ apply Hkeys in Hin as (item & Hi & Hk).
            intros Hnil%fmap_nil_inv.
            assert (item ∈ filter (λ i, person_key i = person_key x) items) as Hf
              by (by apply list_elem_of_filter).
            rewrite Hnil in Hf. by apply elem_of_nil in Hf. }
        fold (items_of (person_key x) items). rewrite <-Hroles, <-Hid.
        unfold merge_into.
        destruct (truthy (officer_id x) && negb (truthy (officer_id p0)));
          split_and!; try done; by rewrite <-Hkey.
      * destruct (Hent _ _ Hp) as (Hkey & Hroles & Hid).
        unfold items_of. rewrite filter_app, filter_cons_False, filter_nil by congruence.
        by rewrite app_nil_r.
  - (* a new key: the item is inserted as it is *)
    assert (items_of (person_key x) items = []) as Hnone.
    { unfold items_of. destruct (filter _ items) as [|y l] eqn:Hf; [done|].
      assert (y ∈ filter (λ i, person_key i = person_key x) items) as Hy
        by (rewrite Hf; left).
      apply list_elem_of_filter in Hy as [Hk Hy].
      destruct Hin. apply Hkeys. by exists y. }
    split_and!.
    + rewrite fmap_app. apply NoDup_app. split_and!; [done | | apply NoDup_singleton].
      intros k Hk ->%list_elem_of_singleton. done.
    + intros k. rewrite fmap_app, elem_of_app, Hkeys. cbn. rewrite list_elem_of_singleton.
      split.
      * intros [(item & Hi & Hk) | ->].
        -- exists item. split; [|done]. apply elem_of_app. by left.
        -- exists x. split; [|done]. apply elem_of_app. right. by left.
      * intros (item & [Hi | ->%list_elem_of_singleton]%elem_of_app & Hk).
        -- left. by exists item.
        -- by right.
    + intros k p [Hp | [= -> ->]%list_elem_of_singleton]%elem_of_app.
      * destruct (Hent _ _ Hp) as (Hkey & Hroles & Hid).
        assert (person_key x ≠ k) as Hne.
        { intros <-. apply Hin. apply list_elem_of_fmap. by exists (person_key x, p). }
        unfold items_of. rewrite filter_app, filter_cons_False, filter_nil by done.
        by rewrite app_nil_r.
      * unfold items_of in *. rewrite filter_app, Hnone, filter_cons_True, filter_nil by done.
        cbn. rewrite app_nil_r. split_and!; [done..|].
        unfold spec_first_officer_id. rewrite filter_cons.
        by case_decide.
Qed.

Lemma merged_foldl items : ∀ done people,
  merged done people → merged (done ++ items) (foldl merge_step people items).
Proof.
  induction items as [|x items IH]; intros done people Hm.
  { by rewrite app_nil_r. }
  cbn [foldl]. rewrite cons_middle, (assoc_L (++)%list done [x] items).
  apply IH, merged_step, Hm.
Qed.

Lemma merged_nil : merged [] [].
Proof.
  split_and!.
  - constructor.
  - intros k. split; [by intros ?%elem_of_nil|].
    by intros (item & ?%elem_of_nil & _).
  - by intros k p ?%elem_of_nil.
Qed.

End aggregator_facts.

(** Claim C4.  Merging the director items followed by the PSC items gives
    exactly one person per identity key.  The roles of that person are the
    roles of all items with its key, one after the other, so as a set their
    union; its officer id is the first non-empty id among these items (the
    id of the first item when none is non-empty).  A director item and a
    PSC item with equal keys give one person with roles Director and
    PSC. *)
Theorem merge_people_one_person_per_key (directors pscs : list person) :
  let items := (directors ++ pscs)%list in
  let people := merge_people directors pscs in
  NoDup people.*1 ∧
  (∀ k, k ∈ people.*1 ↔ ∃ item, item ∈ items ∧ person_key item = k) ∧
  (∀ k p, (k, p) ∈ people →
     person_key p = k ∧
     roles p = mjoin (roles <$> items_of k items) ∧
     (∀ r, r ∈ roles p ↔ ∃ item, item ∈ items ∧ person_key item = k ∧ r ∈ roles item) ∧
     officer_id p = spec_first_officer_id (officer_id <$> items_of k items)) ∧
  (∀ d s, directors = [d] → pscs = [s] → person_key d = person_key s →
          roles d = ["Director"] → roles s = ["PSC"] →
          ∃ p, people = [(person_key d, p)] ∧ roles p = ["Director"; "PSC"]).
Proof.
  intros items people.
  destruct (merged_foldl items [] [] merged_nil) as (Hnd & Hkeys & Hent).
  split_and!; [done | done | |].
  - intros k p Hp. destruct (Hent k p Hp) as (Hkey & Hroles & Hid).
    split_and!; [done | done | | done].
    intros r. rewrite Hroles, list_elem_of_join. split.
    + intros (l & Hr & (item & -> & Hi)%list_elem_of_fmap).
      apply list_elem_of_filter in Hi as [Hk Hi]. by exists item.
    + intros (item & Hi & Hk & Hr). exists (roles item). split; [done|].
      apply list_elem_of_fmap. exists item. split; [done|].
      by apply list_elem_of_filter.
  - intros d s -> -> Hk Hd Hs. subst people. unfold merge_people.
    cbn [app foldl]. unfold merge_step at 2. cbn [fmap list_fmap].
    rewrite bool_decide_eq_false_2 by apply not_elem_of_nil.
    unfold merge_step. cbn [app fmap list_fmap fst].
    rewrite bool_decide_eq_true_2 by (rewrite Hk; left).
    cbn [update_entry]. rewrite decide_True by done.
    eexists. split; [done|].
    unfold merge_into. rewrite Hd, Hs. by destruct (_ && _).
Qed.

Lemma merge_people_one_person_per_key_witness :
  ∃ p, merge_people [smith_director] [smith_psc] = [(person_key smith_director, p)] ∧
       roles p = ["Director"; "PSC"].
Proof.
  apply (proj2 (proj2 (proj2 (merge_people_one_person_per_key
                                [smith_director] [smith_psc])))
               smith_director smith_psc);
    reflexivity.
Defined.

(** ** Confidence scorer *)

Module DifflibFacts.
Import Difflib.
Local Open Scope nat_scope.
Local Open Scope list_scope.

Lemma positions_snoc c b x :
  positions c (b ++ [x])
  = positions c b ++ (if decide (x = c) then [length b] else []).
Proof.
  unfold positions. rewrite length_app, Nat.add_1_r, seq_S, filter_app. f_equal.
  - apply filter_ext_in. intros i [_ Hi]%elem_of_seq.
    by rewrite lookup_app_l by lia.
  - cbn [Nat.add]. rewrite filter_cons, filter_nil.
    rewrite list_lookup_middle by done.
    destruct (decide (x = c)) as [->|Hne].
    + by rewrite decide_True.
    + rewrite decide_False; [done | congruence].
Qed.

Lemma positions_elem c b j : j ∈ positions c b ↔ b !! j = Some c.
Proof.
  unfold positions. rewrite list_elem_of_filter, elem_of_seq. split; [tauto|].
  intros H. split; [done|]. apply lookup_lt_Some in H. lia.
Qed.

Lemma StronglySorted_filter {A} (R : relation A) (P : A → Prop)
    `{∀ x, Decision (P x)} (l : list A) :
  StronglySorted R l → StronglySorted R (filter P l).
Proof.
  induction 1 as [|x l Hl IH Hx]; [constructor|].
  rewrite filter_cons. destruct (decide (P x)); [|done].
  constructor; [done|]. apply Forall_forall. intros y [_ Hy]%list_elem_of_filter.
  rewrite Forall_forall in Hx. by apply Hx.
Qed.

Lemma StronglySorted_seq j n : StronglySorted lt (seq j n).
Proof.
  revert j. induction n as [|n IH]; intros j; cbn [seq]; constructor; [apply IH|].
  apply Forall_forall. intros k Hk%elem_of_seq. lia.
Qed.

Lemma positions_sorted c b : StronglySorted lt (positions c b).
Proof. apply StronglySorted_filter, StronglySorted_seq. Qed.

Lemma index_elements_lookup b c :
  index_elements b !! c
  = if decide (positions c b = []) then None else Some (positions c b).
Proof.
  unfold index_elements. induction b as [|x b IH] using rev_ind.
  { cbn. by rewrite lookup_empty, decide_True. }
  rewrite imap_app, foldl_app. cbn [imap foldl]. unfold index_step at 1.
  cbn [fst snd]. rewrite Nat.add_0_r, positions_snoc, lookup_insert.
  destruct (decide (x = c)) as [->|Hne].
  - rewrite IH.
    destruct (decide (positions c b = [])) as [->|Hp]; cbn [default].
    + by rewrite decide_False.
    + rewrite decide_False; [done|]. by intros [? _]%app_eq_nil.
  - by rewrite IH, app_nil_r.
Qed.

(** The entry of an element that [__chain_b] keeps lists its positions. *)
Lemma chain_b_lookup b c js :
  chain_b b !! c = Some js → js = positions c b ∧ js ≠ [].
Proof.
  assert (index_elements b !! c = Some js → js = positions c b ∧ js ≠ []) as Hidx.
  { rewrite index_elements_lookup. case_decide; [done|]. by intros [= <-]. }
  unfold chain_b. case_bool_decide; [|exact Hidx].
  intros [Hl _]%map_lookup_filter_Some. by apply Hidx.
Qed.

Section self_match.
Variable a : list ascii.

Lemma run_eq i j :
  run a i j
  = match a !! i, a !! j with
    | Some c, Some d =>
        if bool_decide (c = d) && indexed a d
        then S (match i, j with
                | S i', S j' => run a i' j'
                | _, _ => 0
                end)
        else 0
    | _, _ => 0
    end.
Proof. by destruct i. Qed.

Lemma run_match i j c :
  a !! i = Some c → a !! j = Some c → indexed a c = true →
  run a i j = S (match i, j with S i', S j' => run a i' j' | _, _ => 0 end).
Proof.
  intros Hi Hj Hc. rewrite run_eq, Hi, Hj, Hc.
  by rewrite bool_decide_eq_true_2.
Qed.

Lemma run_no_match i j :
  (∀ c, a !! i = Some c → a !! j = Some c → indexed a c = false) →
  run a i j = 0.
Proof.
  intros H. rewrite run_eq.
  destruct (a !! i) as [c|] eqn:Hi; [|done].
  destruct (a !! j) as [d|] eqn:Hj; [|done].
  case_bool_decide as Hcd; [|done]. subst d.
  by rewrite (H c).
Qed.

Lemma run_bound i : ∀ j, run a i j ≤ S i.
Proof.
  induction i as [|i IH]; intros j; rewrite run_eq;
    destruct (a !! _) as [c|]; try lia;
    destruct (a !! j) as [d|]; try lia;
    destruct (_ && _); try lia.
  destruct j as [|j]; [lia|]. specialize (IH j). lia.
Qed.

(** A run off the diagonal is no longer than the runs on the diagonal
    that end in the same row and in the same column. *)
Lemma run_diagonal i : ∀ j, run a i j ≤ run a i i ∧ run a i j ≤ run a j j.
Proof.
  induction i as [|i IH]; intros j.
  - rewrite (run_eq 0 j).
    destruct (a !! 0) as [c|] eqn:H0; [|lia].
    destruct (a !! j) as [d|] eqn:Hj; [|lia].
    case_bool_decide as Hcd; [|cbn; lia]. subst d.
    destruct (indexed a c) eqn:Hc; [|cbn; lia]. cbn [andb].
    rewrite (run_match 0 0 c), (run_match j j c) by done.
    destruct j; lia.
  - rewrite (run_eq (S i) j).
    destruct (a !! S i) as [c|] eqn:Hi; [|lia].
    destruct (a !! j) as [d|] eqn:Hj; [|lia].
    case_bool_decide as Hcd; [|cbn; lia]. subst d.
    destruct (indexed a c) eqn:Hc; [|cbn; lia]. cbn [andb].
    rewrite (run_match (S i) (S i) c), (run_match j j c) by done.
    destruct j as [|j]; [lia|]. destruct (IH j). lia.
Qed.

Lemma scan_row_j2len bhi i j2len js : ∀ new best j',
  Forall (λ j, j < bhi) js →
  (scan_row 0 bhi i j2len js (new, best)).1 !! j'
  = if decide (j' ∈ js) then Some (j2lenget_pred j2len j' + 1) else new !! j'.
Proof.
  induction js as [|j js IH]; intros new best j' Hjs.
  { cbn [scan_row fst]. rewrite decide_False; [done | apply not_elem_of_nil]. }
  apply Forall_cons in Hjs as [Hj Hjs]. cbn [scan_row].
  rewrite bool_decide_eq_false_2 by lia. rewrite bool_decide_eq_false_2 by lia.
  destruct best as [[bi bj] bs].
  assert (∀ best',
    (scan_row 0 bhi i j2len js (<[j:=j2lenget_pred j2len j + 1]> new, best')).1 !! j'
    = if decide (j' ∈ j :: js) then Some (j2lenget_pred j2len j' + 1)
      else new !! j') as Hboth.
  { intros best'. rewrite IH by done.
    destruct (decide (j' ∈ js)) as [Hin|Hin].
    - rewrite decide_True; [done | by right].
    - rewrite lookup_insert. destruct (decide (j = j')) as [->|Hne].
      + rewrite decide_True; [done | left].
      + rewrite decide_False; [done|].
        rewrite not_elem_of_cons. split; [congruence | done]. }
  case_bool_decide; apply Hboth.
Qed.

Lemma scan_row_best i j2len c :
  a !! i = Some c → indexed a c = true →
  (∀ j, j2lenget_pred j2len j
        = match i, j with S i', S j' => run a i' j' | _, _ => 0 end) →
  ∀ js new best,
    Forall (λ j, a !! j = Some c) js → StronglySorted lt js →
    row_ok a i js best →
    row_ok a i [] (scan_row 0 (length a) i j2len js (new, best)).2.
Proof.
  intros Hi Hc Hprev. induction js as [|j js IH]; intros new best Hjs Hsort Hok.
  { done. }
  apply Forall_cons in Hjs as [Hj Hjs].
  apply StronglySorted_inv in Hsort as [Hsort Hlt].
  cbn [scan_row].
  rewrite bool_decide_eq_false_2 by lia.
  rewrite bool_decide_eq_false_2 by (apply lookup_lt_Some in Hj; lia).
  destruct best as [[bi bj] bs]. destruct Hok as (Hd & Hb & Hup & Hrow).
  cbn [fst snd] in *.
  assert (j2lenget_pred j2len j + 1 = run a i j) as ->.
  { rewrite Hprev, (run_match i j c) by done. lia. }
  assert ((i ∈ js) ∨ ((i ∉ js) ∧ (j = i ∨ run a i i ≤ bs))) as Hrow'.
  { destruct (decide (i ∈ js)) as [?|Hnin]; [by left|]. right. split; [done|].
    destruct Hrow as [[->|?]%elem_of_cons|?]; by eauto. }
  case_bool_decide as Hbetter.
  - (* a longer run: it ends on the diagonal *)
    assert (j = i) as ->.
    { destruct (run_diagonal i j) as [Hrow_le Hcol_le].
      destruct (Nat.lt_trichotomy j i) as [Hji | [-> | Hij]]; [|done|].
      - specialize (Hup j Hji). lia.
      - destruct Hrow as [[->|Hin]%elem_of_cons|Hle]; [lia | | lia].
        rewrite Forall_forall in Hlt. specialize (Hlt i Hin). lia. }
    apply IH; [done | done |]. split_and!; cbn [fst snd].
    + done.
    + pose proof (run_bound i i). lia.
    + intros i' Hi'. specialize (Hup i' Hi'). lia.
    + by right.
  - apply IH; [done | done |]. split_and!; cbn [fst snd]; [done..|].
    destruct Hrow' as [?|[_ [-> | ?]]]; [by left | (right; lia) | by right].
Qed.

Lemma scan_step_ok i j2len best :
  i < length a → j2len_ok a i j2len → best_ok a i best →
  j2len_ok a (S i) (scan_step a (chain_b a) 0 (length a) (j2len, best) i).1 ∧
  best_ok a (S i) (scan_step a (chain_b a) 0 (length a) (j2len, best) i).2.
Proof.
  intros Hi Hj2len (Hd & Hb & Hup). unfold scan_step.
  destruct (lookup_lt_is_Some_2 a i Hi) as [c Hc]. rewrite Hc. cbn [mbind option_bind].
  assert (∀ j, j2lenget_pred j2len j
               = match i, j with S i', S j' => run a i' j' | _, _ => 0 end) as Hprev.
  { intros [|j]; [by destruct i|]. cbn [j2lenget_pred]. by rewrite Hj2len. }
  destruct (chain_b a !! c) as [js|] eqn:Hjs; cbn [default].
  - apply chain_b_lookup in Hjs as Hpos. destruct Hpos as [-> _].
    assert (indexed a c = true) as Hidx.
    { unfold indexed. rewrite Hjs. by apply bool_decide_eq_true_2. }
    split.
    + intros j. rewrite scan_row_j2len.
      2:{ apply Forall_forall. intros k Hk%positions_elem.
          by apply lookup_lt_Some in Hk. }
      case_decide as Hin.
      * apply positions_elem in Hin. cbn [from_option id].
        rewrite Hprev, (run_match i j c) by done. lia.
      * rewrite lookup_empty. cbn [from_option]. symmetry. apply run_no_match.
        intros c' Hc' Hj. destruct Hin. apply positions_elem. congruence.
    + destruct (scan_row_best i j2len c Hc Hidx Hprev (positions c a) ∅ best)
        as (Hd' & Hb' & Hup' & Hrow').
      * apply Forall_forall. by intros k Hk%positions_elem.
      * apply positions_sorted.
      * split_and!; [done | lia | done |]. left. by apply positions_elem.
      * split_and!; [done | done |].
        intros i' Hi'. destruct (decide (i' = i)) as [->|Hne].
        -- destruct Hrow' as [?%elem_of_nil|?]; done.
        -- apply Hup'. lia.
  - assert (indexed a c = false) as Hidx.
    { unfold indexed. rewrite Hjs. apply bool_decide_eq_false_2. by intros [? ?]. }
    assert (∀ j, run a i j = 0) as Hrun.
    { intros j. apply run_no_match. intros c' Hc' _. congruence. }
    cbn [scan_row fst snd]. split.
    + intros j. by rewrite lookup_empty, Hrun.
    + split_and!; [done | lia |].
      intros i' Hi'. destruct (decide (i' = i)) as [->|Hne].
      * rewrite Hrun. lia.
      * apply Hup. lia.
Qed.

Lemma scan_prefix_ok m :
  m ≤ length a →
  j2len_ok a m (foldl (scan_step a (chain_b a) 0 (length a)) (∅, (0, 0, 0)) (seq 0 m)).1 ∧
  best_ok a m (foldl (scan_step a (chain_b a) 0 (length a)) (∅, (0, 0, 0)) (seq 0 m)).2.
Proof.
  induction m as [|m IH]; intros Hm.
  - cbn. split; [intros j; by rewrite lookup_empty|].
    split_and!; cbn; [done | lia | lia].
  - rewrite seq_S, foldl_app. cbn [foldl Nat.add].
    destruct IH as [Hj Hb]; [lia|].
    destruct (foldl _ _ (seq 0 m)) as [j2len best].
    by apply scan_step_ok.
Qed.

Lemma elem_eq_refl i : i < length a → elem_eq (a !! i) (a !! i) = true.
Proof.
  intros Hi. destruct (lookup_lt_is_Some_2 a i Hi) as [c ->].
  by apply bool_decide_eq_true_2.
Qed.

Lemma isbjunk_false x : isbjunk x = false.
Proof.
  destruct x as [c|]; [|done]. apply bool_decide_eq_false_2, not_elem_of_empty.
Qed.

Lemma extend_left_diagonal i : ∀ size,
  i ≤ length a → extend_left a a false 0 0 i i size = (0, 0, size + i).
Proof.
  induction i as [|i IH]; intros size Hi; cbn [extend_left].
  { f_equal. lia. }
  rewrite !bool_decide_eq_true_2 by lia. rewrite isbjunk_false.
  rewrite bool_decide_eq_true_2 by done. rewrite elem_eq_refl by lia.
  cbn [andb]. rewrite IH by lia. f_equal. lia.
Qed.

Lemma extend_right_diagonal fuel : ∀ size,
  size + fuel = length a →
  extend_right a a false (length a) (length a) 0 0 size fuel = length a.
Proof.
  induction fuel as [|fuel IH]; intros size Hsize; cbn [extend_right].
  { lia. }
  cbn [Nat.add].
  rewrite !bool_decide_eq_true_2 by lia. rewrite isbjunk_false.
  rewrite bool_decide_eq_true_2 by done. rewrite elem_eq_refl by lia.
  cbn [andb]. apply IH. lia.
Qed.

(** Compared with itself, [a] is one block. *)
Lemma find_longest_match_self :
  find_longest_match a a (chain_b a) 0 (length a) 0 (length a)
  = (0, 0, length a).
Proof.
  unfold find_longest_match, scan_rows. rewrite Nat.sub_0_r.
  destruct (scan_prefix_ok (length a)) as [_ (Hd & Hb & _)]; [done|].
  destruct (foldl _ _ _) as [j2len [[bi bj] bs]]. cbn [fst snd] in *. subst bj.
  rewrite extend_left_diagonal by lia.
  rewrite extend_right_diagonal by lia.
  destruct (length a) as [|n] eqn:Hn.
  - cbn. done.
  - cbn [extend_left]. rewrite Nat.add_0_l, Nat.sub_diag. done.
Qed.

Lemma match_regions_done fuel b2j blocks :
  match_regions fuel a a b2j [] blocks = Some blocks.
Proof. by destruct fuel. Qed.

Lemma get_matching_blocks_self :
  get_matching_blocks a a
  = Some (if decide (length a = 0) then [(0, 0, 0)]
          else [(0, 0, length a); (length a, length a, 0)]).
Proof.
  unfold get_matching_blocks.
  replace (2 * length a + 1) with (S (2 * length a)) by lia.
  cbn [match_regions]. rewrite find_longest_match_self.
  destruct (decide (length a = 0)) as [Hz|Hnz].
  - rewrite bool_decide_eq_false_2 by tauto.
    rewrite match_regions_done. cbn [mbind option_bind].
    change (merge_sort block_le []) with (@nil block). cbn [foldl].
    rewrite bool_decide_eq_false_2 by tauto. by rewrite Hz.
  - rewrite bool_decide_eq_true_2 by done.
    rewrite !bool_decide_eq_false_2 by lia. cbn [andb].
    rewrite match_regions_done. cbn [mbind option_bind app].
    change (merge_sort block_le [(0, 0, length a)]) with [(0, 0, length a)].
    cbn [foldl collapse_step]. rewrite !bool_decide_eq_true_2 by done.
    cbn [andb Nat.add]. by rewrite bool_decide_eq_true_2.
Qed.

Lemma ratio_self : ∃ q, ratio a a = Some q ∧ Qeq q 1.
Proof.
  unfold ratio. rewrite get_matching_blocks_self. cbn [mbind option_bind].
  eexists. split; [done|]. unfold calculate_ratio.
  destruct (decide (length a = 0)) as [Hz|Hnz].
  - rewrite Hz. by cbn.
  - rewrite bool_decide_eq_true_2 by lia.
    cbn [fmap list_fmap snd sum_list sum_list_with].
    unfold Qeq. cbn [Qnum Qden].
    assert (Z.pos (Pos.of_nat (length a + length a))
            = Z.of_nat (length a + length a)) as ->.
    { destruct (length a + length a) as [|m] eqn:Hm; [lia|].
      rewrite <-Pos.of_nat_succ. lia. }
    unfold id. lia.
Qed.

End self_match.

Section bounds.
Variables (a b : list ascii) (b2j : gmap ascii (list nat)).

Lemma j2lenget_pred_in alo blo i j2len j :
  alo ≤ i → j2len_in alo blo i j2len →
  j2lenget_pred j2len j + alo ≤ i ∧ j2lenget_pred j2len j ≤ j - blo.
Proof.
  intros Hlo Hin. destruct j as [|j]; cbn [j2lenget_pred]; [lia|].
  destruct (j2len !! j) as [v|] eqn:Hv; cbn [from_option id]; [|lia].
  destruct (Hin j v Hv). lia.
Qed.

Lemma scan_row_in alo ahi blo bhi i j2len js : ∀ new best,
  alo ≤ i → i < ahi →
  j2len_in alo blo i j2len →
  j2len_in alo blo (S i) new →
  block_in alo (S i) blo bhi best →
  j2len_in alo blo (S i) (scan_row blo bhi i j2len js (new, best)).1 ∧
  block_in alo (S i) blo bhi (scan_row blo bhi i j2len js (new, best)).2.
Proof.
  induction js as [|j js IH]; intros new best Hlo Hhi Hprev Hnew Hbest; [done|].
  cbn [scan_row]. case_bool_decide as Hjlo; [by apply IH|].
  case_bool_decide as Hjhi; [done|].
  destruct best as [[bi bj] bs].
  assert (j2lenget_pred j2len j + alo ≤ i ∧ j2lenget_pred j2len j ≤ j - blo)
    as [Hk1 Hk2].
  { by apply j2lenget_pred_in. }
  assert (j2len_in alo blo (S i) (<[j:=j2lenget_pred j2len j + 1]> new)) as Hnew'.
  { intros j' v. rewrite lookup_insert. case_decide as Hj'; [|by apply Hnew].
    intros [= <-]. subst j'. lia. }
  case_bool_decide; apply IH; try done.
  unfold block_in. cbn [fst snd]. lia.
Qed.

Lemma scan_step_in alo ahi blo bhi i j2len best :
  alo ≤ i → i < ahi →
  j2len_in alo blo i j2len → block_in alo i blo bhi best →
  j2len_in alo blo (S i) (scan_step a b2j blo bhi (j2len, best) i).1 ∧
  block_in alo (S i) blo bhi (scan_step a b2j blo bhi (j2len, best) i).2.
Proof.
  intros Hlo Hhi Hprev Hbest. unfold scan_step.
  apply (scan_row_in alo ahi); try done.
  unfold block_in in *. lia.
Qed.

Lemma scan_prefix_in alo ahi blo bhi m :
  blo ≤ bhi → alo + m ≤ ahi →
  j2len_in alo blo (alo + m)
    (foldl (scan_step a b2j blo bhi) (∅, (alo, blo, 0)) (seq alo m)).1 ∧
  block_in alo (alo + m) blo bhi
    (foldl (scan_step a b2j blo bhi) (∅, (alo, blo, 0)) (seq alo m)).2.
Proof.
  intros Hb. induction m as [|m IH]; intros Hm.
  - cbn [seq foldl fst snd]. split.
    + unfold j2len_in. by intros j v ?%lookup_empty_Some.
    + unfold block_in. cbn [fst snd]. lia.
  - rewrite seq_S, foldl_app. cbn [foldl].
    destruct IH as [Hj Hbest]; [lia|].
    destruct (foldl _ _ (seq alo m)) as [j2len best].
    replace (alo + S m) with (S (alo + m)) by lia.
    apply (scan_step_in alo ahi); [lia | lia | done | done].
Qed.

Lemma extend_left_in junk alo ahi blo bhi bi : ∀ bj bs,
  block_in alo ahi blo bhi (bi, bj, bs) →
  block_in alo ahi blo bhi (extend_left a b junk alo blo bi bj bs).
Proof.
  induction bi as [|bi IH]; intros bj bs Hin; cbn [extend_left]; [done|].
  destruct bj as [|bj]; [done|].
  destruct (_ && _) eqn:Hc; [|done].
  apply andb_prop in Hc as [Hc _]. apply andb_prop in Hc as [Hc _].
  apply andb_prop in Hc as [Ha Hb]. apply bool_decide_eq_true in Ha, Hb.
  apply IH. unfold block_in in *. cbn [fst snd] in *. lia.
Qed.

Lemma extend_right_in junk alo ahi blo bhi bi bj fuel : ∀ bs,
  block_in alo ahi blo bhi (bi, bj, bs) →
  block_in alo ahi blo bhi (bi, bj, extend_right a b junk ahi bhi bi bj bs fuel).
Proof.
  induction fuel as [|fuel IH]; intros bs Hin; cbn [extend_right]; [done|].
  destruct (_ && _) eqn:Hc; [|done].
  apply andb_prop in Hc as [Hc _]. apply andb_prop in Hc as [Hc _].
  apply andb_prop in Hc as [Ha Hb]. apply bool_decide_eq_true in Ha, Hb.
  apply IH. unfold block_in in *. cbn [fst snd] in *. lia.
Qed.

(** The block that [find_longest_match] returns lies inside the region. *)
Lemma find_longest_match_in alo ahi blo bhi :
  alo ≤ ahi → blo ≤ bhi →
  block_in alo ahi blo bhi (find_longest_match a b b2j alo ahi blo bhi).
Proof.
  intros Ha Hb. unfold find_longest_match, scan_rows.
  destruct (scan_prefix_in alo ahi blo bhi (ahi - alo)) as [_ Hbest]; [done | lia |].
  replace (alo + (ahi - alo)) with ahi in Hbest by lia.
  destruct (foldl _ _ _) as [j2len [[bi bj] bs]]. cbn [snd] in *.
  pose proof (extend_left_in false alo ahi blo bhi bi bj bs Hbest) as H1.
  destruct (extend_left a b false alo blo bi bj bs) as [[bi1 bj1] bs1].
  pose proof (extend_right_in false alo ahi blo bhi bi1 bj1
                (ahi - (bi1 + bs1)) bs1 H1) as H2.
  pose proof (extend_left_in true alo ahi blo bhi bi1 bj1 _ H2) as H3.
  destruct (extend_left a b true alo blo bi1 bj1 _) as [[bi2 bj2] bs2].
  apply extend_right_in, H3.
Qed.

Lemma queue_weight_cons alo ahi blo bhi queue :
  queue_weight ((alo, ahi, blo, bhi) :: queue)
  = 2 * (ahi - alo) + 1 + queue_weight queue.
Proof. reflexivity. Qed.

(** The loop of [get_matching_blocks] ends before its fuel does. *)
Lemma match_regions_total fuel : ∀ queue blocks,
  Forall region_ok queue → queue_weight queue ≤ fuel →
  is_Some (match_regions fuel a b b2j queue blocks).
Proof.
  induction fuel as [|fuel IH]; intros queue blocks Hok Hw;
    (destruct queue as [|[[[alo ahi] blo] bhi] queue]; [by eexists|]);
    rewrite queue_weight_cons in Hw; [lia|].
  apply Forall_cons in Hok as [[Ha Hb] Hok]. cbn [fst snd] in Ha, Hb.
  cbn [match_regions].
  pose proof (find_longest_match_in alo ahi blo bhi Ha Hb) as Hin.
  destruct (find_longest_match a b b2j alo ahi blo bhi) as [[i j] k].
  destruct Hin as (Hi1 & Hi2 & Hj1 & Hj2). cbn [fst snd] in *.
  case_bool_decide as Hk; [|apply IH; [done | lia]].
  apply IH.
  - repeat case_bool_decide; cbn [andb]; repeat apply Forall_cons_2;
      try done; split; cbn [fst snd]; lia.
  - repeat case_bool_decide; cbn [andb]; rewrite ?queue_weight_cons; lia.
Qed.

End bounds.

Lemma ratio_total a b : is_Some (ratio a b).
Proof.
  unfold ratio, get_matching_blocks.
  destruct (match_regions_total a b (chain_b b) (2 * length a + 1)
              [(0, length a, 0, length b)] []) as [blocks ->].
  - apply Forall_singleton. split; cbn; lia.
  - unfold queue_weight. cbn. lia.
  - cbn [mbind option_bind].
    destruct (foldl collapse_step _ _) as [[[i1 j1] k1] non_adjacent].
    by eexists.
Qed.

End DifflibFacts.

(** Claim C6, amended.  The similarity of a name with itself is 1, for
    every name, and every pair of names has a similarity.  The similarity
    is not symmetric: it is 20/25 for ["ALAN WILLIAMS"] against
    ["LEA WILLIAMS"] and 22/25 the other way round. *)
Theorem name_similarity_self :
  (∀ x : string, ∃ q, name_similarity x x = Some q ∧ Qeq q 1) ∧
  (∀ a b : string, is_Some (name_similarity a b)) ∧
  name_similarity "ALAN WILLIAMS" "LEA WILLIAMS" = Some (20 # 25)%Q ∧
  name_similarity "LEA WILLIAMS" "ALAN WILLIAMS" = Some (22 # 25)%Q.
Proof.
  split_and!.
  - intros x. apply DifflibFacts.ratio_self.
  - intros a b. apply DifflibFacts.ratio_total.
  - vm_compute. reflexivity.
  - vm_compute. reflexivity.
Qed.

(** Claim C6 as stated fails: the ratio of ["ALAN WILLIAMS"] against
    ["LEA WILLIAMS"] is 20/25 and the ratio the other way round is 22/25. *)
Lemma name_similarity_not_symmetric :
  ¬ (∀ a b : string, name_similarity a b = name_similarity b a).
Proof.
  intros H. specialize (H "ALAN WILLIAMS" "LEA WILLIAMS").
  vm_compute in H. discriminate H.
Qed.

(** ** Name functions *)

Section char_facts.

Lemma upper_char_idemp c : upper_char (upper_char c) = upper_char c.
Proof. destruct c as [[] [] [] [] [] [] [] []]; vm_compute; reflexivity. Qed.






Lemma all_chars_app P s1 s2 :
  all_chars P (s1 ++ s2) = all_chars P s1 && all_chars P s2.
Proof.
  induction s1 as [|c s1 IH]; [done|].
  rewrite string_app_cons. cbn [all_chars]. by rewrite IH, andb_assoc.
Qed.

Lemma all_chars_impl (P Q : ascii → bool) s :
  (∀ c, P c = true → Q c = true) → all_chars P s = true → all_chars Q s = true.
Proof.
  intros H. induction s as [|c s IH]; [done|]. cbn [all_chars].
  intros [Hc Hs]%andb_prop. by rewrite (H c Hc), IH.
Qed.

Lemma all_chars_map_chars P f s :
  all_chars P (map_chars f s) = all_chars (λ c, P (f c)) s.
Proof. induction s as [|c s IH]; [done|]. cbn [map_chars all_chars]. by rewrite IH. Qed.

Lemma all_chars_true P s : (∀ c, P c = true) → all_chars P s = true.
Proof. intros H. induction s as [|c s IH]; [done|]. cbn [all_chars]. by rewrite H, IH. Qed.

Lemma upper_all_upper s : all_chars is_upper_char (upper s) = true.
Proof.
  unfold upper. rewrite all_chars_map_chars. apply all_chars_true. intros c.
  apply bool_decide_eq_true_2, upper_char_idemp.
Qed.

Lemma upper_fixed s : all_chars is_upper_char s = true → upper s = s.
Proof.
  induction s as [|c s IH]; [done|]. cbn [all_chars].
  intros [Hc Hs]%andb_prop. apply bool_decide_eq_true in Hc.
  unfold upper in *. cbn [map_chars]. by rewrite Hc, IH.
Qed.

End char_facts.

Section token_facts.

Lemma replace_comma_map s : replace "," " " s = map_chars comma_to_space s.
Proof.
  unfold replace. induction s as [|c s IH]; [done|].
  cbn [replace_go map_chars]. rewrite prefix_comma.
  change (String.length "," - 1)%nat with 0%nat. rewrite IH.
  unfold comma_to_space. by case_bool_decide.
Qed.

(** The characters of the string that [normalize_name] splits. *)
Lemma name_chars name :
  all_chars (λ c, isspace c || is_token_char c) (replace "," " " (upper name)) = true.
Proof.
  rewrite replace_comma_map. unfold upper. rewrite all_chars_map_chars, all_chars_map_chars.
  apply all_chars_true. intros c. unfold comma_to_space, is_token_char, is_upper_char.
  case_bool_decide as Hc; [done|].
  rewrite (bool_decide_eq_false_2 _ Hc), (bool_decide_eq_true_2 _ (upper_char_idemp c)).
  by destruct (isspace (upper_char c)).
Qed.

Lemma split_ws_go_pieces P cur s :
  all_chars P cur = true →
  all_chars (λ c, isspace c || P c) s = true →
  (∀ c, P c = true → isspace c = false) →
  Forall (λ t, t ≠ "" ∧ all_chars P t = true) (split_ws_go cur s).
Proof.
  intros Hcur Hs HP. revert cur Hcur.
  induction s as [|c s IH]; intros cur Hcur; cbn [split_ws_go].
  { case_decide; [constructor | by repeat constructor]. }
  cbn [all_chars] in Hs. apply andb_prop in Hs as [Hc Hs].
  destruct (isspace c) eqn:Hsp.
  - apply Forall_app. split; [|by apply IH].
    case_decide; [constructor | by repeat constructor].
  - apply IH; [done|]. rewrite all_chars_app, Hcur. cbn [all_chars orb] in *.
    by rewrite Hc.
Qed.

Lemma cleaned_tokens_are_tokens name : Forall is_token (cleaned_tokens name).
Proof.
  unfold cleaned_tokens. apply Forall_forall. intros t [Hp Ht]%list_elem_of_filter.
  assert (∀ c, is_token_char c = true → isspace c = false) as Hsp.
  { intros c. unfold is_token_char. by destruct (isspace c). }
  pose proof (split_ws_go_pieces is_token_char "" (replace "," " " (upper name))
                eq_refl (name_chars name) Hsp) as Hall.
  rewrite Forall_forall in Hall. by destruct (Hall t Ht) as [Hne Hch].
Qed.

(** Splitting what [join] put together. *)
Lemma split_ws_go_token cur t rest :
  all_chars (λ c, negb (isspace c)) t = true →
  split_ws_go cur (t ++ rest) = split_ws_go (cur ++ t) rest.
Proof.
  revert cur. induction t as [|c t IH]; intros cur Ht.
  { by rewrite string_app_empty_r. }
  cbn [all_chars] in Ht. apply andb_prop in Ht as [Hc Ht].
  rewrite string_app_cons. cbn [split_ws_go].
  apply negb_true_iff in Hc. rewrite Hc, IH by done.
  by rewrite string_app_assoc.
Qed.

Lemma split_ws_join l :
  Forall (λ t, t ≠ "" ∧ all_chars (λ c, negb (isspace c)) t = true) l →
  split_ws (join " " l) = l.
Proof.
  unfold split_ws, join. induction 1 as [|t l [Hne Ht] Hl IH]; [done|].
  destruct l as [|t' l].
  - cbn [String.concat].
    replace (split_ws_go "" t) with (split_ws_go "" (t ++ ""))
      by (by rewrite string_app_empty_r).
    rewrite split_ws_go_token by done.
    cbn [split_ws_go]. by rewrite decide_False.
  - change (String.concat " " (t :: t' :: l)) with (t ++ String " " (String.concat " " (t' :: l))).
    rewrite split_ws_go_token by done. cbn [split_ws_go].
    change (isspace " ") with true. cbn match.
    rewrite decide_False by done. by rewrite IH.
Qed.

Lemma all_chars_join P l :
  P " "%char = true → Forall (λ t, all_chars P t = true) l →
  all_chars P (join " " l) = true.
Proof.
  intros Hsp. unfold join. induction 1 as [|t l Ht Hl IH]; [done|].
  destruct l as [|t' l]; [done|].
  change (String.concat " " (t :: t' :: l)) with (t ++ String " " (String.concat " " (t' :: l))).
  rewrite all_chars_app, Ht. cbn [all_chars andb]. by rewrite Hsp, IH.
Qed.

Lemma contains_comma_chars s :
  all_chars (λ c, negb (bool_decide (c = ","%char))) s = true →
  contains "," s = false.
Proof.
  induction s as [|c s IH]; [done|]. cbn [all_chars].
  intros [Hc Hs]%andb_prop. rewrite contains_comma_cons, IH by done.
  apply negb_true_iff in Hc. by rewrite Hc.
Qed.

Lemma sorted_sorted l : sorted (sorted l) = sorted l.
Proof. apply sorted_perm. unfold sorted. apply merge_sort_Permutation. Qed.

Lemma join_empty l :
  Forall (λ t : string, t ≠ "") l → join " " l = "" → l = [].
Proof.
  intros Hl. destruct l as [|t l]; [done|].
  apply Forall_cons in Hl as [Ht _]. unfold join.
  destruct l as [|t' l]; [done|].
  change (String.concat " " (t :: t' :: l)) with (t ++ String " " (String.concat " " (t' :: l))).
  by destruct t.
Qed.

End token_facts.

Lemma sorted_tokens name : Forall is_token (sorted (cleaned_tokens name)).
Proof. unfold sorted. rewrite merge_sort_Permutation. apply cleaned_tokens_are_tokens. Qed.

Lemma normalize_name_empty name :
  normalize_name name = "" ↔ cleaned_tokens name = [].
Proof.
  unfold normalize_name. fold (cleaned_tokens name). split.
  - intros Hk%join_empty.
    + apply Permutation_nil_r. rewrite <-Hk. unfold sorted.
      by rewrite merge_sort_Permutation.
    + eapply Forall_impl; [apply sorted_tokens|]. by intros t [? _].
  - by intros ->.
Qed.

(** Property X1.  The key of a name is a fixed point of [normalize_name]. *)
Theorem normalize_name_idempotent (name : string) :
  normalize_name (normalize_name name) = normalize_name name.
Proof.
  unfold normalize_name. fold (cleaned_tokens name).
  pose proof (sorted_tokens name) as Hsorted.
  set (k := sorted (cleaned_tokens name)) in *.
  rewrite upper_fixed.
  2:{ apply all_chars_join; [done|]. eapply Forall_impl; [exact Hsorted|].
      intros t (_ & Hch & _). eapply all_chars_impl; [|exact Hch].
      unfold is_token_char. intros c. by intros [_ ?]%andb_prop. }
  rewrite replace_absent.
  2:{ apply contains_comma_chars, all_chars_join; [done|].
      eapply Forall_impl; [exact Hsorted|].
      intros t (_ & Hch & _). eapply all_chars_impl; [|exact Hch].
      unfold is_token_char. intros c. by intros [[_ ?]%andb_prop _]%andb_prop. }
  rewrite split_ws_join.
  2:{ eapply Forall_impl; [exact Hsorted|]. intros t (Hne & Hch & _). split; [done|].
      eapply all_chars_impl; [|exact Hch]. unfold is_token_char. intros c.
      by destruct (isspace c). }
  f_equal.
  assert (filter (λ p, p ∉ prefixes) k = k) as ->.
  { clear -Hsorted. induction Hsorted as [|t l (_ & _ & Hp) Hl IH]; [done|].
    by rewrite filter_cons_True, IH. }
  apply sorted_sorted.
Qed.

Section strip_facts.

Lemma rstrip_idemp s : rstrip (rstrip s) = rstrip s.
Proof.
  induction s as [|c s IH]; [done|]. cbn [rstrip].
  destruct (rstrip s) as [|d r] eqn:Hr.
  - destruct (isspace c) eqn:Hc; [done|]. cbn [rstrip]. by rewrite Hc.
  - cbn [rstrip]. cbn [rstrip] in IH. by rewrite IH.
Qed.

Lemma lstrip_rstrip_lstrip s : lstrip (rstrip (lstrip s)) = rstrip (lstrip s).
Proof.
  induction s as [|c s IH]; [done|]. cbn [lstrip].
  destruct (isspace c) eqn:Hc; [done|]. cbn [rstrip].
  destruct (rstrip s) as [|d r]; rewrite ?Hc; cbn [lstrip]; by rewrite Hc.
Qed.

Lemma strip_idemp s : strip (strip s) = strip s.
Proof. unfold strip. by rewrite lstrip_rstrip_lstrip, rstrip_idemp. Qed.

Lemma all_chars_lstrip P s : all_chars P s = true → all_chars P (lstrip s) = true.
Proof.
  induction s as [|c s IH]; [done|]. cbn [lstrip].
  destruct (isspace c); [|done]. cbn [all_chars]. by intros [_ ?]%andb_prop; apply IH.
Qed.

Lemma all_chars_rstrip P s : all_chars P s = true → all_chars P (rstrip s) = true.
Proof.
  induction s as [|c s IH]; [done|]. cbn [all_chars rstrip].
  intros [Hc Hs]%andb_prop. specialize (IH Hs).
  destruct (rstrip s) as [|d r].
  - destruct (isspace c); [done|]. cbn [all_chars]. by rewrite Hc.
  - cbn [all_chars] in *. by rewrite Hc, IH.
Qed.

Lemma all_chars_strip P s : all_chars P s = true → all_chars P (strip s) = true.
Proof. intros H. by apply all_chars_rstrip, all_chars_lstrip. Qed.

Lemma all_chars_replace_delete P old s : ∀ skip,
  all_chars P s = true → all_chars P (replace_go old "" skip s) = true.
Proof.
  induction s as [|c s IH]; intros skip; [done|]. cbn [all_chars replace_go].
  intros [Hc Hs]%andb_prop. destruct skip; [|by apply IH].
  destruct (String.prefix old (String c s)).
  - change ("" ++ ?x) with x. by apply IH.
  - cbn [all_chars]. by rewrite Hc, IH.
Qed.

Lemma all_chars_split_go P sep s : ∀ skip cur,
  all_chars P cur = true → all_chars P s = true →
  Forall (λ t, all_chars P t = true) (split_go sep skip cur s).
Proof.
  induction s as [|c s IH]; intros skip cur Hcur; cbn [all_chars split_go].
  { by repeat constructor. }
  intros [Hc Hs]%andb_prop. destruct skip; [|by apply IH].
  destruct (String.prefix sep (String c s)).
  - constructor; [done | by apply IH].
  - apply IH; [|done]. rewrite all_chars_app, Hcur. cbn [all_chars]. by rewrite Hc.
Qed.

End strip_facts.

(** Property X2.  The display name has no white space at either end and is
    in upper case. *)
Theorem format_name_stripped_upper (name : string) :
  strip (format_name_proper_order name) = format_name_proper_order name ∧
  upper (format_name_proper_order name) = format_name_proper_order name.
Proof.
  assert (all_chars is_upper_char (foldl strip_prefix (upper name) prefixes) = true)
    as Hup.
  { generalize (upper_all_upper name). generalize (upper name). generalize prefixes.
    intros ps. induction ps as [|p ps IH]; intros u Hu; [done|].
    cbn [foldl]. apply IH. unfold strip_prefix, replace.
    by do 2 apply all_chars_replace_delete. }
  unfold format_name_proper_order.
  set (name_upper := foldl strip_prefix (upper name) prefixes) in *.
  pose proof (all_chars_split_go is_upper_char "," name_upper 0%nat "" eq_refl Hup)
    as Hparts.
  fold (split "," name_upper) in Hparts.
  destruct (contains "," name_upper).
  - destruct (split "," name_upper) as [|surname [|forenames [|? ?]]];
      cbn [fmap list_fmap]; try (split; [apply strip_idemp|];
        by apply upper_fixed, all_chars_strip).
    split; [apply strip_idemp|]. apply upper_fixed, all_chars_strip.
    apply Forall_cons in Hparts as [Hs Hparts].
    apply Forall_cons in Hparts as [Hf _].
    rewrite !all_chars_app, !all_chars_strip by done. done.
  - split; [apply strip_idemp|]. by apply upper_fixed, all_chars_strip.
Qed.


(** Property X4.  [extract_first_last] gives the first and the last token of
    the cleaned name, which are tokens without white space or comma and no
    honorific prefixes; both are empty exactly when no token is left, which
    is when the identity key of the name is empty. *)
Theorem extract_first_last_tokens (name : string) :
  head (cleaned_tokens name) = (if decide (cleaned_tokens name = []) then None
                                else Some (extract_first_last name).1) ∧
  last (cleaned_tokens name) = (if decide (cleaned_tokens name = []) then None
                                else Some (extract_first_last name).2) ∧
  Forall is_token (cleaned_tokens name) ∧
  ((extract_first_last name).1 = "" ↔ normalize_name name = "") ∧
  ((extract_first_last name).2 = "" ↔ normalize_name name = "").
Proof.
  pose proof (cleaned_tokens_are_tokens name) as Hall.
  pose proof (normalize_name_empty name) as Hkey.
  unfold extract_first_last. fold (cleaned_tokens name).
  pose proof Hall as Htok. rewrite Forall_forall in Htok.
  destruct (cleaned_tokens name) as [|x [|y rest]] eqn:Hc.
  - rewrite decide_True by done. cbn [fst snd]. split_and!; try done.
    + split; [intros _; by apply Hkey | done].
    + split; [intros _; by apply Hkey | done].
  - rewrite decide_False by done. cbn [fst snd].
    assert (is_token x) as Hx by (apply Htok; left).
    split_and!; try done.
    + split; [intros ->; by destruct Hx | by intros ?%Hkey].
    + split; [intros ->; by destruct Hx | by intros ?%Hkey].
  - rewrite decide_False by done. cbn [fst snd].
    assert (last (x :: y :: rest) = Some (List.last (y :: rest) x)) as Hlast.
    { clear. generalize y. induction rest as [|z rest IH]; intros y'; [done|].
      change (last (x :: y' :: z :: rest)) with (last (x :: z :: rest)).
      rewrite IH. done. }
    assert (List.last (y :: rest) x ∈ x :: y :: rest) as Hin.
    { apply list_elem_of_lookup. rewrite last_lookup in Hlast. eauto. }
    assert (is_token x) as Hx by (apply Htok; left).
    pose proof (Htok _ Hin) as Hl.
    split_and!; try done.
    + split; [intros ->; by destruct Hx | by intros ?%Hkey].
    + split; [intros Heq | by intros ?%Hkey].
      rewrite Heq in Hl. by destruct Hl.
Qed.

Lemma prefix_tokens p :
  upper p ∈ prefixes → split_ws (replace "," " " (upper p)) = [upper p].
Proof.
  intros Hp. unfold prefixes in Hp.
  repeat (apply elem_of_cons in Hp as [-> | Hp]; [reflexivity|]).
  by apply elem_of_nil in Hp.
Qed.

(** Property X5.  An honorific prefix at the start or at the end of a name,
    in any case, does not change the identity key. *)
Theorem normalize_name_ignores_prefix (p name : string) :
  upper p ∈ prefixes →
  normalize_name (p ++ " " ++ name) = normalize_name name ∧
  normalize_name (name ++ " " ++ p) = normalize_name name ∧
  normalize_name (name ++ ", " ++ p) = normalize_name name.
Proof.
  intros Hp. unfold normalize_name.
  rewrite (name_parts_app p " " name " "), (name_parts_app name " " p " "),
    (name_parts_app name ", " p " ");
    [| by right | done | by left | done | by left | done].
  rewrite !filter_app, !prefix_tokens by done.
  rewrite filter_cons_False, filter_nil by (intros H; by apply H).
  by rewrite app_nil_r.
Qed.

Lemma normalize_name_ignores_prefix_witness :
  normalize_name ("Dr" ++ " " ++ "SMITH, John") = normalize_name "SMITH, John" ∧
  normalize_name ("SMITH, John" ++ " " ++ "Dr") = normalize_name "SMITH, John" ∧
  normalize_name ("SMITH, John" ++ ", " ++ "Dr") = normalize_name "SMITH, John".
Proof.
  apply (normalize_name_ignores_prefix "Dr" "SMITH, John").
  vm_compute. do 4 right. left.
Defined.

Section split_facts.

Lemma length_app_string (s1 s2 : string) :
  String.length (s1 ++ s2) = (String.length s1 + String.length s2)%nat.
Proof. induction s1 as [|c s1 IH]; [done|]. rewrite string_app_cons. cbn. by rewrite IH. Qed.

(** The characters of a matched separator are passed over. *)
Lemma split_go_skip sep s1 : ∀ cur s2,
  split_go sep (String.length s1) cur (s1 ++ s2) = split_go sep 0 cur s2.
Proof.
  induction s1 as [|c s1 IH]; intros cur s2; [done|].
  rewrite string_app_cons. cbn [String.length split_go]. apply IH.
Qed.

Lemma prefix_app sep s : String.prefix sep (sep ++ s) = true.
Proof.
  induction sep as [|c sep IH]; [apply prefix_empty|].
  rewrite string_app_cons, prefix_cons, IH. by rewrite bool_decide_eq_true_2.
Qed.

(** A string that starts with the separator. *)
Lemma split_go_sep c sep cur s :
  split_go (String c sep) 0 cur (String c sep ++ s)
  = cur :: split_go (String c sep) 0 "" s.
Proof.
  rewrite string_app_cons. cbn [split_go].
  rewrite prefix_cons, prefix_app, bool_decide_eq_true_2 by done.
  cbn [andb String.length Nat.sub]. rewrite ?Nat.sub_0_r. by rewrite split_go_skip.
Qed.

(** Characters other than the first of the separator go to the piece. *)
Lemma split_go_piece c sep t : ∀ cur s,
  all_chars (λ d, negb (bool_decide (d = c))) t = true →
  split_go (String c sep) 0 cur (t ++ s) = split_go (String c sep) 0 (cur ++ t) s.
Proof.
  induction t as [|d t IH]; intros cur s Ht.
  { by rewrite string_app_empty_r. }
  cbn [all_chars] in Ht. apply andb_prop in Ht as [Hd Ht].
  apply negb_true_iff, bool_decide_eq_false in Hd.
  rewrite string_app_cons. cbn [split_go]. rewrite prefix_cons.
  rewrite bool_decide_eq_false_2 by congruence. cbn [andb].
  rewrite IH by done. by rewrite string_app_assoc.
Qed.

(** The first piece starts with what has been read. *)
Lemma split_go_head sep s : ∀ skip cur,
  ∃ t l, split_go sep skip cur s = (cur ++ t) :: l.
Proof.
  induction s as [|c s IH]; intros skip cur; cbn [split_go].
  { exists "", []. by rewrite string_app_empty_r. }
  destruct skip; [|apply IH].
  destruct (String.prefix sep (String c s)).
  - exists "", (split_go sep (String.length sep - 1) "" s). by rewrite string_app_empty_r.
  - destruct (IH 0%nat (cur ++ String c "")) as (t & l & ->).
    exists (String c t), l. by rewrite string_app_assoc.
Qed.

End split_facts.

Section link_facts.

Lemma contains_officers_app (s : string) :
  contains "/officers/" ("/officers/" ++ s) = true.
Proof.
  change ("/officers/" ++ s) with (String "/" ("officers/" ++ s)).
  cbn [contains]. change (String "/" ("officers/" ++ s)) with ("/officers/" ++ s).
  by rewrite prefix_app.
Qed.

(** The id is read back from what follows [/officers/], up to the next
    [/] or the end of the link. *)
Lemma officer_id_of_link_tail (oid tail : string) :
  all_chars (λ c, negb (bool_decide (c = "/"%char))) oid = true →
  (tail = "" ∨ ∃ r, tail = String "/" r) →
  officer_id_of_link ("/officers/" ++ oid ++ tail) = oid.
Proof.
  intros Hid Htail.
  assert (∀ t, (t = "" ∨ ∃ t', t = String "/" t') →
               default "" (split_go "/" 0 "" (oid ++ t) !! 0%nat) = oid) as Hfirst.
  { intros t Ht. rewrite (split_go_piece "/" "" oid "" t) by done.
    destruct Ht as [-> | [t' ->]]; [done|].
    change (String "/" t') with ("/" ++ t'). by rewrite split_go_sep. }
  unfold officer_id_of_link, split.
  rewrite (split_go_sep "/" "officers/" "" (oid ++ tail)).
  cbn [lookup list_lookup].
  rewrite (split_go_piece "/" "officers/" oid "" tail) by done.
  change ("" ++ oid) with oid.
  destruct Htail as [-> | [r ->]].
  - cbn [split_go lookup list_lookup from_option id].
    rewrite <-(string_app_empty_r oid) at 1. apply Hfirst. by left.
  - destruct (split_go_head "/officers/" (String "/" r) 0 oid) as (t & l & Heq).
    rewrite Heq. cbn [lookup list_lookup from_option id].
    apply Hfirst.
    (* what follows the id in the first piece is empty or starts with "/" *)
    cbn [split_go] in Heq. destruct (String.prefix "/officers/" (String "/" r)).
    + injection Heq as Heq _. left.
      apply (f_equal String.length) in Heq.
      rewrite length_app_string in Heq. destruct t; [done | cbn in Heq; lia].
    + destruct (split_go_head "/officers/" r 0 (oid ++ "/")) as (t' & l' & Heq').
      rewrite Heq' in Heq. injection Heq as Heq _.
      rewrite string_app_assoc in Heq. apply String.app_inj in Heq.
      right. exists t'. by rewrite <-Heq.
Qed.

End link_facts.

(** Property X6.  The officer id is read back from a link of the form
    [/officers/{id}], alone or followed by a further path. *)
Theorem officer_id_of_link_round_trip (oid rest : string) :
  all_chars (λ c, negb (bool_decide (c = "/"%char))) oid = true →
  contains "/officers/" ("/officers/" ++ oid) = true ∧
  officer_id_of_link ("/officers/" ++ oid) = oid ∧
  contains "/officers/" ("/officers/" ++ oid ++ "/" ++ rest) = true ∧
  officer_id_of_link ("/officers/" ++ oid ++ "/" ++ rest) = oid.
Proof.
  intros Hid.
  split_and!; [apply contains_officers_app | | apply contains_officers_app |].
  - rewrite <-(string_app_empty_r oid) at 1. apply officer_id_of_link_tail; [done|]. by left.
  - change (oid ++ "/" ++ rest) with (oid ++ String "/" rest).
    apply officer_id_of_link_tail; [done|]. eauto.
Qed.

Lemma officer_id_of_link_round_trip_witness :
  contains "/officers/" ("/officers/" ++ "xyz789") = true ∧
  officer_id_of_link ("/officers/" ++ "xyz789") = "xyz789" ∧
  contains "/officers/" ("/officers/" ++ "xyz789" ++ "/" ++ "appointments") = true ∧
  officer_id_of_link ("/officers/" ++ "xyz789" ++ "/" ++ "appointments") = "xyz789".
Proof. apply (officer_id_of_link_round_trip "xyz789" "appointments"). reflexivity. Defined.

(** ** Registry client and fetchers *)

Section client_retry.
Context {J : Type}.
Variable transport : nat → string → option params_t → result (response J).

Lemma api_call_429 frames endpoint params n r :
  transport n endpoint params = Ok r → status_code r = 429%Z →
  api_call transport frames endpoint params n
  = match frames with
    | O => (Ok None, S n)
    | S frames' => api_call transport frames' endpoint params (S n)
    end.
Proof. intros Ht Hs. by rewrite api_call_unfold, Ht, Hs. Qed.

(** The requests of one call: at least one, and every request before
    the last was answered with status 429. *)
Lemma api_call_requests frames endpoint params : ∀ n,
  (n < (api_call transport frames endpoint params n).2
     ≤ n + frames + 1)%nat ∧
  ∀ i, (n ≤ i)%nat → (S i < (api_call transport frames endpoint params n).2)%nat →
       ∃ r, transport i endpoint params = Ok r ∧ status_code r = 429%Z.
Proof.
  induction frames as [|frames IH]; intros n; rewrite api_call_unfold;
    destruct (transport n endpoint params) as [r|e] eqn:Ht;
    try (cbn; split; [lia | intros; lia]);
    (destruct (status_code r =? 200)%Z eqn:H200;
     [ destruct (json r); cbn; (split; [lia | intros; lia]) |];
     destruct (bool_decide (status_code r ∈ [404; 416]%Z));
     [ cbn; split; [lia | intros; lia] |];
     destruct (status_code r =? 429)%Z eqn:H429;
     [| cbn; split; [lia | intros; lia] ]).
  - cbn; split; [lia | intros; lia].
  - destruct (IH (S n)) as [Hb H429s]. split; [lia|].
    intros i Hi Hlt. destruct (decide (i = n)) as [->|Hne].
    + exists r. split; [done|]. by apply Z.eqb_eq.
    + apply H429s; [lia | done].
Qed.

End client_retry.

(** Property X7.  A request answered with status 429 is sent again: after
    [m] such answers in a row the call goes on as a call at the next request
    with [m] frames fewer; when the answers are 429 down to the recursion
    limit the call returns [None] after [frames + 1] requests. *)
Theorem api_call_retries_on_429 {J : Type}
    (transport : nat → string → option params_t → result (response J))
    (frames m : nat) (endpoint : string) (params : option params_t) (n : nat) :
  (∀ i, (i < m)%nat →
        ∃ r, transport (n + i)%nat endpoint params = Ok r ∧ status_code r = 429%Z) →
  ((m ≤ frames)%nat →
   api_call transport frames endpoint params n
   = api_call transport (frames - m) endpoint params (n + m)%nat) ∧
  ((frames < m)%nat →
   api_call transport frames endpoint params n = (Ok None, (n + frames + 1)%nat)).
Proof.
  revert frames n. induction m as [|m IH]; intros frames n H429.
  { split; [|lia]. intros _. by rewrite Nat.sub_0_r, Nat.add_0_r. }
  destruct (H429 0%nat) as (r & Ht & Hs); [lia|]. rewrite Nat.add_0_r in Ht.
  rewrite (api_call_429 transport frames endpoint params n r Ht Hs).
  destruct frames as [|frames].
  { split; [lia|]. intros _. f_equal. lia. }
  destruct (IH frames (S n)) as [Hle Hgt].
  { intros i Hi. destruct (H429 (S i)) as (r' & Ht' & Hs'); [lia|].
    exists r'. split; [|done]. rewrite <-Ht'. f_equal. lia. }
  split.
  - intros Hm. rewrite Hle by lia. cbn [Nat.sub]. f_equal. lia.
  - intros Hm. rewrite Hgt by lia. f_equal. lia.
Qed.

Lemma api_call_retries_on_429_witness :
  api_call transport_busy 5 "/company/111" None 0
  = api_call transport_busy (5 - 2) "/company/111" None (0 + 2)%nat.
Proof.
  apply (api_call_retries_on_429 transport_busy 5 2 "/company/111" None 0).
  - intros i Hi. exists (Response 429 (Raise JSONDecodeError)).
    split; [|reflexivity]. unfold transport_busy.
    rewrite bool_decide_eq_true_2 by lia. reflexivity.
  - lia.
Defined.

(** Property X8.  Every call sends at least one request and at most [frames
    + 1], and every request but the last was answered with status 429. *)
Theorem api_call_request_count {J : Type}
    (transport : nat → string → option params_t → result (response J))
    (frames : nat) (endpoint : string) (params : option params_t) (n : nat) :
  (n < (api_call transport frames endpoint params n).2 ≤ n + frames + 1)%nat ∧
  ∀ i, (n ≤ i)%nat → (S i < (api_call transport frames endpoint params n).2)%nat →
       ∃ r, transport i endpoint params = Ok r ∧ status_code r = 429%Z.
Proof. apply api_call_requests. Qed.

Section appointments_facts.
Variable transport :
  nat → string → option params_t → result (response (Listing.t appointment)).
Variable frames : nat.
Variable oid : string.

Lemma appointments_loop_page fuel start appointments n its tot :
  transport n ("/officers/" ++ oid ++ "/appointments")
    (Some [("items_per_page", PInt 50); ("start_index", PInt start)])
  = Ok (Response 200 (Ok (Some (Listing.Make (Some its) tot)))) →
  get_all_appointments_loop frames transport (S fuel) oid start appointments n
  = if bool_decide (length its < 50)%nat || bool_decide (default 0 tot ≤ start + 50)%Z
    then (Ok (Some (appointments ++ its)%list), S n)
    else get_all_appointments_loop frames transport fuel oid (start + 50)
           (appointments ++ its)%list (S n).
Proof.
  intros Ht. cbn [get_all_appointments_loop]. unfold bind at 1.
  rewrite api_call_unfold, Ht. cbn [status_code json Z.eqb Pos.eqb Listing.items
    Listing.total_results].
  by destruct (_ || _).
Qed.

Lemma appointments_loop_fail fuel start appointments n :
  api_call transport frames ("/officers/" ++ oid ++ "/appointments")
    (Some [("items_per_page", PInt 50); ("start_index", PInt start)]) n
  = (Ok None, S n) →
  get_all_appointments_loop frames transport (S fuel) oid start appointments n
  = (Ok (Some appointments), S n).
Proof.
  intros Hc. cbn [get_all_appointments_loop]. unfold bind at 1. by rewrite Hc.
Qed.

Section served.
Variable L : list appointment.
Variable stop : nat.
Hypothesis Hserved : ∀ k start, (k < stop)%nat →
  transport k ("/officers/" ++ oid ++ "/appointments")
    (Some [("items_per_page", PInt 50); ("start_index", PInt start)])
  = Ok (Response 200 (Ok (Some (Listing.Make
          (Some (take 50 (drop (Z.to_nat start) L)))
          (Some (Z.of_nat (length L))))))).

(** Reading the listing of [L] from page [k] on, as long as the
    registry serves it. *)
Lemma appointments_loop_served fuel : ∀ k n,
  (length L ≤ 50 * (k + fuel))%nat → (0 < fuel)%nat →
  (n + Nat.max 1 ((length L + 49) / 50 - k) ≤ stop)%nat →
  get_all_appointments_loop frames transport fuel oid (Z.of_nat (50 * k))
    (take (50 * k) L) n
  = (Ok (Some L), (n + Nat.max 1 ((length L + 49) / 50 - k))%nat).
Proof.
  induction fuel as [|fuel IH]; intros k n Hlen Hfuel Hstop; [lia|].
  rewrite (appointments_loop_page _ _ _ _ _ _ (Hserved n _ ltac:(lia))).
  rewrite Nat2Z.id, take_take_drop. cbn [from_option id]. unfold id.
  destruct (decide (length L ≤ 50 * k + 50)%nat) as [Hle|Hgt].
  - replace (bool_decide (Z.of_nat (length L) ≤ Z.of_nat (50 * k) + 50)%Z) with true
      by (symmetry; apply bool_decide_eq_true_2; lia).
    rewrite orb_true_r, take_ge by lia. f_equal.
    assert ((length L + 49) / 50 < k + 2)%nat by (apply Nat.Div0.div_lt_upper_bound; lia).
    lia.
  - rewrite bool_decide_eq_false_2, bool_decide_eq_false_2.
    2:{ lia. }
    2:{ rewrite length_take, length_drop. lia. }
    cbn [orb].
    assert (k + 2 ≤ (length L + 49) / 50)%nat
      by (apply Nat.div_le_lower_bound; lia).
    replace (Z.of_nat (50 * k) + 50)%Z with (Z.of_nat (50 * S k)) by lia.
    replace (50 * k + 50)%nat with (50 * S k)%nat by lia.
    rewrite IH by lia. f_equal. lia.
Qed.

(** The listing is cut at the first page that fails. *)
Lemma appointments_loop_cut j : ∀ fuel k n,
  stop = (n + j)%nat → (j < fuel)%nat →
  (50 * (k + j) < length L)%nat →
  api_call transport frames ("/officers/" ++ oid ++ "/appointments")
    (Some [("items_per_page", PInt 50);
           ("start_index", PInt (Z.of_nat (50 * (k + j))))]) stop
  = (Ok None, S stop) →
  get_all_appointments_loop frames transport fuel oid (Z.of_nat (50 * k))
    (take (50 * k) L) n
  = (Ok (Some (take (50 * (k + j)) L)), S stop).
Proof.
  induction j as [|j IH]; intros fuel k n -> Hfuel Hlen Hfail.
  - destruct fuel as [|fuel]; [lia|].
    replace (n + 0)%nat with n in * by lia. replace (k + 0)%nat with k in * by lia.
    by apply appointments_loop_fail.
  - destruct fuel as [|fuel]; [lia|].
    rewrite (appointments_loop_page _ _ _ _ _ _ (Hserved n _ ltac:(lia))).
    rewrite Nat2Z.id, take_take_drop. cbn [from_option id]. unfold id.
    rewrite bool_decide_eq_false_2, bool_decide_eq_false_2.
    2:{ lia. }
    2:{ rewrite length_take, length_drop. lia. }
    cbn [orb].
    replace (Z.of_nat (50 * k) + 50)%Z with (Z.of_nat (50 * S k)) by lia.
    replace (50 * k + 50)%nat with (50 * S k)%nat by lia.
    rewrite (IH fuel (S k) (S n)).
    + replace (S k + j)%nat with (k + S j)%nat by lia.
      replace (S n + j)%nat with (n + S j)%nat by lia. done.
    + lia.
    + lia.
    + lia.
    + replace (S k + j)%nat with (k + S j)%nat by lia.
      replace (S n + j)%nat with (n + S j)%nat by lia. done.
Qed.

End served.
End appointments_facts.

(** Property X9.  Round trip of the pagination.  When the registry serves
    the appointments [L] of an officer in pages of 50 from the requested
    start index and reports the true total, [get_all_appointments] returns
    [L] as it is, after one request per page (one request for an empty
    listing). *)
Theorem get_all_appointments_reads_listing
    (transport : nat → string → option params_t
                 → result (response (Listing.t appointment)))
    (frames fuel : nat) (oid : string) (L : list appointment) (n : nat) :
  (∀ k start,
     transport k ("/officers/" ++ oid ++ "/appointments")
       (Some [("items_per_page", PInt 50); ("start_index", PInt start)])
     = Ok (Response 200 (Ok (Some (Listing.Make
             (Some (take 50 (drop (Z.to_nat start) L)))
             (Some (Z.of_nat (length L)))))))) →
  (length L / 50 < fuel)%nat →
  get_all_appointments frames transport fuel oid n
  = (Ok (Some L), (n + Nat.max 1 ((length L + 49) / 50))%nat).
Proof.
  intros Hserved Hfuel. unfold get_all_appointments.
  assert (length L < 50 * fuel)%nat.
  { assert (length L < 50 * S (length L / 50))%nat
      by (apply Nat.mul_succ_div_gt; lia). nia. }
  pose proof (appointments_loop_served transport frames oid L
                (S (n + Nat.max 1 ((length L + 49) / 50)))
                (λ k start _, Hserved k start) fuel 0 n) as Hloop.
  rewrite Nat.sub_0_r in Hloop. apply Hloop; lia.
Qed.

Lemma get_all_appointments_reads_listing_witness :
  get_all_appointments 0 (transport_listing (replicate 120 acme_111)) 3 "abc123" 0
  = (Ok (Some (replicate 120 acme_111)),
     (0 + Nat.max 1 ((length (replicate 120 acme_111) + 49) / 50))%nat).
Proof.
  apply (get_all_appointments_reads_listing
           (transport_listing (replicate 120 acme_111)) 0 3 "abc123"
           (replicate 120 acme_111) 0).
  - intros k start. reflexivity.
  - vm_compute. lia.
Defined.

(** Property X10.  A page that cannot be read ends the loop without a trace:
    when the request for the page at index [j] fails in the transport or is
    answered with a status other than 200 and 429, the result is the first
    [50 * j] appointments, returned like a complete listing. *)
Theorem get_all_appointments_cut_at_failure
    (transport : nat → string → option params_t
                 → result (response (Listing.t appointment)))
    (frames fuel : nat) (oid : string) (L : list appointment) (n j : nat) :
  (∀ k start, (k < n + j)%nat →
     transport k ("/officers/" ++ oid ++ "/appointments")
       (Some [("items_per_page", PInt 50); ("start_index", PInt start)])
     = Ok (Response 200 (Ok (Some (Listing.Make
             (Some (take 50 (drop (Z.to_nat start) L)))
             (Some (Z.of_nat (length L)))))))) →
  match transport (n + j)%nat ("/officers/" ++ oid ++ "/appointments")
          (Some [("items_per_page", PInt 50);
                 ("start_index", PInt (Z.of_nat (50 * j)))]) with
  | Raise _ => True
  | Ok r => status_code r ≠ 200%Z ∧ status_code r ≠ 429%Z
  end →
  (50 * j < length L)%nat →
  (j < fuel)%nat →
  get_all_appointments frames transport fuel oid n
  = (Ok (Some (take (50 * j) L)), S (n + j)).
Proof.
  intros Hserved Hfail Hlen Hfuel. unfold get_all_appointments.
  apply (appointments_loop_cut transport frames oid L (n + j) Hserved j fuel 0 n);
    [done | done | by rewrite Nat.add_0_l |].
  rewrite Nat.add_0_l, api_call_unfold.
  destruct (transport _ _ _) as [r|e]; [|done].
  destruct Hfail as [H200%Z.eqb_neq H429%Z.eqb_neq]. rewrite H200, H429.
  by destruct (bool_decide _).
Qed.

Lemma get_all_appointments_cut_at_failure_witness :
  get_all_appointments 0 (transport_listing_cut (replicate 120 acme_111) 1) 3 "abc123" 0
  = (Ok (Some (take (50 * 1) (replicate 120 acme_111))), S (0 + 1)).
Proof.
  apply (get_all_appointments_cut_at_failure
           (transport_listing_cut (replicate 120 acme_111) 1) 0 3 "abc123"
           (replicate 120 acme_111) 0 1).
  - intros k start Hk. unfold transport_listing_cut.
    rewrite bool_decide_eq_true_2 by lia. reflexivity.
  - vm_compute. exact I.
  - vm_compute. lia.
  - lia.
Defined.

Section endless.
Variable transport :
  nat → string → option params_t → result (response (Listing.t appointment)).
Variable frames : nat.
Variable oid : string.
Hypothesis Hfull : ∀ k start, ∃ its tot,
  transport k ("/officers/" ++ oid ++ "/appointments")
    (Some [("items_per_page", PInt 50); ("start_index", PInt start)])
  = Ok (Response 200 (Ok (Some (Listing.Make (Some its) tot)))) ∧
  length its = 50%nat ∧ (start + 50 < default 0 tot)%Z.

Lemma appointments_loop_endless fuel : ∀ start appointments n,
  get_all_appointments_loop frames transport fuel oid start appointments n
  = (Ok None, (n + fuel)%nat).
Proof.
  induction fuel as [|fuel IH]; intros start appointments n.
  { cbn. unfold ret. f_equal. lia. }
  destruct (Hfull n start) as (its & tot & Ht & Hlen & Htot).
  rewrite (appointments_loop_page transport frames oid _ _ _ _ _ _ Ht).
  rewrite bool_decide_eq_false_2, bool_decide_eq_false_2 by lia.
  cbn [orb]. rewrite IH. f_equal. lia.
Qed.
End endless.

(** Property X11.  The loop of [get_all_appointments] has no bound of its
    own: against a registry that keeps answering with full pages and a total
    beyond the page, it is still running after any number of turns, one
    request per turn. *)
Theorem get_all_appointments_unbounded
    (transport : nat → string → option params_t
                 → result (response (Listing.t appointment)))
    (frames fuel : nat) (oid : string) (n : nat) :
  (∀ k start, ∃ its tot,
     transport k ("/officers/" ++ oid ++ "/appointments")
       (Some [("items_per_page", PInt 50); ("start_index", PInt start)])
     = Ok (Response 200 (Ok (Some (Listing.Make (Some its) tot)))) ∧
     length its = 50%nat ∧ (start + 50 < default 0 tot)%Z) →
  get_all_appointments frames transport fuel oid n = (Ok None, (n + fuel)%nat).
Proof. intros Hfull. by apply appointments_loop_endless. Qed.

Lemma get_all_appointments_unbounded_witness :
  get_all_appointments 0 transport_endless 1000 "abc123" 0
  = (Ok None, (0 + 1000)%nat).
Proof.
  apply (get_all_appointments_unbounded transport_endless 0 1000 "abc123" 0).
  intros k start. exists (replicate 50 acme_111), (Some (start + 51)%Z).
  split_and!; [reflexivity | reflexivity | cbn; lia].
Defined.

Section search_facts.
Variable transport :
  nat → string → option params_t → result (response (Listing.t officer_t)).
Variable frames : nat.

Lemma collect_step_inv st item :
  search_inv st → search_inv (collect_step st item).
Proof.
  intros [Hnd Hall]. unfold collect_step.
  destruct (contains "/officers/" (self_link_of item)) eqn:Hc; [|done].
  fold (hit_id item).
  destruct (truthy (Some (hit_id item))) eqn:Ht; [|done].
  case_bool_decide as Hseen; [|done]. cbn [andb].
  split; cbn [fst snd].
  - rewrite fmap_app. cbn [fmap list_fmap]. apply NoDup_app. split_and!.
    + done.
    + intros x (o & -> & Ho)%list_elem_of_fmap Heq%list_elem_of_singleton.
      apply Hseen. rewrite <-Heq. by apply Hall.
    + apply NoDup_singleton.
  - intros o [Ho | ->%list_elem_of_singleton]%elem_of_app.
    + destruct (Hall o Ho) as (? & ? & ?). split_and!; try done.
      apply elem_of_union. by right.
    + split_and!; [done | | apply elem_of_union; left; by apply elem_of_singleton].
      intros Heq. rewrite Heq in Ht. done.
Qed.

Lemma collect_inv items : ∀ st,
  search_inv st → search_inv (foldl collect_step st items).
Proof.
  induction items as [|item items IH]; intros st Hst; [done|].
  cbn [foldl]. by apply IH, collect_step_inv.
Qed.

Lemma search_pages_inv query pages : ∀ page st n,
  search_inv st →
  ∃ st' n', search_pages frames transport query pages page st n = (Ok st', n') ∧
            search_inv st' ∧
            (n + Nat.min 1 pages ≤ n' ≤ n + pages * (frames + 1))%nat.
Proof.
  induction pages as [|pages IH]; intros page st n Hst.
  { exists st, n. split_and!; [done | done | cbn; lia | lia]. }
  cbn [search_pages]. unfold bind at 1.
  pose proof (api_call_requests transport frames "/search/officers"
                (Some [("q", PStr query); ("items_per_page", PInt 50);
                       ("start_index", PInt (Z.of_nat page * 50))]) n) as [Hreq _].
  destruct (api_call_returns transport frames "/search/officers"
              (Some [("q", PStr query); ("items_per_page", PInt 50);
                     ("start_index", PInt (Z.of_nat page * 50))]) n)
    as (data & n1 & Hcall).
  rewrite Hcall in Hreq |- *. cbn [snd] in Hreq.
  destruct data as [d|]; [|exists st, n1; split_and!; [done | done | lia | lia]].
  destruct (Listing.items d) as [items|];
    [|exists st, n1; split_and!; [done | done | lia | lia]].
  cbn zeta. destruct (_ || _).
  - exists (foldl collect_step st items), n1.
    split_and!; [done | by apply collect_inv | lia | lia].
  - destruct (IH (S page) (foldl collect_step st items) n1) as (st' & n' & Hp & Hinv & Hn).
    { by apply collect_inv. }
    exists st', n'. split_and!; [done | done | lia | lia].
Qed.

Lemma search_queries_inv queries max_pages : ∀ st n,
  search_inv st →
  ∃ st' n', search_queries frames transport queries max_pages st n = (Ok st', n') ∧
            search_inv st' ∧
            (n + length queries * Nat.min 1 max_pages ≤ n'
             ≤ n + length queries * (max_pages * (frames + 1)))%nat.
Proof.
  induction queries as [|query queries IH]; intros st n Hst.
  { exists st, n. split_and!; [done | done | cbn; lia | cbn; lia]. }
  cbn [search_queries]. unfold bind at 1.
  destruct (search_pages_inv query max_pages 0 st n Hst) as (st1 & n1 & -> & Hinv1 & Hn1).
  destruct (IH st1 n1 Hinv1) as (st' & n' & Hq & Hinv & Hn).
  exists st', n'. split_and!; [done | done | cbn [length]; lia | cbn [length]; lia].
Qed.

Lemma search_officers_inv first last full_name max_pages n :
  ∃ results n',
    search_officers frames transport first last full_name max_pages n
    = (Ok results, n') ∧
    NoDup (hit_id <$> results) ∧
    (∀ o, o ∈ results →
       contains "/officers/" (self_link_of o) = true ∧ hit_id o ≠ "") ∧
    (n + 4 * Nat.min 1 max_pages ≤ n' ≤ n + 4 * max_pages * (frames + 1))%nat.
Proof.
  unfold search_officers, bind.
  destruct (search_queries_inv
              [full_name; first ++ " " ++ last; last ++ " " ++ first;
               last ++ ", " ++ first] max_pages (∅, []) n)
    as ([seen results] & n' & -> & [Hnd Hall] & Hn).
  { split; cbn; [apply NoDup_nil_2 | by intros o ?%elem_of_nil]. }
  exists results, n'. cbn [length] in Hn. split_and!; [done | done | | lia | lia].
  intros o Ho. destruct (Hall o Ho) as (? & ? & _). done.
Qed.

End search_facts.

Section candidates_facts.
Variable p : person.
Variable verified_ids : list string.

(** The candidates added by the filter, in the order of the hits. *)
Lemma potential_matches_ids results : ∀ acc,
  ∃ ms, foldl (potential_matches_step p verified_ids) acc results = (acc ++ ms)%list ∧
        (pm_officer_id <$> ms) `sublist_of` (hit_id <$> results) ∧
        (∀ m, m ∈ ms → pm_officer m ∈ results ∧ pm_officer_id m = hit_id (pm_officer m) ∧
                        pm_officer_id m ∉ verified_ids).
Proof.
  induction results as [|o results IH]; intros acc; cbn [foldl].
  { exists []. rewrite app_nil_r. split_and!; [done | done | by intros m ?%elem_of_nil]. }
  unfold potential_matches_step at 2.
  destruct (match_dob o (dob_month p) (dob_year p)).
  2:{ destruct (IH acc) as (ms & -> & Hsub & Hall). exists ms. split_and!; [done | | ].
      - cbn. by apply sublist_cons.
      - intros m Hm. destruct (Hall m Hm) as (? & ? & ?). split_and!; [by right | done | done]. }
  destruct (contains _ _).
  2:{ destruct (IH acc) as (ms & -> & Hsub & Hall). exists ms. split_and!; [done | | ].
      - cbn. by apply sublist_cons.
      - intros m Hm. destruct (Hall m Hm) as (? & ? & ?). split_and!; [by right | done | done]. }
  case_bool_decide as Hid.
  2:{ destruct (IH acc) as (ms & -> & Hsub & Hall). exists ms. split_and!; [done | | ].
      - cbn. by apply sublist_cons.
      - intros m Hm. destruct (Hall m Hm) as (? & ? & ?). split_and!; [by right | done | done]. }
  destruct (IH (acc ++ [PotentialMatch o
                          (officer_id_of_link
                             (default "" (self (default (Links None) (links o)))))])%list)
    as (ms & -> & Hsub & Hall).
  exists (PotentialMatch o (hit_id o) :: ms). split_and!.
  - by rewrite <-(assoc_L (++)%list).
  - cbn. by apply sublist_skip.
  - intros m [->|Hm]%elem_of_cons.
    + split_and!; [left | done | done].
    + destruct (Hall m Hm) as (? & ? & ?). split_and!; [by right | done | done].
Qed.

End candidates_facts.

(** Property X12.  [search_officers] never raises.  The officers it returns
    have pairwise distinct officer ids, none of them empty, each read from a
    link that holds [/officers/]; and it sends at least one request per
    query and at most [max_pages] calls of [api_call] per query, for its
    four queries. *)
Theorem search_officers_distinct_ids
    (transport : nat → string → option params_t
                 → result (response (Listing.t officer_t)))
    (frames : nat) (first last full_name : string) (max_pages n : nat) :
  ∃ results n',
    search_officers frames transport first last full_name max_pages n
    = (Ok results, n') ∧
    NoDup (hit_id <$> results) ∧
    (∀ o, o ∈ results →
       contains "/officers/" (self_link_of o) = true ∧ hit_id o ≠ "") ∧
    (n + 4 * Nat.min 1 max_pages ≤ n' ≤ n + 4 * max_pages * (frames + 1))%nat.
Proof. apply search_officers_inv. Qed.

Lemma extract_first_last_parts name :
  match cleaned_tokens name with
  | [] => extract_first_last name = ("", "")
  | x :: rest =>
      extract_first_last name = (x, List.last rest x) ∧ x ≠ "" ∧ List.last rest x ≠ ""
  end.
Proof.
  pose proof (cleaned_tokens_are_tokens name) as Hall.
  unfold extract_first_last. fold (cleaned_tokens name).
  rewrite Forall_forall in Hall.
  destruct (cleaned_tokens name) as [|x rest]; [done|].
  assert (x ≠ "") as Hx by (apply (Hall x); left).
  assert (List.last rest x ≠ "") as Hl.
  { assert (List.last rest x ∈ x :: rest) as Hin; [|by apply (Hall _ Hin)].
    clear. assert (∀ l (a b : string), List.last (b :: l) a = List.last l b) as Hcons.
    { induction l as [|c l IH]; intros a b; [done|].
      change (List.last (b :: c :: l) a) with (List.last (c :: l) a).
      by rewrite !IH. }
    revert x. induction rest as [|y rest IH]; intros x; [left|].
    rewrite Hcons. right. apply IH. }
  by destruct rest.
Qed.

(** Property X13.  The candidates of one person in the input step.  The step
    never raises; the candidates have pairwise distinct, non-empty officer
    ids, each the id read from the candidate's own link; the officer id of
    the person's own record is not among them.  A person whose name
    normalises to the empty string is skipped without a request; for every
    other person each of the four queries is sent. *)
Theorem find_matches_candidates
    (transport : nat → string → option params_t
                 → result (response (Listing.t officer_t)))
    (frames : nat) (p : person) (n : nat) :
  ∃ matches n',
    find_matches frames transport p n = (Ok matches, n') ∧
    NoDup (pm_officer_id <$> matches) ∧
    (∀ m, m ∈ matches →
       pm_officer_id m = hit_id (pm_officer m) ∧
       pm_officer_id m ≠ "" ∧
       officer_id p ≠ Some (pm_officer_id m)) ∧
    (if decide (normalize_name (name p) = "")
     then matches = [] ∧ n' = n
     else (n + 4 ≤ n' ≤ n + 40 * (frames + 1))%nat).
Proof.
  unfold find_matches.
  pose proof (extract_first_last_parts (name p)) as Hparts.
  pose proof (normalize_name_empty (name p)) as Hempty.
  destruct (cleaned_tokens (name p)) as [|x rest] eqn:Hc.
  { rewrite Hparts. cbn. exists [], n. rewrite decide_True by by apply Hempty.
    split_and!; [done | apply NoDup_nil_2 | by intros m ?%elem_of_nil | done | done]. }
  destruct Hparts as (-> & Hx & Hl).
  assert (truthy (Some x) = true) as -> by by destruct x.
  assert (truthy (Some (List.last rest x)) = true) as -> by by destruct (List.last rest x).
  cbn [negb orb]. unfold bind.
  destruct (search_officers_inv transport frames x (List.last rest x)
              (format_name_proper_order (name p)) 10 n)
    as (results & n' & -> & Hnd & Hall & Hn).
  unfold ret, potential_matches.
  destruct (potential_matches_ids p (verified_ids_of p) results [])
    as (ms & -> & Hsub & Hms).
  exists ms, n'. rewrite decide_False by (intros ?%Hempty; done).
  cbn [app]. split_and!.
  - done.
  - by eapply sublist_NoDup.
  - intros m Hm. destruct (Hms m Hm) as (Ho & Hid & Hv).
    destruct (Hall _ Ho) as [_ Hne]. split_and!; [done | by rewrite Hid |].
    intros Hp. apply Hv. unfold verified_ids_of. rewrite Hp.
    destruct (pm_officer_id m) eqn:Heq; [by rewrite Hid in Heq|]. cbn. left.
  - cbn in Hn. lia.
  - lia.
Qed.

Section roster_facts.
Variable frames : nat.

Lemma directors_step_roles items : ∀ directors,
  Forall (λ d, roles d = ["Director"]) directors →
  Forall (λ d, roles d = ["Director"]) (foldl directors_step directors items).
Proof.
  induction items as [|item items IH]; intros directors Hd; [done|].
  cbn [foldl]. apply IH. unfold directors_step.
  case_bool_decide; [|done]. apply Forall_app. split; [done|].
  by apply Forall_singleton.
Qed.

Lemma pscs_step_roles items : ∀ pscs,
  Forall (λ s, roles s = ["PSC"] ∧ officer_id s = None) pscs →
  Forall (λ s, roles s = ["PSC"] ∧ officer_id s = None) (foldl pscs_step pscs items).
Proof.
  induction items as [|item items IH]; intros pscs Hs; [done|].
  cbn [foldl]. apply IH. unfold pscs_step.
  destruct (_ && _); [|done]. apply Forall_app. split; [done|].
  by apply Forall_singleton.
Qed.

Lemma get_current_directors_result
    (transport : nat → string → option params_t
                 → result (response (Listing.t Officers.item)))
    number n :
  ∃ directors n',
    get_current_directors frames transport number n = (Ok directors, n') ∧
    (n < n' ≤ n + frames + 1)%nat ∧
    Forall (λ d, roles d = ["Director"]) directors.
Proof.
  unfold get_current_directors, bind.
  pose proof (api_call_requests transport frames ("/company/" ++ number ++ "/officers")
                (Some [("items_per_page", PInt 100)]) n) as [Hreq _].
  destruct (api_call_returns transport frames ("/company/" ++ number ++ "/officers")
              (Some [("items_per_page", PInt 100)]) n) as (data & n' & Hcall).
  rewrite Hcall in Hreq |- *. cbn [snd] in Hreq.
  destruct data as [d|]; [|by exists [], n'].
  destruct (Listing.items d) as [items|]; [|by exists [], n'].
  exists (foldl directors_step [] items), n'. split_and!; [done | lia | lia |].
  by apply directors_step_roles.
Qed.

Lemma get_current_pscs_result
    (transport : nat → string → option params_t
                 → result (response (Listing.t Pscs.item)))
    number n :
  ∃ pscs n',
    get_current_pscs frames transport number n = (Ok pscs, n') ∧
    (n < n' ≤ n + frames + 1)%nat ∧
    Forall (λ s, roles s = ["PSC"] ∧ officer_id s = None) pscs.
Proof.
  unfold get_current_pscs, bind.
  pose proof (api_call_requests transport frames
                ("/company/" ++ number ++ "/persons-with-significant-control")
                None n) as [Hreq _].
  destruct (api_call_returns transport frames
              ("/company/" ++ number ++ "/persons-with-significant-control")
              None n) as (data & n' & Hcall).
  rewrite Hcall in Hreq |- *. cbn [snd] in Hreq.
  destruct data as [d|]; [|by exists [], n'].
  destruct (Listing.items d) as [items|]; [|by exists [], n'].
  exists (foldl pscs_step [] items), n'. split_and!; [done | lia | lia |].
  by apply pscs_step_roles.
Qed.

End roster_facts.

Section label_facts.

Lemma roles_label_set (l1 l2 : list string) :
  (∀ r, r ∈ l1 ↔ r ∈ l2) → roles_label l1 = roles_label l2.
Proof.
  intros Heq. unfold roles_label.
  assert ((list_to_set l1 : gset string) = list_to_set l2) as ->; [|done].
  apply set_eq. intros r. by rewrite !elem_of_list_to_set.
Qed.

Lemma roles_label_director_psc (l : list string) :
  l ≠ [] → (∀ r, r ∈ l → r = "Director" ∨ r = "PSC") →
  roles_label l
  = if bool_decide ("Director" ∈ l)
    then if bool_decide ("PSC" ∈ l) then "Director & PSC" else "Director"
    else "PSC".
Proof.
  intros Hne Hall.
  assert (∀ r, r ∈ l → r ∈ ["Director"; "PSC"]) as Hall'.
  { intros r [-> | ->]%Hall; [left | right; left]. }
  case_bool_decide as Hd; [case_bool_decide as Hp|].
  - rewrite (roles_label_set l ["Director"; "PSC"]); [by vm_compute|].
    intros r. split; [apply Hall'|].
    intros [->|[->|?%elem_of_nil]%elem_of_cons]%elem_of_cons; done.
  - rewrite (roles_label_set l ["Director"]); [by vm_compute|].
    intros r. split.
    + intros Hr. destruct (Hall r Hr) as [-> | ->]; [left | done].
    + by intros ->%list_elem_of_singleton.
  - rewrite (roles_label_set l ["PSC"]); [by vm_compute|].
    intros r. split.
    + intros Hr. destruct (Hall r Hr) as [-> | ->]; [done | left].
    + intros ->%list_elem_of_singleton. destruct l as [|r l]; [done|].
      destruct (Hall r) as [-> | ->]; [left | | left]. exfalso. apply Hd. left.
Qed.

Lemma spec_first_officer_id_elem ids :
  spec_first_officer_id ids = None ∨ spec_first_officer_id ids ∈ ids.
Proof.
  unfold spec_first_officer_id.
  destruct (filter (λ i, truthy i = true) ids) as [|i l] eqn:Hf.
  - destruct ids; [by left | right; left].
  - right. assert (i ∈ filter (λ i, truthy i = true) ids) as Hi by (rewrite Hf; left).
    by apply list_elem_of_filter in Hi as [_ ?].
Qed.

End label_facts.

Section fetcher_facts.

Lemma directors_step_from items : ∀ kept directors,
  Forall2 director_from kept directors →
  Forall2 director_from
    (kept ++ filter (λ item, Officers.resigned_on item = None) items)
    (foldl directors_step directors items).
Proof.
  induction items as [|item items IH]; intros kept directors Hk.
  { by rewrite app_nil_r. }
  cbn [foldl]. rewrite filter_cons. unfold directors_step at 2.
  case_bool_decide as Hr.
  - rewrite decide_True by done.
    rewrite cons_middle, (assoc_L (++)%list kept [item]). apply IH.
    apply Forall2_app; [done|]. constructor; [|constructor].
    fold (appointments_link_of item).
    split_and!; try done.
    intros oid rest Hoid Hlink. cbn [officer_id]. rewrite Hlink.
    rewrite contains_officers_app.
    change (oid ++ "/" ++ rest) with (oid ++ String "/" rest).
    rewrite officer_id_of_link_tail; [done | done | eauto].
  - rewrite decide_False by done. by apply IH.
Qed.

Lemma pscs_step_from items : ∀ kept pscs,
  Forall2 psc_from kept pscs →
  Forall2 psc_from
    (kept ++ filter (λ item, Pscs.ceased_on item = None ∧
                             contains "individual" (default "" (Pscs.kind item)) = true)
               items)
    (foldl pscs_step pscs items).
Proof.
  induction items as [|item items IH]; intros kept pscs Hk.
  { by rewrite app_nil_r. }
  cbn [foldl]. rewrite filter_cons. unfold pscs_step at 2.
  case_bool_decide as Hc.
  - destruct (contains "individual" _) eqn:Hi; cbn [andb].
    + rewrite decide_True by done.
      rewrite cons_middle, (assoc_L (++)%list kept [item]). apply IH.
      apply Forall2_app; [done|]. constructor; [|constructor]. done.
    + rewrite decide_False by (intros [_ ?]; done). by apply IH.
  - cbn [andb]. rewrite decide_False by (intros [? _]; done). by apply IH.
Qed.

End fetcher_facts.

(** Property X14.  [get_current_directors] never raises and sends one call
    of [api_call].  The directors it returns are made, in order, from the
    items of the listing that carry no resignation date: name (empty when
    absent), month and year of birth, the single role [Director], and the
    officer id read from the appointments link, which for a link of the form
    [/officers/{id}/...] is [{id}].  A call that yields no body, or a body
    without [items], gives the empty list. *)
Theorem get_current_directors_unresigned_only
    (transport : nat → string → option params_t
                 → result (response (Listing.t Officers.item)))
    (frames : nat) (number : string) (n : nat) :
  let call := api_call transport frames ("/company/" ++ number ++ "/officers")
                (Some [("items_per_page", PInt 100)]) n in
  let listed := match call.1 with
                | Ok (Some d) => default [] (Listing.items d)
                | _ => []
                end in
  ∃ directors,
    get_current_directors frames transport number n = (Ok directors, call.2) ∧
    Forall2 director_from
      (filter (λ item, Officers.resigned_on item = None) listed) directors.
Proof.
  intros call listed. subst call listed.
  unfold get_current_directors, bind.
  destruct (api_call_returns transport frames ("/company/" ++ number ++ "/officers")
              (Some [("items_per_page", PInt 100)]) n) as (data & n' & ->).
  cbn [fst snd].
  destruct data as [d|]; [|exists []; split; [done | constructor]].
  destruct (Listing.items d) as [items|]; [|exists []; split; [done | constructor]].
  exists (foldl directors_step [] items). split; [done|].
  apply (directors_step_from items [] []). constructor.
Qed.

(** Property X15.  [get_current_pscs] never raises and sends one call of
    [api_call].  The persons it returns are made, in order, from the items
    of the listing that carry no cessation date and whose kind contains
    [individual]: name, month and year of birth, the single role [PSC] and
    no officer id.  A call that yields no body, or a body without [items],
    gives the empty list. *)
Theorem get_current_pscs_individuals_only
    (transport : nat → string → option params_t
                 → result (response (Listing.t Pscs.item)))
    (frames : nat) (number : string) (n : nat) :
  let call := api_call transport frames
                ("/company/" ++ number ++ "/persons-with-significant-control")
                None n in
  let listed := match call.1 with
                | Ok (Some d) => default [] (Listing.items d)
                | _ => []
                end in
  ∃ pscs,
    get_current_pscs frames transport number n = (Ok pscs, call.2) ∧
    Forall2 psc_from
      (filter (λ item, Pscs.ceased_on item = None ∧
                       contains "individual" (default "" (Pscs.kind item)) = true)
         listed) pscs.
Proof.
  intros call listed. subst call listed.
  unfold get_current_pscs, bind.
  destruct (api_call_returns transport frames
              ("/company/" ++ number ++ "/persons-with-significant-control")
              None n) as (data & n' & ->).
  cbn [fst snd].
  destruct data as [d|]; [|exists []; split; [done | constructor]].
  destruct (Listing.items d) as [items|]; [|exists []; split; [done | constructor]].
  exists (foldl pscs_step [] items). split; [done|].
  apply (pscs_step_from items [] []). constructor.
Qed.

(** Property X16.  The role label of the review and results steps takes one
    of three values for every person of the merged roster, whatever the
    registry answers: the roles of a merged person are [Director] and [PSC]
    items, at least one; a person with an officer id has the role
    [Director], so a person labelled [PSC] has none.  The label depends only
    on the set of roles, not on their order or number. *)
Theorem roster_role_labels
    (transport_officers : nat → string → option params_t
                          → result (response (Listing.t Officers.item)))
    (transport_pscs : nat → string → option params_t
                      → result (response (Listing.t Pscs.item)))
    (frames : nat) (number : string) (n : nat) :
  ∃ directors pscs n1 n2,
    get_current_directors frames transport_officers number n = (Ok directors, n1) ∧
    get_current_pscs frames transport_pscs number n1 = (Ok pscs, n2) ∧
    (n + 2 ≤ n2 ≤ n + 2 * (frames + 1))%nat ∧
    (∀ k p, (k, p) ∈ merge_people directors pscs →
       roles_label (roles p)
       = (if bool_decide ("Director" ∈ roles p)
          then if bool_decide ("PSC" ∈ roles p) then "Director & PSC" else "Director"
          else "PSC") ∧
       (officer_id p ≠ None → "Director" ∈ roles p) ∧
       (∀ roles', (∀ r, r ∈ roles' ↔ r ∈ roles p) →
                  roles_label roles' = roles_label (roles p))).
Proof.
  destruct (get_current_directors_result frames transport_officers number n)
    as (directors & n1 & Hd & Hn1 & Hdroles).
  destruct (get_current_pscs_result frames transport_pscs number n1)
    as (pscs & n2 & Hs & Hn2 & Hsroles).
  exists directors, pscs, n1, n2. split_and!; [done | done | lia | lia |].
  intros k p Hkp.
  pose proof (merged_foldl (directors ++ pscs) [] [] merged_nil) as (Hnd & Hkeys & Hpeople).
  cbn [app] in Hnd, Hkeys, Hpeople. fold (merge_people directors pscs) in Hnd, Hkeys, Hpeople.
  destruct (Hpeople k p Hkp) as (Hkey & Hroles & Hid).
  rewrite Forall_forall in Hdroles, Hsroles.
  assert (∀ item, item ∈ items_of k (directors ++ pscs) →
            (roles item = ["Director"]) ∨ (roles item = ["PSC"] ∧ officer_id item = None))
    as Hitems.
  { intros item [_ [Hi|Hi]%elem_of_app]%list_elem_of_filter.
    - left. by apply Hdroles.
    - right. by apply Hsroles. }
  assert (∀ r, r ∈ roles p → r = "Director" ∨ r = "PSC") as Hrs.
  { intros r. rewrite Hroles. intros (rs & Hr & (item & -> & Hi)%list_elem_of_fmap)%list_elem_of_join.
    destruct (Hitems item Hi) as [Heq | [Heq _]]; rewrite Heq in Hr;
      apply list_elem_of_singleton in Hr; auto. }
  assert (roles p ≠ []) as Hne.
  { assert (k ∈ (merge_people directors pscs).*1) as Hk.
    { apply list_elem_of_fmap. by exists (k, p). }
    apply Hkeys in Hk as (item & Hi & Hik).
    assert (item ∈ items_of k (directors ++ pscs)) as Hin
      by (apply list_elem_of_filter; done).
    destruct (roles item) as [|r rs] eqn:Hr.
    { destruct (Hitems item Hin) as [? | [? _]]; congruence. }
    intros Hnil. assert (r ∈ roles p) as Hrp; [|rewrite Hnil in Hrp; by apply elem_of_nil in Hrp].
    rewrite Hroles. apply list_elem_of_join. exists (roles item). split.
    - rewrite Hr. left.
    - apply list_elem_of_fmap. by exists item. }
  split_and!.
  - by apply roles_label_director_psc.
  - intros Hsome.
    destruct (spec_first_officer_id_elem (officer_id <$> items_of k (directors ++ pscs)))
      as [Hnone | Hin]; [congruence|].
    rewrite <-Hid in Hin. apply list_elem_of_fmap in Hin as (item & Hoid & Hi).
    destruct (Hitems item Hi) as [Hr | [_ Hnone]]; [|congruence].
    rewrite Hroles. apply list_elem_of_join. exists (roles item). split.
    + rewrite Hr. left.
    + apply list_elem_of_fmap. by exists item.
  - intros roles' Heq. by apply roles_label_set.
Qed.

(** ** Categoriser: repeats and requests *)

Section categorizer_more.
Context {case : Type}.
Variable transport :
  nat → string → option params_t → result (response (insolvency case)).
Variable frames : nat.

Lemma has_insolvency_requests num n :
  (n < (has_insolvency transport frames num n).2 ≤ n + frames + 1)%nat.
Proof.
  unfold has_insolvency, bind.
  pose proof (api_call_requests transport frames ("/company/" ++ num ++ "/insolvency")
                None n) as [Hreq _].
  destruct (api_call_returns transport frames ("/company/" ++ num ++ "/insolvency") None n)
    as (v & n' & Hcall).
  rewrite Hcall in Hreq |- *. done.
Qed.

Lemma insolvency_lookups_requests nums : ∀ n,
  (n + length nums ≤ (insolvency_lookups transport frames nums n).2
   ≤ n + length nums * (frames + 1))%nat.
Proof.
  induction nums as [|num nums IH]; intros n; [cbn; lia|].
  cbn [insolvency_lookups length].
  pose proof (has_insolvency_requests num n) as Hreq.
  destruct (has_insolvency_returns transport frames num n) as (ins & n1 & Hins).
  rewrite Hins in Hreq. cbn [snd] in Hreq.
  specialize (IH n1). unfold bind, ret. rewrite Hins.
  destruct (insolvency_lookups transport frames nums n1) as [[flags|e] n2];
    cbn [snd] in IH |- *; nia.
Qed.

(** The outcome of [categorize_companies] is that of the lookups for the
    first-seen appointments. *)
Lemma categorize_companies_first_seen appts n :
  ∃ flags n',
    insolvency_lookups transport frames (num_of <$> spec_first_seen appts) n
    = (Ok flags, n') ∧
    length flags = length (spec_first_seen appts) ∧
    categorize_companies transport frames appts n
    = (Ok (add_entries (Categories [] [] [] []) (zip (spec_first_seen appts) flags)), n').
Proof.
  destruct (categorize_loop_kept transport frames appts (Categories [] [] [] []) ∅ n)
    as (flags & n' & seen' & Hl & Hlen & Hloop).
  rewrite kept_from_empty in Hl, Hlen, Hloop.
  exists flags, n'. split_and!; [done | done |].
  unfold categorize_companies, bind. by rewrite Hloop.
Qed.

End categorizer_more.

Section first_seen_more.

Lemma spec_first_seen_app l1 : ∀ l2,
  spec_first_seen (l1 ++ l2)
  = (spec_first_seen l1
     ++ filter (λ a, co_num_of a ∉ co_num_of <$> l1) (spec_first_seen l2))%list.
Proof.
  induction l1 as [|a l1 IH]; intros l2.
  { cbn [app spec_first_seen fmap list_fmap].
    induction (spec_first_seen l2) as [|x l IHl]; [done|].
    rewrite filter_cons_True by apply not_elem_of_nil. by rewrite <-IHl. }
  change ((a :: l1) ++ l2)%list with (a :: (l1 ++ l2))%list.
  cbn [spec_first_seen]. rewrite IH.
  destruct (truthy (co_num_of a)) eqn:Ht.
  - rewrite filter_app, list_filter_filter. cbn [app]. do 2 f_equal.
    apply filter_ext_in. intros x _. rewrite fmap_cons, not_elem_of_cons. tauto.
  - f_equal. apply filter_ext_in. intros x [_ Hx]%spec_first_seen_elem.
    rewrite fmap_cons, not_elem_of_cons. split; [|tauto].
    intros Hnot. split; [congruence | done].
Qed.

Lemma spec_first_seen_repeats appts extra :
  (∀ a, a ∈ extra → truthy (co_num_of a) = true →
        co_num_of a ∈ co_num_of <$> appts) →
  spec_first_seen (appts ++ extra) = spec_first_seen appts.
Proof.
  intros Hrep. rewrite spec_first_seen_app.
  assert (filter (λ a, co_num_of a ∉ co_num_of <$> appts) (spec_first_seen extra) = [])
    as ->; [|by rewrite app_nil_r].
  destruct (filter _ (spec_first_seen extra)) as [|x l] eqn:Hf; [done|].
  assert (x ∈ filter (λ a, co_num_of a ∉ co_num_of <$> appts) (spec_first_seen extra))
    as [Hnot [Hx Ht]%spec_first_seen_elem]%list_elem_of_filter by (rewrite Hf; left).
  destruct Hnot. by apply Hrep.
Qed.

End first_seen_more.

(** Property X17.  Appointments of companies that are already in the list
    change nothing: neither the four categories nor the requests sent.  The
    history of an officer listed twice, or the histories of two officer
    records with the same companies, give the result of one. *)
Theorem categorize_companies_ignores_repeats {case : Type}
    (transport : nat → string → option params_t
                 → result (response (insolvency case)))
    (frames : nat) (appts extra : list appointment) (n : nat) :
  (∀ a, a ∈ extra → truthy (co_num_of a) = true →
        co_num_of a ∈ co_num_of <$> appts) →
  categorize_companies transport frames (appts ++ extra) n
  = categorize_companies transport frames appts n.
Proof.
  intros Hrep.
  destruct (categorize_companies_first_seen transport frames (appts ++ extra) n)
    as (flags & n' & Hl & _ & ->).
  destruct (categorize_companies_first_seen transport frames appts n)
    as (flags0 & n0 & Hl0 & _ & ->).
  rewrite spec_first_seen_repeats in Hl |- * by done.
  congruence.
Qed.

Lemma categorize_companies_ignores_repeats_witness :
  categorize_companies transport_scenario 0 ([acme_111; oldco_222] ++ [oldco_222; acme_111]) 0
  = categorize_companies transport_scenario 0 [acme_111; oldco_222] 0.
Proof.
  apply (categorize_companies_ignores_repeats transport_scenario 0
           [acme_111; oldco_222] [oldco_222; acme_111] 0).
  intros a Ha _.
  apply elem_of_cons in Ha as [->|Ha]; [right; left|].
  apply elem_of_cons in Ha as [->|Ha]; [left|]. by apply elem_of_nil in Ha.
Defined.

(** Property X18.  [categorize_companies] sends one call of [api_call] per
    first-seen company and nothing else: at least one request for each, at
    most [frames + 1].  The four lists are all empty, the case [total == 0]
    of the results block, exactly when no appointment carries a non-empty
    company number, and then no request is sent. *)
Theorem categorize_companies_requests {case : Type}
    (transport : nat → string → option params_t
                 → result (response (insolvency case)))
    (frames : nat) (appts : list appointment) (n : nat) :
  ∃ cats n',
    categorize_companies transport frames appts n = (Ok cats, n') ∧
    (n + length (spec_first_seen appts) ≤ n'
     ≤ n + length (spec_first_seen appts) * (frames + 1))%nat ∧
    (total cats = 0%nat ↔ ∀ a, a ∈ appts → truthy (co_num_of a) = false) ∧
    (total cats = 0%nat → n' = n).
Proof.
  destruct (categorize_companies_first_seen transport frames appts n)
    as (flags & n' & Hl & Hlen & ->).
  pose proof (insolvency_lookups_requests transport frames
                (num_of <$> spec_first_seen appts) n) as Hreq.
  rewrite Hl, length_fmap in Hreq. cbn [snd] in Hreq.
  eexists _, n'. split; [done|].
  rewrite total_add_entries, length_zip, Hlen. cbn.
  split_and!; [lia | lia | | lia].
  rewrite Nat.min_id. split.
  - intros Hnone a Ha. destruct (truthy (co_num_of a)) eqn:Ht; [|done].
    destruct (truthy_co_num a Ht) as [Hnum Hne].
    assert (Some (num_of a) ∈ co_num_of <$> spec_first_seen appts) as Hin.
    { apply (proj1 (spec_first_seen_covers appts (num_of a) Hne)). rewrite <-Hnum.
      apply list_elem_of_fmap. by exists a. }
    destruct (spec_first_seen appts); [by apply elem_of_nil in Hin | done].
  - intros Hnone. destruct (spec_first_seen appts) as [|a l] eqn:Hs; [done|].
    assert (a ∈ spec_first_seen appts) as [Ha Ht]%spec_first_seen_elem
      by (rewrite Hs; left).
    rewrite (Hnone a Ha) in Ht. done.
Qed.

(** ** Similarity: range and end points *)

Module DifflibRange.
Import Difflib DifflibMatch.
Local Open Scope nat_scope.
Local Open Scope list_scope.

Section sizes.
Variables (a b : list ascii) (b2j : gmap ascii (list nat)).

(** Merging adjacent blocks keeps the total size. *)
Lemma collapse_sizes blocks : ∀ i1 j1 k1 non_adjacent,
  sum_list (snd <$> (foldl collapse_step ((i1, j1, k1), non_adjacent) blocks).2)
  + (foldl collapse_step ((i1, j1, k1), non_adjacent) blocks).1.2
  = sum_list (snd <$> non_adjacent) + k1 + sum_list (snd <$> blocks).
Proof.
  induction blocks as [|[[i2 j2] k2] blocks IH]; intros i1 j1 k1 non_adjacent.
  { cbn. lia. }
  cbn [foldl collapse_step].
  destruct (bool_decide (i1 + k1 = i2) && bool_decide (j1 + k1 = j2)).
  - rewrite IH. cbn [fmap list_fmap sum_list_with snd]. unfold id. lia.
  - rewrite IH. cbn [fmap list_fmap sum_list_with snd]. unfold id.
    case_bool_decide.
    + rewrite fmap_app, sum_list_with_app. cbn. lia.
    + lia.
Qed.

End sizes.

(** *** The blocks are true matches *)

Section matches.
Variables (a b : list ascii).

Lemma scan_row_match blo bhi i j2len js : ∀ new best,
  (∀ j, j ∈ js → ∃ c, a !! i = Some c ∧ b !! j = Some c) →
  j2len_match a b i j2len →
  j2len_match a b (S i) new →
  block_match a b best →
  j2len_match a b (S i) (scan_row blo bhi i j2len js (new, best)).1 ∧
  block_match a b (scan_row blo bhi i j2len js (new, best)).2.
Proof.
  induction js as [|j js IH]; intros new best Hjs Hprev Hnew Hbest; [done|].
  assert (∀ j', j' ∈ js → ∃ c, a !! i = Some c ∧ b !! j' = Some c) as Hjs'
    by (intros j' Hj'; apply Hjs; by right).
  cbn [scan_row]. case_bool_decide as Hjlo; [by apply IH|].
  case_bool_decide as Hjhi; [done|].
  destruct best as [[bi bj] bs].
  destruct (Hjs j) as (c & Hai & Hbj); [left|].
  (* the run that ends at [i] and [j] *)
  assert (j2lenget_pred j2len j ≤ i ∧ j2lenget_pred j2len j ≤ j ∧
          ∀ t, t < j2lenget_pred j2len j + 1 →
               ∃ c, a !! (i - t) = Some c ∧ b !! (j - t) = Some c) as (Hk1 & Hk2 & Hrun).
  { destruct j as [|j]; cbn [j2lenget_pred].
    { split_and!; [lia | lia |]. intros t Ht. replace t with 0 by lia.
      rewrite !Nat.sub_0_r. eauto. }
    destruct (j2len !! j) as [v|] eqn:Hv; cbn [from_option id].
    - destruct (Hprev j v Hv) as (Hv1 & Hv2 & Hvrun). unfold id.
      split_and!; [lia | lia |]. intros [|t] Ht.
      + rewrite !Nat.sub_0_r. eauto.
      + destruct (Hvrun t) as (d & Ha & Hb); [lia|].
        exists d. split; [rewrite <-Ha | rewrite <-Hb]; f_equal; lia.
    - split_and!; [lia | lia |]. intros t Ht. replace t with 0 by lia.
      rewrite !Nat.sub_0_r. eauto. }
  assert (j2len_match a b (S i) (<[j:=j2lenget_pred j2len j + 1]> new)) as Hnew'.
  { intros j' v. rewrite lookup_insert. case_decide as Hj'; [|by apply Hnew].
    intros [= <-]. subst j'. split_and!; [lia | lia |].
    intros t Ht. destruct (Hrun t Ht) as (d & Ha & Hb).
    exists d. split; [rewrite <-Ha; f_equal; lia | done]. }
  case_bool_decide; apply IH; try done.
  intros t Ht. cbn [fst snd] in *.
  destruct (Hrun (j2lenget_pred j2len j - t)) as (d & Ha & Hb); [lia|].
  exists d. split; [rewrite <-Ha | rewrite <-Hb]; f_equal; lia.
Qed.

Lemma scan_step_match blo bhi i j2len best :
  j2len_match a b i j2len → block_match a b best →
  j2len_match a b (S i) (scan_step a (chain_b b) blo bhi (j2len, best) i).1 ∧
  block_match a b (scan_step a (chain_b b) blo bhi (j2len, best) i).2.
Proof.
  intros Hprev Hbest. unfold scan_step.
  apply scan_row_match; try done.
  intros j Hj. destruct (a !! i) as [c|] eqn:Hai; cbn in Hj;
    [|by apply elem_of_nil in Hj].
  destruct (chain_b b !! c) as [js|] eqn:Hc; cbn in Hj;
    [|by apply elem_of_nil in Hj].
  apply DifflibFacts.chain_b_lookup in Hc as [-> _].
  apply DifflibFacts.positions_elem in Hj. eauto.
Qed.

Lemma scan_prefix_match alo blo bhi m :
  j2len_match a b (alo + m)
    (foldl (scan_step a (chain_b b) blo bhi) (∅, (alo, blo, 0)) (seq alo m)).1 ∧
  block_match a b
    (foldl (scan_step a (chain_b b) blo bhi) (∅, (alo, blo, 0)) (seq alo m)).2.
Proof.
  induction m as [|m IH].
  - cbn [seq foldl fst snd]. split.
    + by intros j v ?%lookup_empty_Some.
    + intros t Ht. cbn in Ht. lia.
  - rewrite seq_S, foldl_app. cbn [foldl].
    destruct IH as [Hj Hbest].
    destruct (foldl _ _ (seq alo m)) as [j2len best].
    replace (alo + S m) with (S (alo + m)) by lia.
    by apply scan_step_match.
Qed.

Lemma elem_eq_true x y : elem_eq x y = true → ∃ c, x = Some c ∧ y = Some c.
Proof.
  destruct x as [c|], y as [d|]; try done. cbn.
  intros ->%bool_decide_eq_true. eauto.
Qed.

Lemma extend_left_match junk alo blo bi : ∀ bj bs,
  block_match a b (bi, bj, bs) →
  block_match a b (extend_left a b junk alo blo bi bj bs).
Proof.
  induction bi as [|bi IH]; intros bj bs Hm; cbn [extend_left]; [done|].
  destruct bj as [|bj]; [done|].
  destruct (_ && _) eqn:Hc; [|done].
  apply andb_prop in Hc as [_ (c & Ha & Hb)%elem_eq_true].
  apply IH. intros [|t] Ht; cbn [fst snd] in *.
  - rewrite !Nat.add_0_r. eauto.
  - destruct (Hm t) as (d & Ha' & Hb'); [cbn; lia|]. cbn [fst snd] in *.
    exists d. split; [rewrite <-Ha' | rewrite <-Hb']; f_equal; lia.
Qed.

Lemma extend_right_match junk ahi bhi bi bj fuel : ∀ bs,
  block_match a b (bi, bj, bs) →
  block_match a b (bi, bj, extend_right a b junk ahi bhi bi bj bs fuel).
Proof.
  induction fuel as [|fuel IH]; intros bs Hm; cbn [extend_right]; [done|].
  destruct (_ && _) eqn:Hc; [|done].
  apply andb_prop in Hc as [_ (c & Ha & Hb)%elem_eq_true].
  apply IH. intros t Ht. cbn [fst snd] in *.
  destruct (decide (t = bs)) as [->|Hne]; [eauto|].
  apply (Hm t). cbn. lia.
Qed.

Lemma find_longest_match_match alo ahi blo bhi :
  block_match a b (find_longest_match a b (chain_b b) alo ahi blo bhi).
Proof.
  unfold find_longest_match, scan_rows.
  destruct (scan_prefix_match alo blo bhi (ahi - alo)) as [_ Hbest].
  destruct (foldl _ _ _) as [j2len [[bi bj] bs]]. cbn [snd] in *.
  pose proof (extend_left_match false alo blo bi bj bs Hbest) as H1.
  destruct (extend_left a b false alo blo bi bj bs) as [[bi1 bj1] bs1].
  pose proof (extend_right_match false ahi bhi bi1 bj1
                (ahi - (bi1 + bs1)) bs1 H1) as H2.
  pose proof (extend_left_match true alo blo bi1 bj1 _ H2) as H3.
  destruct (extend_left a b true alo blo bi1 bj1 _) as [[bi2 bj2] bs2].
  apply extend_right_match, H3.
Qed.

Lemma match_regions_match fuel : ∀ queue blocks out,
  match_regions fuel a b (chain_b b) queue blocks = Some out →
  Forall (λ blk, block_match a b blk ∧ blk.2 ≠ 0) blocks →
  Forall (λ blk, block_match a b blk ∧ blk.2 ≠ 0) out.
Proof.
  induction fuel as [|fuel IH]; intros queue blocks out;
    (destruct queue as [|[[[alo ahi] blo] bhi] queue];
     [by intros [= <-]|]); [done|].
  cbn [match_regions].
  pose proof (find_longest_match_match alo ahi blo bhi) as Hm.
  destruct (find_longest_match a b (chain_b b) alo ahi blo bhi) as [[i j] k].
  case_bool_decide as Hk; [|apply IH].
  intros Hout Hblocks. apply IH in Hout; [done|].
  apply Forall_app. split; [done|]. by apply Forall_singleton.
Qed.

End matches.

(** *** A ratio of 1 *)

Section full_match.
Variables (a b : list ascii) (b2j : gmap ascii (list nat)).

(** The blocks found take no more room than the smaller side of the
    regions they were found in. *)
Lemma match_regions_cap fuel : ∀ queue blocks out,
  Forall region_ok queue →
  match_regions fuel a b b2j queue blocks = Some out →
  sum_list (snd <$> out)
  ≤ sum_list (snd <$> blocks)
    + sum_list ((λ r, (r.1.1.2 - r.1.1.1) `min` (r.2 - r.1.2)) <$> queue).
Proof.
  induction fuel as [|fuel IH]; intros queue blocks out Hok;
    (destruct queue as [|[[[alo ahi] blo] bhi] queue];
     [intros [= <-]; cbn; lia|]); [done|].
  apply Forall_cons in Hok as [[Ha Hb] Hok]. cbn [fst snd] in Ha, Hb.
  cbn [match_regions].
  pose proof (DifflibFacts.find_longest_match_in a b b2j alo ahi blo bhi Ha Hb) as Hin.
  destruct (find_longest_match a b b2j alo ahi blo bhi) as [[i j] k].
  destruct Hin as (Hi1 & Hi2 & Hj1 & Hj2). cbn [fst snd] in *.
  case_bool_decide as Hk.
  2:{ intros Hout. pose proof (IH _ _ _ Hok Hout) as H1.
      cbn [fmap list_fmap sum_list_with fst snd]. lia. }
  intros Hout. apply IH in Hout as H1.
  - rewrite fmap_app, sum_list_with_app in H1.
    cbn [fmap list_fmap sum_list_with fst snd] in *. unfold id in *.
    repeat case_bool_decide; cbn [andb] in *;
      cbn [fmap list_fmap sum_list_with fst snd] in *; lia.
  - repeat case_bool_decide; cbn [andb]; repeat apply Forall_cons_2;
      try done; split; cbn [fst snd]; lia.
Qed.

(** When the blocks fill the regions, which all lie on the diagonal,
    every block lies on the diagonal and no position is lost. *)
Lemma match_regions_full fuel : ∀ queue blocks out,
  Forall (λ r, r.1.1.1 = r.1.2 ∧ r.1.1.2 = r.2 ∧ r.1.1.1 ≤ r.1.1.2) queue →
  match_regions fuel a b b2j queue blocks = Some out →
  sum_list (snd <$> out)
  = sum_list (snd <$> blocks) + sum_list ((λ r, r.1.1.2 - r.1.1.1) <$> queue) →
  Forall (λ blk, blk.1.1 = blk.1.2) blocks →
  Forall (λ blk, blk.1.1 = blk.1.2) out ∧
  ∀ p, held queue blocks p → held [] out p.
Proof.
  induction fuel as [|fuel IH]; intros queue blocks out Hsq;
    (destruct queue as [|[[[alo ahi] blo] bhi] queue];
     [intros [= <-]; done|]); [done|].
  apply Forall_cons in Hsq as [(Hlo & Hhi & Hle) Hsq]. cbn [fst snd] in Hlo, Hhi, Hle.
  subst blo bhi.
  assert (Forall region_ok queue) as Hok.
  { eapply Forall_impl; [exact Hsq|]. intros [[[? ?] ?] ?] (? & ? & ?).
    split; cbn [fst snd] in *; lia. }
  cbn [match_regions].
  pose proof (DifflibFacts.find_longest_match_in a b b2j alo ahi alo ahi Hle Hle) as Hin.
  destruct (find_longest_match a b b2j alo ahi alo ahi) as [[i j] k].
  destruct Hin as (Hi1 & Hi2 & Hj1 & Hj2). cbn [fst snd] in *.
  assert (∀ q : list (nat * nat * nat * nat), Forall region_ok q →
            sum_list ((λ r, (r.1.1.2 - r.1.1.1) `min` (r.2 - r.1.2)) <$> q)
            ≤ sum_list ((λ r, r.1.1.2 - r.1.1.1) <$> q)) as Hmin.
  { induction q as [|r q IHq]; [done|]. intros [_ Hq]%Forall_cons.
    specialize (IHq Hq). cbn [fmap list_fmap sum_list_with]. unfold id in *. lia. }
  case_bool_decide as Hk.
  2:{ (* no match in the region: the region is empty *)
      intros Hout Hsum Hdiag.
      pose proof (match_regions_cap _ _ _ _ Hok Hout) as Hcap.
      specialize (Hmin queue Hok).
      cbn [fmap list_fmap sum_list_with fst snd] in Hsum.
      assert (ahi = alo) as -> by (unfold id in *; lia).
      destruct (IH queue blocks out Hsq Hout) as [Hd Hheld];
        [unfold id in *; lia | done |].
      split; [done|]. intros p [Hp | (r & [->|Hr]%elem_of_cons & Hp)].
      - apply Hheld. by left.
      - cbn [fst snd] in Hp. lia.
      - apply Hheld. right. eauto. }
  intros Hout Hsum Hdiag.
  cbn [fmap list_fmap sum_list_with fst snd] in Hsum.
  destruct (decide (i = j)) as [<-|Hij].
  - (* a block on the diagonal *)
    assert ((if bool_decide (alo < i) && bool_decide (alo < i)
             then (alo, i, alo, i) :: queue else queue)
            = (if bool_decide (alo < i) then (alo, i, alo, i) :: queue else queue))
      as Hq1 by (by destruct (bool_decide (alo < i))).
    assert (∀ q : list (nat * nat * nat * nat),
              (if bool_decide (i + k < ahi) && bool_decide (i + k < ahi)
               then (i + k, ahi, i + k, ahi) :: q else q)
              = (if bool_decide (i + k < ahi) then (i + k, ahi, i + k, ahi) :: q else q))
      as Hq2 by (intros q; by destruct (bool_decide (i + k < ahi))).
    rewrite Hq1, Hq2 in Hout.
    assert (Forall (λ r : nat * nat * nat * nat,
                      r.1.1.1 = r.1.2 ∧ r.1.1.2 = r.2 ∧ r.1.1.1 ≤ r.1.1.2)
              (if bool_decide (i + k < ahi)
               then (i + k, ahi, i + k, ahi)
                    :: (if bool_decide (alo < i) then (alo, i, alo, i) :: queue
                        else queue)
               else if bool_decide (alo < i) then (alo, i, alo, i) :: queue
                    else queue)) as Hsq'.
    { repeat case_bool_decide; repeat apply Forall_cons_2; try done;
        cbn [fst snd]; lia. }
    destruct (IH _ _ _ Hsq' Hout) as [Hd Hheld].
    + rewrite fmap_app, sum_list_with_app.
      cbn [fmap list_fmap sum_list_with fst snd]. unfold id in *.
      repeat case_bool_decide; cbn [fmap list_fmap sum_list_with fst snd]; lia.
    + apply Forall_app. split; [done|]. by apply Forall_singleton.
    + split; [done|]. intros p Hp. apply Hheld.
      destruct Hp as [(blk & Hblk & Hp) | (r & [->|Hr]%elem_of_cons & Hp)].
      * left. exists blk. split; [|done]. apply elem_of_app. by left.
      * cbn [fst snd] in Hp.
        destruct (decide (p < i)) as [Hlt|Hge].
        { right. exists (alo, i, alo, i). split; [|cbn; lia].
          rewrite (bool_decide_eq_true_2 (alo < i)) by lia.
          case_bool_decide; [right; left | left]. }
        destruct (decide (p < i + k)) as [Hlt|Hge'].
        { left. exists (i, i, k). split; [|cbn; lia].
          apply elem_of_app. right. left. }
        right. exists (i + k, ahi, i + k, ahi). split; [|cbn; lia].
        rewrite (bool_decide_eq_true_2 (i + k < ahi)) by lia. left.
      * right. exists r. split; [|done].
        repeat case_bool_decide; repeat right; done.
  - (* a block off the diagonal leaves room unused *)
    exfalso.
    apply match_regions_cap in Hout as Hcap.
    2:{ repeat case_bool_decide; cbn [andb]; repeat apply Forall_cons_2;
          try done; split; cbn [fst snd]; lia. }
    rewrite fmap_app, sum_list_with_app in Hcap.
    specialize (Hmin queue Hok).
    cbn [fmap list_fmap sum_list_with fst snd] in Hcap. unfold id in *.
    repeat case_bool_decide; cbn [andb] in *;
      cbn [fmap list_fmap sum_list_with fst snd] in *; lia.
Qed.

End full_match.

Lemma get_matching_blocks_sizes a b blocks :
  get_matching_blocks a b = Some blocks →
  sum_list (snd <$> blocks) ≤ length a ∧ sum_list (snd <$> blocks) ≤ length b.
Proof.
  unfold get_matching_blocks.
  destruct (match_regions _ a b (chain_b b) _ _) as [found|] eqn:Hm; [|done].
  cbn [mbind option_bind].
  apply match_regions_cap in Hm as Hcap.
  2:{ apply Forall_singleton. split; cbn; lia. }
  cbn [fmap list_fmap sum_list_with fst snd] in Hcap. unfold id in Hcap.
  pose proof (collapse_sizes (merge_sort block_le found) 0 0 0 []) as Hc.
  assert (sum_list (snd <$> merge_sort block_le found) = sum_list (snd <$> found)) as Hs
    by (by rewrite merge_sort_Permutation).
  rewrite Hs in Hc.
  destruct (foldl collapse_step _ _) as [[[i1 j1] k1] non_adjacent].
  cbn [fst snd fmap list_fmap sum_list_with] in Hc.
  intros [= <-]. rewrite fmap_app, sum_list_with_app.
  case_bool_decide.
  - rewrite fmap_app, sum_list_with_app. cbn. unfold id in *. lia.
  - cbn. unfold id in *. lia.
Qed.

Lemma ratio_range a b : ∃ q, ratio a b = Some q ∧ (0 <= q)%Q ∧ (q <= 1)%Q.
Proof.
  destruct (DifflibFacts.ratio_total a b) as [q Hq]. exists q. split; [done|].
  unfold ratio in Hq.
  destruct (get_matching_blocks a b) as [blocks|] eqn:Hb; [|done].
  cbn [mbind option_bind] in Hq. injection Hq as <-.
  apply get_matching_blocks_sizes in Hb as [Ha Hb].
  unfold calculate_ratio. case_bool_decide as Hlen; [|done].
  unfold Qle. cbn [Qnum Qden].
  assert (Z.pos (Pos.of_nat (length a + length b))
          = Z.of_nat (length a + length b)) as ->.
  { destruct (length a + length b) as [|m] eqn:Hm; [lia|].
    rewrite <-Pos.of_nat_succ. lia. }
  lia.
Qed.



(** A ratio of 1 is the ratio of equal sequences only. *)
Lemma ratio_one a b q : ratio a b = Some q → Qeq q 1 → a = b.
Proof.
  unfold ratio. intros Hr Hq.
  destruct (get_matching_blocks a b) as [blocks|] eqn:Hb; [|done].
  cbn [mbind option_bind] in Hr. injection Hr as <-.
  pose proof (get_matching_blocks_sizes a b blocks Hb) as [Hsa Hsb].
  unfold calculate_ratio in Hq. case_bool_decide as Hlen.
  2:{ assert (length a = 0 ∧ length b = 0) as [Ha0 Hb0] by lia.
      apply nil_length_inv in Ha0, Hb0. by subst. }
  unfold Qeq in Hq. cbn [Qnum Qden] in Hq.
  assert (Z.pos (Pos.of_nat (length a + length b))
          = Z.of_nat (length a + length b)) as Hpos.
  { destruct (length a + length b) as [|m] eqn:Hm; [lia|].
    rewrite <-Pos.of_nat_succ. lia. }
  rewrite Hpos in Hq.
  assert (sum_list (snd <$> blocks) = length a ∧ length b = length a) as [Hsum Hlb]
    by lia.
  clear Hq Hpos Hsa Hsb Hlen.
  (* back to the blocks found *)
  unfold get_matching_blocks in Hb. rewrite Hlb in Hb.
  destruct (match_regions _ a b (chain_b b) _ _) as [found|] eqn:Hm; [|done].
  cbn [mbind option_bind] in Hb.
  assert (sum_list (snd <$> found) = length a) as Hfound.
  { pose proof (collapse_sizes (merge_sort block_le found) 0 0 0 []) as Hc.
    assert (sum_list (snd <$> merge_sort block_le found) = sum_list (snd <$> found)) as Hs
      by (by rewrite merge_sort_Permutation).
    rewrite Hs in Hc.
    destruct (foldl collapse_step _ _) as [[[i1 j1] k1] non_adjacent].
    cbn [fst snd fmap list_fmap sum_list_with] in Hc.
    injection Hb as <-. rewrite fmap_app, sum_list_with_app in Hsum.
    case_bool_decide.
    - rewrite fmap_app, sum_list_with_app in Hsum. cbn in Hsum. unfold id in *. lia.
    - cbn in Hsum. unfold id in *. lia. }
  clear Hb Hsum.
  pose proof (match_regions_match a b _ _ _ _ Hm (Forall_nil_2 _)) as Hmatch.
  assert (Forall (λ r : nat * nat * nat * nat,
                    r.1.1.1 = r.1.2 ∧ r.1.1.2 = r.2 ∧ r.1.1.1 ≤ r.1.1.2)
            [(0, length a, 0, length a)]) as Hsq
    by (apply Forall_singleton; cbn; lia).
  destruct (match_regions_full a b (chain_b b) _ _ _ _ Hsq Hm) as [Hdiag Hheld].
  { rewrite Hfound. cbn. unfold id. lia. }
  { constructor. }
  rewrite Forall_forall in Hmatch, Hdiag.
  apply list_eq. intros p.
  destruct (decide (p < length a)) as [Hp|Hp].
  2:{ rewrite !lookup_ge_None_2 by lia. done. }
  destruct (Hheld p) as [(blk & Hblk & Hin) | (r & Hr & _)];
    [| | by apply elem_of_nil in Hr].
  { right. exists (0, length a, 0, length a). split; [left | cbn; lia]. }
  destruct (Hmatch blk Hblk) as [Hbm _].
  destruct (Hbm (p - blk.1.1)) as (c & Hac & Hbc); [lia|].
  rewrite <-(Hdiag blk Hblk) in Hbc.
  replace (blk.1.1 + (p - blk.1.1)) with p in Hac, Hbc by lia.
  by rewrite Hac, Hbc.
Qed.

(** Sequences without a common element have ratio 0. *)
Lemma ratio_disjoint a b q :
  (∀ c, c ∈ a → c ∉ b) → ratio a b = Some q → length a + length b ≠ 0 → Qeq q 0.
Proof.
  intros Hdis Hr Hlen. unfold ratio in Hr.
  destruct (get_matching_blocks a b) as [blocks|] eqn:Hb; [|done].
  cbn [mbind option_bind] in Hr. injection Hr as <-.
  unfold get_matching_blocks in Hb.
  destruct (match_regions _ a b (chain_b b) _ _) as [found|] eqn:Hm; [|done].
  cbn [mbind option_bind] in Hb.
  pose proof (match_regions_match a b _ _ _ _ Hm (Forall_nil_2 _)) as Hmatch.
  assert (found = []) as ->.
  { destruct found as [|blk found]; [done|].
    apply Forall_cons in Hmatch as [[Hbm Hk] _].
    destruct (Hbm 0) as (c & Hac & Hbc); [lia|].
    destruct (Hdis c); by eapply list_elem_of_lookup_2. }
  change (merge_sort block_le []) with (@nil block) in Hb. cbn in Hb.
  injection Hb as <-. unfold calculate_ratio.
  rewrite bool_decide_eq_true_2 by done. done.
Qed.

End DifflibRange.

(** Property X19.  The similarity of two names is a number between 0 and 1,
    for every pair of names. *)
Theorem name_similarity_range (name1 name2 : string) :
  ∃ q, name_similarity name1 name2 = Some q ∧ (0 <= q)%Q ∧ (q <= 1)%Q.
Proof. apply DifflibRange.ratio_range. Qed.

(** Property X20.  The similarity of two names is 1 exactly when the names
    are equal once upper-cased: the score of a full match is reserved to
    names that differ in case only. *)
Theorem name_similarity_one_iff (name1 name2 : string) :
  (∃ q, name_similarity name1 name2 = Some q ∧ Qeq q 1) ↔ upper name1 = upper name2.
Proof.
  unfold name_similarity. split.
  - intros (q & Hr & Hq).
    apply (DifflibRange.ratio_one _ _ _ Hr) in Hq.
    apply (f_equal string_of_list_ascii) in Hq.
    by rewrite !string_of_list_ascii_of_string in Hq.
  - intros ->. apply DifflibFacts.ratio_self.
Qed.

(** Property X21.  Names without a common character, upper-cased, have
    similarity 0, unless both are empty. *)
Theorem name_similarity_no_common_character (name1 name2 : string) :
  Forall (λ c, c ∉ list_ascii_of_string (upper name2))
         (list_ascii_of_string (upper name1)) →
  name1 ≠ "" ∨ name2 ≠ "" →
  ∃ q, name_similarity name1 name2 = Some q ∧ Qeq q 0.
Proof.
  intros Hdis Hne. unfold name_similarity.
  destruct (DifflibFacts.ratio_total (list_ascii_of_string (upper name1))
              (list_ascii_of_string (upper name2))) as [q Hq].
  exists q. split; [done|].
  apply (DifflibRange.ratio_disjoint _ _ _ (proj1 (Forall_forall _ _) Hdis) Hq).
  destruct Hne as [Hne|Hne]; [destruct name1 | destruct name2]; try done; cbn; lia.
Qed.

Lemma name_similarity_no_common_character_witness :
  ∃ q, name_similarity "Ann Lee" "BORIS" = Some q ∧ Qeq q 0.
Proof.
  apply (name_similarity_no_common_character "Ann Lee" "BORIS").
  - apply (bool_decide_unpack _). vm_compute. exact I.
  - left. discriminate.
Defined.

(** ** Review step *)

Section key_facts.

Lemma pretty_N_go_digits x : ∀ s,
  all_chars is_digit s = true → all_chars is_digit (pretty_N_go x s) = true.
Proof.
  induction (N.lt_wf_0 x) as [x _ IH]; intros s Hs.
  assert (x = 0 ∨ 0 < x)%N as [->|Hx] by lia.
  { by rewrite pretty_N_go_0. }
  rewrite pretty_N_go_step by done. apply IH.
  { by apply N.div_lt. }
  cbn [all_chars]. rewrite Hs, andb_true_r.
  unfold pretty_N_char. by repeat case_match.
Qed.

Lemma pretty_nat_digits (n : nat) : all_chars is_digit (pretty n) = true.
Proof.
  unfold pretty, pretty_nat, pretty, pretty_N. case_decide; [done|].
  by apply pretty_N_go_digits.
Qed.

(** Two strings of digits followed by the same other character. *)
Lemma digits_sep c d1 : ∀ d1' r r',
  is_digit c = false →
  all_chars is_digit d1 = true → all_chars is_digit d1' = true →
  d1 ++ String c r = d1' ++ String c r' → d1 = d1' ∧ r = r'.
Proof.
  induction d1 as [|x d1 IH]; intros [|x' d1'] r r' Hc H1 H1' Heq.
  - by injection Heq.
  - rewrite string_app_cons in Heq. injection Heq as <- _.
    cbn [all_chars] in H1'. by rewrite Hc in H1'.
  - rewrite string_app_cons in Heq. injection Heq as -> _.
    cbn [all_chars] in H1. by rewrite Hc in H1.
  - rewrite !string_app_cons in Heq. injection Heq as <- Heq.
    cbn [all_chars] in H1, H1'.
    apply andb_prop in H1 as [_ H1]. apply andb_prop in H1' as [_ H1'].
    destruct (IH d1' r r' Hc H1 H1' Heq) as [-> ->]. done.
Qed.

End key_facts.

(** Property X22.  The keys of the decisions are unique: two candidates have
    the same key only when they are the same candidate of the same person. *)
Theorem match_key_unique (person_idx match_idx person_idx' match_idx' : nat) :
  match_key person_idx match_idx = match_key person_idx' match_idx'
  ↔ person_idx = person_idx' ∧ match_idx = match_idx'.
Proof.
  split; [|by intros [-> ->]].
  unfold match_key. intros Heq.
  apply (String.app_inj "person") in Heq.
  change ("_match" ++ pretty match_idx) with (String "_" ("match" ++ pretty match_idx)) in Heq.
  change ("_match" ++ pretty match_idx') with (String "_" ("match" ++ pretty match_idx')) in Heq.
  apply digits_sep in Heq as [Hp Hm]; [| done | apply pretty_nat_digits..].
  apply (inj pretty) in Hp.
  apply (String.app_inj "match") in Hm. apply (inj pretty) in Hm. done.
Qed.

(** Property X23.  The date of birth of a candidate is formatted without
    error exactly when the candidate carries a month of birth.  So for a
    person whose own month of birth is unknown, shown as [Unknown], the
    expression raises for every candidate that the filter of the input step
    kept. *)
Theorem match_dob_str_raises_without_month :
  (∀ o, match_dob_str o = inr ValueError ↔ month (dob_of o) = None) ∧
  (∀ p verified_ids officer_results m,
     dob_month p = None →
     m ∈ potential_matches p verified_ids officer_results →
     dob_str p = "Unknown" ∧ match_dob_str (pm_officer m) = inr ValueError).
Proof.
  assert (∀ o, match_dob_str o = inr ValueError ↔ month (dob_of o) = None) as Hiff.
  { intros o. unfold match_dob_str, dob_of.
    destruct (month (default (Dob None None) (date_of_birth o))); done. }
  split; [done|].
  intros p verified_ids officer_results m Hp Hm. split.
  - unfold dob_str. by rewrite Hp.
  - apply Hiff.
    apply potential_matches_elem in Hm as [Hm | (_ & Hd & _)];
      [by apply elem_of_nil in Hm|].
    apply match_dob_true in Hd as [Hmo _]. by rewrite Hmo.
Qed.

(** ** Results step *)

Section results_facts.

Lemma confirmed_ids_app person_idx match_decisions : ∀ verified_ids,
  ∃ added,
    confirmed_ids person_idx verified_ids match_decisions
    = (verified_ids ++ added)%list ∧
    ∀ oid, oid ∈ added ↔
      ∃ kd, kd ∈ match_decisions ∧ Decisions.person_idx kd.2 = person_idx ∧
            Decisions.decision kd.2 = "Yes" ∧ Decisions.officer_id kd.2 = oid.
Proof.
  unfold confirmed_ids.
  induction match_decisions as [|kd match_decisions IH]; intros verified_ids.
  { exists []. rewrite app_nil_r. split; [done|]. intros oid. split.
    - by intros ?%elem_of_nil.
    - by intros (kd & ?%elem_of_nil & _). }
  cbn [foldl].
  destruct (bool_decide (Decisions.person_idx kd.2 = person_idx)
            && (Decisions.decision kd.2 =? "Yes")) eqn:Hyes.
  - destruct (IH (verified_ids ++ [Decisions.officer_id kd.2])%list) as (added & -> & Hadded).
    exists (Decisions.officer_id kd.2 :: added). split.
    { by rewrite <-(assoc_L (++)%list). }
    apply andb_prop in Hyes as [Hidx%bool_decide_eq_true Hd%String.eqb_eq].
    intros oid. rewrite elem_of_cons, Hadded. split.
    + intros [-> | (kd' & Hin & ?)]; [exists kd | exists kd'];
        (split; [|done]); [left | by right].
    + intros (kd' & [->|Hin]%elem_of_cons & Hi & Hy & Ho); [by left|].
      right. by exists kd'.
  - destruct (IH verified_ids) as (added & -> & Hadded).
    exists added. split; [done|].
    intros oid. rewrite Hadded. split.
    + intros (kd' & Hin & ?). exists kd'. split; [by right | done].
    + intros (kd' & [->|Hin]%elem_of_cons & Hi & Hy & Ho); [|by exists kd'].
      apply andb_false_iff in Hyes as [Hn%bool_decide_eq_false | Hn%String.eqb_neq];
        done.
Qed.

End results_facts.

(** Property X24.  The results step collects no appointments and shows no
    company, for any person and whatever was confirmed: the block of a
    person sends no request.  When the person has no verified officer id,
    neither its own nor one of a candidate answered [Yes], the block shows
    the notice that no officer ids were confirmed and the loop continues
    with the next person; when the person has a verified officer id, the
    block shows nothing, because the collection of the appointments and the
    call of [categorize_companies] stand after that [continue]. *)
Theorem show_results_collects_nothing {case : Type} (frames : nat)
    (transport_appointments :
       nat → string → option params_t → result (response (Listing.t appointment)))
    (transport_insolvency :
       nat → string → option params_t → result (response (insolvency case)))
    (fuel person_idx : nat) (stored_verified_ids : list string)
    (match_decisions : list (string * Decisions.t)) (n : nat) :
  let confirmed :=
    ∃ kd, kd ∈ match_decisions ∧ Decisions.person_idx kd.2 = person_idx ∧
          Decisions.decision kd.2 = "Yes" in
  show_results_person frames transport_appointments transport_insolvency
    fuel person_idx stored_verified_ids match_decisions n
  = (Ok (if bool_decide (confirmed_ids person_idx stored_verified_ids match_decisions = [])
         then ([ShowInfo "No officer IDs confirmed"], Continue)
         else ([], Next tt)), n) ∧
  (confirmed_ids person_idx stored_verified_ids match_decisions = []
   ↔ stored_verified_ids = [] ∧ ¬ confirmed).
Proof.
  intros confirmed. subst confirmed. split.
  - unfold show_results_person. by case_bool_decide.
  - destruct (confirmed_ids_app person_idx match_decisions stored_verified_ids)
      as (added & -> & Hadded).
    split.
    + intros [-> ->]%app_eq_nil. split; [done|].
      intros (kd & Hin & Hi & Hy).
      assert (Decisions.officer_id kd.2 ∈ []) as Hx%elem_of_nil; [|done].
      apply Hadded. by exists kd.
    + intros [-> Hnone]. destruct added as [|oid added]; [done|].
      destruct (proj1 (Hadded oid)) as (kd & Hin & Hi & Hy & _); [left|].
      destruct Hnone. by exists kd.
Qed.

(** ** Confidence label *)

Section label_thresholds.

Lemma Qle_bool_trans_true (x y z : Q) :
  Qle_bool x y = true → Qle_bool y z = true → Qle_bool x z = true.
Proof. rewrite !Qle_bool_iff. apply Qle_trans. Qed.

Lemma confidence_one (q : Q) :
  Qeq q 1 →
  get_confidence_label q = ("VERY HIGH ✓✓", "#28a745") ∧ suggested_index q = 0%nat.
Proof.
  intros Hq. unfold get_confidence_label, suggested_index.
  assert (Qle_bool float_0_95 q = true) as ->.
  { apply Qle_bool_iff. rewrite Hq. unfold Qle. cbn. lia. }
  assert (Qle_bool float_0_85 q = true) as ->; [|done].
  apply Qle_bool_iff. rewrite Hq. unfold Qle. cbn. lia.
Qed.

Lemma confidence_zero (q : Q) :
  Qeq q 0 →
  get_confidence_label q = ("VERY LOW ✗", "#dc3545") ∧ suggested_index q = 1%nat.
Proof.
  intros Hq. unfold get_confidence_label, suggested_index.
  assert (∀ a b : positive, Qle_bool (Z.pos a # b) q = false) as Hlow.
  { intros a b. destruct (Qle_bool (Z.pos a # b) q) eqn:Hle; [|done].
    apply Qle_bool_iff in Hle. rewrite Hq in Hle. unfold Qle in Hle. cbn in Hle. lia. }
  unfold float_0_95, float_0_85, float_0_70, float_0_50. by rewrite !Hlow.
Qed.

End label_thresholds.

(** Property X25.  The label and the answer suggested for a candidate
    agree: the radio button starts on [Yes] exactly when the label is one
    of the two highest.  A candidate whose name equals the person's up to
    case gets the highest label and the suggestion [Yes]; a candidate
    whose name shares no character with the person's gets the lowest
    label and the suggestion [No]; in both cases the float is the exact
    ratio, 1.0 and 0.0. *)
Theorem confidence_label_agrees_with_suggestion :
  (∀ similarity,
     suggested_index similarity = 0%nat
     ↔ (get_confidence_label similarity).1 = "VERY HIGH ✓✓" ∨
       (get_confidence_label similarity).1 = "HIGH ✓") ∧
  (∀ name1 name2 q,
     name_similarity name1 name2 = Some q → upper name1 = upper name2 →
     get_confidence_label q = ("VERY HIGH ✓✓", "#28a745") ∧
     suggested_index q = 0%nat) ∧
  (∀ name1 name2 q,
     name_similarity name1 name2 = Some q →
     Forall (λ c, c ∉ list_ascii_of_string (upper name2))
            (list_ascii_of_string (upper name1)) →
     name1 ≠ "" ∨ name2 ≠ "" →
     get_confidence_label q = ("VERY LOW ✗", "#dc3545") ∧
     suggested_index q = 1%nat).
Proof.
  split_and!.
  - intros s. unfold suggested_index, get_confidence_label.
    destruct (Qle_bool float_0_95 s) eqn:H95.
    + assert (Qle_bool float_0_85 s = true) as ->.
      { apply (Qle_bool_trans_true _ float_0_95); [|done].
        apply Qle_bool_iff. unfold Qle. cbn. lia. }
      split; [by left | done].
    + destruct (Qle_bool float_0_85 s); [split; [by right | done]|].
      split; [done|].
      destruct (Qle_bool float_0_70 s); [by intros [?|?]|].
      destruct (Qle_bool float_0_50 s); by intros [?|?].
  - intros name1 name2 q Hr Heq. apply confidence_one.
    unfold name_similarity in Hr. rewrite Heq in Hr.
    destruct (DifflibFacts.ratio_self (list_ascii_of_string (upper name2)))
      as (q' & Hr' & Hq').
    congruence.
  - intros name1 name2 q Hr Hdis Hne. apply confidence_zero.
    apply (DifflibRange.ratio_disjoint _ _ _ (proj1 (Forall_forall _ _) Hdis) Hr).
    destruct Hne as [Hne|Hne]; [destruct name1 | destruct name2]; try done; cbn; lia.
Qed.
